(** * Audio tuner: pitch shifting engines, WAV codec and frequency mapper

    A shallow embedding of the C sources

      - [Testing/phase_vocoder/phase_voc.c]  (phase vocoder, float WAV codec)
      - [Testing/phase_vocoder/psola.c]      (PSOLA engine)
      - [Software/audio_tuner/src/helloworld.c] (16-bit WAV codec, frequency
        mapper)

    C [float] is IEEE-754 binary32 and C [double] is binary64; both are
    modelled with the executable specification of the Standard Library
    ([SpecFloat]), every operation rounding to nearest-even as the hardware
    does.  C [int] variables that only index buffers are modelled as [Z];
    unsigned 32/16/8-bit header fields wrap around explicitly. *)

From Stdlib Require Import ZArith List Lia Bool.
From Stdlib Require Import Floats.SpecFloat.
From Stdlib Require Import Reals Lra.
Import ListNotations.
Local Open Scope Z_scope.

(** ** IEEE-754 arithmetic as the C code uses it *)

Module IEEE.

Definition float := spec_float.   (* C float: binary32 *)
Definition double := spec_float.  (* C double: binary64 *)

(** binary32 operations. *)
Definition fadd : float -> float -> float := SFadd 24 128.
Definition fsub : float -> float -> float := SFsub 24 128.
Definition fmul : float -> float -> float := SFmul 24 128.
Definition fdiv : float -> float -> float := SFdiv 24 128.
Definition fneg : float -> float := SFopp.
Definition fabsf : float -> float := SFabs.
Definition sqrtf : float -> float := SFsqrt 24 128.

(** binary64 operations. *)
Definition dadd : double -> double -> double := SFadd 53 1024.
Definition dsub : double -> double -> double := SFsub 53 1024.
Definition dmul : double -> double -> double := SFmul 53 1024.
Definition ddiv : double -> double -> double := SFdiv 53 1024.

(** Comparisons; every comparison with a NaN is false. *)
Definition flt : spec_float -> spec_float -> bool := SFltb.
Definition fgt (x y : spec_float) : bool := SFltb y x.
Definition fle : spec_float -> spec_float -> bool := SFleb.
Definition fge (x y : spec_float) : bool := SFleb y x.

(** Conversions.  [(double)x] is exact, [(float)d] rounds. *)
Definition double_of_float (x : float) : double :=
  match x with
  | S754_finite s m e => binary_round 53 1024 s m e
  | _ => x
  end.

Definition float_of_double (d : double) : float :=
  match d with
  | S754_finite s m e => binary_round 24 128 s m e
  | _ => d
  end.

Definition float_of_int (z : Z) : float := binary_normalize 24 128 z 0 false.
Definition double_of_int (z : Z) : double := binary_normalize 53 1024 z 0 false.

(** [(int)x]: truncation toward zero.  The conversion of a NaN, of an
    infinity or of a value outside the range of [int] is undefined in C;
    the model returns 0 for NaN and infinities and the unbounded truncation
    otherwise. *)
Definition int_of_float (x : spec_float) : Z :=
  match x with
  | S754_finite s m e =>
      let a := match e with
               | Zneg p => Z.pos m / 2 ^ Z.pos p
               | _ => Z.pos m * 2 ^ e
               end in
      if s then - a else a
  | _ => 0
  end.

Definition is_nan (x : spec_float) : bool :=
  match x with S754_nan => true | _ => false end.

Definition is_finite (x : spec_float) : bool :=
  match x with S754_finite _ _ _ | S754_zero _ => true | _ => false end.

(** Well-formed binary32 datum: canonical mantissa and exponent in range. *)
Definition valid32 (x : float) : bool := valid_binary 24 128 x.

(** Literals of the sources, correctly rounded to binary32. *)
Definition f0 : float := S754_zero false.
Definition f1 : float := Eval vm_compute in float_of_int 1.
Definition f2 : float := Eval vm_compute in float_of_int 2.
Definition f0_5 : float := Eval vm_compute in fdiv (float_of_int 1) (float_of_int 2).
Definition f0_9 : float := Eval vm_compute in fdiv (float_of_int 9) (float_of_int 10).
Definition f0_3 : float := Eval vm_compute in fdiv (float_of_int 3) (float_of_int 10).
Definition f1_2 : float := Eval vm_compute in fdiv (float_of_int 12) (float_of_int 10).
Definition f0_001 : float := Eval vm_compute in fdiv (float_of_int 1) (float_of_int 1000).
Definition f12 : float := Eval vm_compute in float_of_int 12.
Definition f69 : float := Eval vm_compute in float_of_int 69.
Definition f440 : float := Eval vm_compute in float_of_int 440.
Definition f32767 : float := Eval vm_compute in float_of_int 32767.
Definition f32768 : float := Eval vm_compute in float_of_int 32768.
Definition f65536 : float := Eval vm_compute in float_of_int 65536.

(** [M_PI = 3.14159265358979323846] as a double: 0x400921FB54442D18. *)
Definition M_PI : double := S754_finite false 7074237752028440 (-51).

(** [2.0f * M_PI], a double product. *)
Definition two_pi : double := Eval vm_compute in dmul (double_of_float f2) M_PI.

End IEEE.
Import IEEE.

(** ** The C math library

    [cosf], [sinf], [atan2f], [powf] and [logf] come from libm, which is not
    part of the repository; the engines are parameterised by them. *)

Class Libm := {
  cosf : float -> float;
  sinf : float -> float;
  atan2f : float -> float -> float;
  powf : float -> float -> float;
  logf : float -> float
}.

(** ** Buffers *)

Record AudioBuffer := {
  data : list float;
  length : Z;
  sample_rate : Z
}.

(** The invariant of the data model: [length] is the number of samples. *)
Definition wf_buffer (b : AudioBuffer) : Prop :=
  b.(length) = Z.of_nat (List.length b.(data)).

(** C array read [a[i]]; indices outside the array do not occur on the paths
    the theorems look at, the model reads [+0.0] there. *)
Definition rd (a : list float) (i : Z) : float :=
  if i <? 0 then f0 else nth (Z.to_nat i) a f0.

(** [for (i = 0; i < n; i++)] index range. *)
Definition range (n : Z) : list Z := map Z.of_nat (seq 0 (Z.to_nat n)).

(** [for (i = lo; i < hi; i++)] index range. *)
Definition range_from (lo hi : Z) : list Z := map (fun i => lo + i) (range (hi - lo)).

(** Array write [a[i] = v] inside the bounds of [a]. *)
Fixpoint upd {A} (a : list A) (i : nat) (v : A) : list A :=
  match a, i with
  | [], _ => []
  | _ :: t, O => v :: t
  | h :: t, S j => h :: upd t j v
  end.

(** ** Peak normalisation shared by both engines

    [max_val = 0; for each sample: abs_val = fabsf(x); if (abs_val > max_val)
    max_val = abs_val;] then, if [max_val > 0.001f], every sample is
    multiplied by [0.9f / max_val]. *)

Definition peak (samples : list float) : float :=
  fold_left (fun max_val x => let abs_val := fabsf x in
                              if fgt abs_val max_val then abs_val else max_val)
            samples f0.

Definition normalize (samples : list float) : list float :=
  let max_val := peak samples in
  if fgt max_val f0_001 then
    let norm_factor := fdiv f0_9 max_val in
    map (fun x => fmul x norm_factor) samples
  else samples.

(** Pitch-ratio clamp that opens both engines:
    [if (pitch_ratio < 0.5f) pitch_ratio = 0.5f;
     if (pitch_ratio > 2.0f) pitch_ratio = 2.0f;] *)
Definition clamp_ratio (pitch_ratio : float) : float :=
  let pitch_ratio := if flt pitch_ratio f0_5 then f0_5 else pitch_ratio in
  if fgt pitch_ratio f2 then f2 else pitch_ratio.

(** [hanning(n, N) = 0.5f * (1.0f - cosf(2.0f * M_PI * n / (N - 1)))]; the
    argument of [cosf] is computed in double and rounded to float. *)
Definition hanning `{Libm} (n N : Z) : float :=
  fmul f0_5
       (fsub f1 (cosf (float_of_double
                         (ddiv (dmul two_pi (double_of_int n))
                               (double_of_int (N - 1)))))).

(** ** PSOLA engine ([psola.c]) *)

Module Psola.

Definition MAX_PERIOD : Z := 2048.
Definition MIN_PERIOD : Z := 32.

(** Pitch marks: the C structure is a growable array of positions
    ([pitch_marks_add] doubles the capacity on demand); the model keeps the
    positions as a list, its length is [count]. *)
Definition PitchMarks := list Z.

Definition pitch_marks_add (pm : PitchMarks) (position : Z) : PitchMarks :=
  pm ++ [position].

(** One lag of the autocorrelation search: the inner loop accumulates
    [corr] and [energy] over [i < search_length - lag]. *)
Definition correlate (buffer : list float) (start search_length lag : Z)
  : float * float :=
  fold_left
    (fun (ce : float * float) i =>
       let '(corr, energy) := ce in
       (fadd corr (fmul (rd buffer (start + i)) (rd buffer (start + i + lag))),
        fadd energy (fmul (rd buffer (start + i)) (rd buffer (start + i)))))
    (range (search_length - lag)) (f0, f0).

(** The outer loop keeps [(max_corr, best_lag)]. *)
Definition best_correlation (buffer : list float) (start search_length : Z)
  : float * Z :=
  fold_left
    (fun (st : float * Z) lag =>
       let '(max_corr, best_lag) := st in
       let '(corr, energy) := correlate buffer start search_length lag in
       if fgt energy f0 then
         let corr := fdiv corr energy in
         if fgt corr max_corr then (corr, lag) else (max_corr, best_lag)
       else (max_corr, best_lag))
    (range_from MIN_PERIOD search_length) (f0, MIN_PERIOD).

Definition detect_pitch_period (buffer : list float) (start length : Z) : float :=
  if start + MAX_PERIOD >=? length then f0
  else
    let search_length :=
      if length - start <? MAX_PERIOD then length - start else MAX_PERIOD in
    let '(max_corr, best_lag) := best_correlation buffer start search_length in
    if fgt max_corr f0_3 then float_of_int best_lag else f0.

(** The [while (position < audio->length)] loop; the list returned holds
    the marks added from [position] on.  [None] only when the fuel runs
    out, which [detect_pitch_marks_total] rules out. *)
Fixpoint detect_pitch_marks_loop (fuel : nat) (audio : AudioBuffer)
         (position : Z) : option PitchMarks :=
  if position <? audio.(length) then
    match fuel with
    | O => None
    | S fuel' =>
        let period :=
          detect_pitch_period audio.(data) position audio.(length) in
        let position :=
          if fgt period f0 && flt period (float_of_int MAX_PERIOD)
          then position + int_of_float period
          else position + 200 in
        match detect_pitch_marks_loop fuel' audio position with
        | None => None
        | Some rest =>
            Some (if position <? audio.(length) then position :: rest else rest)
        end
    end
  else Some [].

Definition detect_pitch_marks (audio : AudioBuffer) : option PitchMarks :=
  match detect_pitch_marks_loop (Z.to_nat audio.(length)) audio 0 with
  | None => None
  | Some rest => Some (0 :: rest)
  end.

Definition count (pm : PitchMarks) : Z := Z.of_nat (List.length pm).
Definition pos_at (pm : list Z) (i : Z) : Z := nth (Z.to_nat i) pm 0.

Section Engine.
Context `{Libm}.

Definition extract_grain (input : list float) (input_length center grain_size : Z)
  : list float :=
  let half_size := Z.quot grain_size 2 in
  map (fun i =>
         let pos := center - half_size + i in
         if (0 <=? pos) && (pos <? input_length)
         then fmul (rd input pos) (hanning i grain_size)
         else f0)
      (range grain_size).

Definition overlap_add (output grain : list float)
           (center grain_size output_length : Z) : list float :=
  let half_size := Z.quot grain_size 2 in
  fold_left
    (fun out i =>
       let pos := center - half_size + i in
       if (0 <=? pos) && (pos <? output_length)
       then upd out (Z.to_nat pos) (fadd (rd out pos) (rd grain i))
       else out)
    (range grain_size) output.

(** [periods[i] = positions[i+1] - positions[i]] for [i < count - 1]. *)
Definition periods_of (marks : PitchMarks) : list Z :=
  map (fun i => pos_at marks (i + 1) - pos_at marks i) (range (count marks - 1)).

(** The loop that lays out the output marks; returns the marks added. *)
Fixpoint output_marks_loop (fuel : nat) (periods : list Z) (pitch_ratio : float)
         (length nmarks out_pos in_idx : Z) : option PitchMarks :=
  if (out_pos <? length) && (in_idx <? nmarks - 1) then
    match fuel with
    | O => None
    | S fuel' =>
        let out_period :=
          int_of_float (fdiv (float_of_int (pos_at periods in_idx)) pitch_ratio) in
        let out_period := if out_period <? 20 then 20 else out_period in
        let out_pos := out_pos + out_period in
        let in_idx := in_idx + 1 in
        let in_idx :=
          if (in_idx >=? nmarks - 1) && (out_pos <? length)
          then nmarks - 2 else in_idx in
        match output_marks_loop fuel' periods pitch_ratio length nmarks
                                out_pos in_idx with
        | None => None
        | Some rest => Some (if out_pos <? length then out_pos :: rest else rest)
        end
    end
  else Some [].

(** Index of the input mark closest to [out_mark] (first minimum). *)
Definition closest_mark (input_marks : PitchMarks) (out_mark : Z) : Z :=
  fst (fold_left
         (fun (st : Z * Z) j =>
            let '(closest_in_mark, min_dist) := st in
            let dist := Z.abs (pos_at input_marks j - out_mark) in
            if dist <? min_dist then (j, dist) else st)
         (range_from 1 (count input_marks))
         (0, Z.abs (pos_at input_marks 0 - out_mark))).

(** Body of the synthesis loop for one output mark. *)
Definition place_grain (input : AudioBuffer) (input_marks : PitchMarks)
           (grain_size : Z) (output : list float) (out_mark : Z) : list float :=
  let closest_in_mark := closest_mark input_marks out_mark in
  let in_mark := pos_at input_marks closest_in_mark in
  if (in_mark <? 0) || (in_mark >=? input.(length)) then output
  else if (out_mark <? 0) || (out_mark >=? input.(length)) then output
  else
    let local_grain_size :=
      if closest_in_mark <? count input_marks - 1 then
        let local_period := pos_at input_marks (closest_in_mark + 1) - in_mark in
        if (20 <? local_period) && (local_period <? MAX_PERIOD) then
          let l := local_period * 2 in
          if l >? grain_size then grain_size else l
        else grain_size
      else grain_size in
    let grain :=
      extract_grain input.(data) input.(length) in_mark local_grain_size in
    overlap_add output grain out_mark local_grain_size input.(length).

(** Steps 2 to 6: the overlap-added signal before normalisation. *)
Definition synthesize (input : AudioBuffer) (pitch_ratio : float)
           (input_marks : PitchMarks) : option (list float) :=
  let periods := periods_of input_marks in
  let total_period := fold_left Z.add periods 0 in
  let avg_period := Z.quot total_period (count input_marks - 1) in
  match output_marks_loop (Z.to_nat input.(length)) periods pitch_ratio
                          input.(length) (count input_marks) 0 0 with
  | None => None
  | Some rest =>
      let output_marks := 0 :: rest in
      let output := repeat f0 (Z.to_nat input.(length)) in
      let grain_size := avg_period * 2 in
      let grain_size := if grain_size <? 64 then 64 else grain_size in
      let grain_size := if grain_size >? 4096 then 4096 else grain_size in
      Some (fold_left (place_grain input input_marks grain_size)
                      output_marks output)
  end.

(** The engine after the clamp; [None] is the C [NULL] result. *)
Definition psola_body (input : AudioBuffer) (pitch_ratio : float)
  : option AudioBuffer :=
  match detect_pitch_marks input with
  | None => None
  | Some input_marks =>
      if count input_marks <? 2 then None
      else
        match synthesize input pitch_ratio input_marks with
        | None => None
        | Some output =>
            Some {| data := normalize output;
                    length := input.(length);
                    sample_rate := input.(sample_rate) |}
        end
  end.

Definition psola_pitch_shift (input : AudioBuffer) (pitch_ratio : float)
  : option AudioBuffer :=
  let pitch_ratio := clamp_ratio pitch_ratio in
  psola_body input pitch_ratio.

(** The call as the caller sees it.  The engine is handed a pointer to
    [input] and returns a pointer to a buffer of its own or [NULL]; it
    reads [input->data], [input->length] and [input->sample_rate] and has
    no assignment through [input].  The pair is the content of the
    caller's buffer after the call and the result. *)
Definition psola_call (input : AudioBuffer) (pitch_ratio : float)
  : AudioBuffer * option AudioBuffer :=
  (input, psola_pitch_shift input pitch_ratio).

End Engine.

End Psola.

(** ** Loops that may run forever

    [wrap_phase] is a pair of [while] loops with no bound on the number of
    iterations.  Such code is run with a fuel; [Timeout] means that the fuel
    did not suffice, [Done] carries what the C function returned. *)

Inductive outcome (A : Type) : Type :=
| Timeout
| Done (a : A).
Arguments Timeout {A}.
Arguments Done {A} a.

Definition bind {A B} (x : outcome A) (f : A -> outcome B) : outcome B :=
  match x with
  | Timeout => Timeout
  | Done a => f a
  end.

Notation "x <- c1 ;; c2" := (bind c1 (fun x => c2))
  (at level 61, c1 at next level, right associativity).

Fixpoint mapM {A B} (f : A -> outcome B) (l : list A) : outcome (list B) :=
  match l with
  | [] => Done []
  | a :: t => b <- f a ;; bs <- mapM f t ;; Done (b :: bs)
  end.

(** ** Phase vocoder engine ([phase_voc.c]) *)

Module PhaseVocoder.

Definition FFT_SIZE : Z := 2048.
Definition HOP_SIZE : Z := 512.
Definition OVERLAP_FACTOR : Z := Z.quot FFT_SIZE HOP_SIZE.

Record Complex := { real : float; imag : float }.

Definition crd (a : list Complex) (i : Z) : Complex :=
  if i <? 0 then {| real := f0; imag := f0 |}
  else nth (Z.to_nat i) a {| real := f0; imag := f0 |}.

(** First loop of [wrap_phase]: [while (phase > M_PI) phase -= 2.0f * M_PI;]
    the comparison and the subtraction are done in double, the assignment
    rounds to float. *)
Fixpoint wrap_down (fuel : nat) (phase : float) : outcome float :=
  if fgt (double_of_float phase) M_PI then
    match fuel with
    | O => Timeout
    | S fuel' =>
        wrap_down fuel' (float_of_double (dsub (double_of_float phase) two_pi))
    end
  else Done phase.

(** Second loop: [while (phase < -M_PI) phase += 2.0f * M_PI;] *)
Fixpoint wrap_up (fuel : nat) (phase : float) : outcome float :=
  if flt (double_of_float phase) (SFopp M_PI) then
    match fuel with
    | O => Timeout
    | S fuel' =>
        wrap_up fuel' (float_of_double (dadd (double_of_float phase) two_pi))
    end
  else Done phase.

Definition wrap_phase (fuel : nat) (phase : float) : outcome float :=
  p <- wrap_down fuel phase ;; wrap_up fuel p.

Section Engine.
Context `{Libm}.

(** What the freshly [malloc]ed [fft_out] holds: the mirror loop reads
    [fft_out[FFT_SIZE/2]], which no statement initialises. *)
Variable uninit : Complex.

(** Recursive radix-2 FFT.  [even] and [odd] are fresh arrays; the
    combine loop writes [x[k]] and [x[k + N/2]] for [k < N/2] and leaves
    the rest of [x] as it was. *)
Fixpoint fft_rec (fuel : nat) (x : list Complex) (N : Z) : list Complex :=
  match fuel with
  | O => x
  | S fuel' =>
      if N <=? 1 then x
      else
        let h := Z.quot N 2 in
        let even := fft_rec fuel' (map (fun i => crd x (i * 2)) (range h)) h in
        let odd := fft_rec fuel' (map (fun i => crd x (i * 2 + 1)) (range h)) h in
        let twiddle k :=
          let angle :=
            float_of_double
              (ddiv (dmul (dmul (double_of_float (fneg f2)) M_PI)
                          (double_of_int k))
                    (double_of_int N)) in
          let o := crd odd k in
          {| real := fsub (fmul (cosf angle) o.(real)) (fmul (sinf angle) o.(imag));
             imag := fadd (fmul (cosf angle) o.(imag)) (fmul (sinf angle) o.(real)) |} in
        map (fun k => let e := crd even k in let t := twiddle k in
                      {| real := fadd e.(real) t.(real);
                         imag := fadd e.(imag) t.(imag) |}) (range h)
        ++ map (fun k => let e := crd even k in let t := twiddle k in
                         {| real := fsub e.(real) t.(real);
                            imag := fsub e.(imag) t.(imag) |}) (range h)
        ++ skipn (Z.to_nat (2 * h)) x
  end.

(** The recursion halves [N]; [N] levels of fuel are never used up. *)
Definition fft (x : list Complex) (N : Z) : list Complex :=
  fft_rec (Z.to_nat N) x N.

Definition ifft (x : list Complex) (N : Z) : list Complex :=
  let x := map (fun c => {| real := c.(real); imag := fneg c.(imag) |}) x in
  let x := fft x N in
  map (fun c => {| real := fdiv c.(real) (float_of_int N);
                   imag := fdiv (fneg c.(imag)) (float_of_int N) |}) x.

Definition magnitude (c : Complex) : float :=
  sqrtf (fadd (fmul c.(real) c.(real)) (fmul c.(imag) c.(imag))).

Definition phase (c : Complex) : float := atan2f c.(imag) c.(real).

Definition window : list float := map (fun i => hanning i FFT_SIZE) (range FFT_SIZE).

(** The arrays that live across frames. *)
Record state := {
  temp_output : list float;
  last_phase : list float;
  sum_phase : list float;
  fft_out : list Complex;
  output_pos : Z
}.

(** Step 4 for one bin [i < FFT_SIZE / 2]: new [last_phase[i]],
    [sum_phase[i]] and [fft_out[i]]. *)
Definition process_bin (fuel : nat) (synthesis_hop : Z)
           (magnitude_buf phase_buf : list float) (st : state) (i : Z)
  : outcome (float * float * Complex) :=
  let analysis_hop := HOP_SIZE in
  let phase_diff := fsub (rd phase_buf i) (rd st.(last_phase) i) in
  phase_diff <- wrap_phase fuel phase_diff ;;
  let expected_phase_diff :=
    float_of_double
      (ddiv (dmul (dmul two_pi (double_of_int i)) (double_of_int analysis_hop))
            (double_of_int FFT_SIZE)) in
  let freq_deviation := fsub phase_diff expected_phase_diff in
  freq_deviation <- wrap_phase fuel freq_deviation ;;
  let true_freq :=
    float_of_double
      (dadd (ddiv (dmul two_pi (double_of_int i)) (double_of_int FFT_SIZE))
            (double_of_float (fdiv freq_deviation (float_of_int analysis_hop)))) in
  let s := fadd (rd st.(sum_phase) i) (fmul true_freq (float_of_int synthesis_hop)) in
  Done (rd phase_buf i, s,
        {| real := fmul (rd magnitude_buf i) (cosf s);
           imag := fmul (rd magnitude_buf i) (sinf s) |}).

(** One iteration of the frame loop, after the two [break] tests. *)
Definition process_frame (fuel : nat) (input : AudioBuffer)
           (stretched_length synthesis_hop : Z) (st : state) (input_pos : Z)
  : outcome state :=
  let fft_in :=
    map (fun i => {| real := fmul (rd input.(data) (input_pos + i)) (rd window i);
                     imag := f0 |}) (range FFT_SIZE) in
  let fft_in := fft fft_in FFT_SIZE in
  let magnitude_buf := map magnitude fft_in in
  let phase_buf := map phase fft_in in
  bins <- mapM (process_bin fuel synthesis_hop magnitude_buf phase_buf st)
               (range (Z.quot FFT_SIZE 2)) ;;
  let half := Z.to_nat (Z.quot FFT_SIZE 2) in
  let last_phase' := map (fun b => fst (fst b)) bins ++ skipn half st.(last_phase) in
  let sum_phase' := map (fun b => snd (fst b)) bins ++ skipn half st.(sum_phase) in
  let lower := map snd bins ++ skipn half st.(fft_out) in
  let mirrored :=
    firstn half lower ++
    map (fun i => let c := crd lower (FFT_SIZE - i) in
                  {| real := c.(real); imag := fneg c.(imag) |})
        (range_from (Z.quot FFT_SIZE 2) FFT_SIZE) in
  let out := ifft mirrored FFT_SIZE in
  let temp :=
    fold_left
      (fun t i =>
         if st.(output_pos) + i <? stretched_length
         then upd t (Z.to_nat (st.(output_pos) + i))
                  (fadd (rd t (st.(output_pos) + i))
                        (fmul (crd out i).(real) (rd window i)))
         else t)
      (range FFT_SIZE) st.(temp_output) in
  Done {| temp_output := temp;
          last_phase := last_phase';
          sum_phase := sum_phase';
          fft_out := out;
          output_pos := st.(output_pos) + synthesis_hop |}.

(** [for (frame = 0; frame < num_frames; frame++)] with its two [break]s. *)
Fixpoint frame_loop (fuel : nat) (input : AudioBuffer)
         (stretched_length synthesis_hop : Z) (frames : list Z) (st : state)
  : outcome state :=
  match frames with
  | [] => Done st
  | frame :: rest =>
      let input_pos := frame * HOP_SIZE in
      if input_pos + FFT_SIZE >? input.(length) then Done st
      else if st.(output_pos) + FFT_SIZE >? stretched_length then Done st
      else
        st' <- process_frame fuel input stretched_length synthesis_hop st input_pos ;;
        frame_loop fuel input stretched_length synthesis_hop rest st'
  end.

Definition num_frames (input : AudioBuffer) : Z :=
  Z.quot (input.(length) - FFT_SIZE) HOP_SIZE.

(** Linear-interpolation resampling of the stretched signal back to
    [length] samples. *)
Definition resample (temp_output : list float) (output_pos length : Z) : list float :=
  let ratio := fdiv (float_of_int output_pos) (float_of_int length) in
  map (fun i =>
         let pos := fmul (float_of_int i) ratio in
         let idx := int_of_float pos in
         let frac := fsub pos (float_of_int idx) in
         if idx + 1 <? output_pos then
           fadd (fmul (rd temp_output idx) (fsub f1 frac))
                (fmul (rd temp_output (idx + 1)) frac)
         else if idx <? output_pos then rd temp_output idx
         else f0)
      (range length).

(** Steps 1 to 6 after the clamp: the resampled signal the final
    normalisation loop starts from. *)
Definition phase_vocoder_signal (fuel : nat) (input : AudioBuffer)
           (pitch_ratio : float) : outcome (list float) :=
  let time_stretch_ratio := pitch_ratio in
  let stretched_length :=
    int_of_float (fmul (fmul (float_of_int input.(length)) time_stretch_ratio) f1_2) in
  let synthesis_hop := int_of_float (fmul (float_of_int HOP_SIZE) time_stretch_ratio) in
  let synthesis_hop := if synthesis_hop <? 1 then 1 else synthesis_hop in
  let init :=
    {| temp_output := repeat f0 (Z.to_nat stretched_length);
       last_phase := repeat f0 (Z.to_nat FFT_SIZE);
       sum_phase := repeat f0 (Z.to_nat FFT_SIZE);
       fft_out := repeat uninit (Z.to_nat FFT_SIZE);
       output_pos := 0 |} in
  st <- frame_loop fuel input stretched_length synthesis_hop
                   (range (num_frames input)) init ;;
  let overlap_norm := fdiv f2 (float_of_int OVERLAP_FACTOR) in
  let temp :=
    map (fun '(i, x) =>
           if (i <? st.(output_pos)) && (i <? stretched_length)
           then fmul x overlap_norm else x)
        (combine (range stretched_length) st.(temp_output)) in
  Done (resample temp st.(output_pos) input.(length)).

(** The engine after the clamp.  The C function has no [return NULL]:
    the pointer it returns is always that of the output buffer. *)
Definition phase_vocoder_body (fuel : nat) (input : AudioBuffer)
           (pitch_ratio : float) : outcome (option AudioBuffer) :=
  resampled <- phase_vocoder_signal fuel input pitch_ratio ;;
  Done (Some {| data := normalize resampled;
                length := input.(length);
                sample_rate := input.(sample_rate) |}).

Definition phase_vocoder_pitch_shift (fuel : nat) (input : AudioBuffer)
           (pitch_ratio : float) : outcome (option AudioBuffer) :=
  let pitch_ratio := clamp_ratio pitch_ratio in
  phase_vocoder_body fuel input pitch_ratio.

End Engine.

End PhaseVocoder.

(** ** Bytes and machine integers *)

Definition byte := Z.   (* an octet, [0 <= b < 256] *)

Definition u8 (z : Z) : Z := z mod 2 ^ 8.
Definition u16 (z : Z) : Z := z mod 2 ^ 16.
Definition u32 (z : Z) : Z := z mod 2 ^ 32.

(** Two's-complement reading of the low 16 / 32 bits. *)
Definition s16 (z : Z) : Z := (z + 2 ^ 15) mod 2 ^ 16 - 2 ^ 15.
Definition s32 (z : Z) : Z := (z + 2 ^ 31) mod 2 ^ 32 - 2 ^ 31.

(** Little-endian images, as [fwrite(&v, 2 or 4, 1, f)] stores them. *)
Definition le16 (v : Z) : list byte := [Z.land v 255; Z.land (Z.shiftr v 8) 255].
Definition le32 (v : Z) : list byte :=
  [Z.land v 255; Z.land (Z.shiftr v 8) 255;
   Z.land (Z.shiftr v 16) 255; Z.land (Z.shiftr v 24) 255].

Definition get8 (f : list byte) (off : Z) : Z := nth (Z.to_nat off) f 0.
Definition get16 (f : list byte) (off : Z) : Z :=
  Z.lor (get8 f off) (Z.shiftl (get8 f (off + 1)) 8).
Definition get32 (f : list byte) (off : Z) : Z :=
  Z.lor (Z.lor (get8 f off) (Z.shiftl (get8 f (off + 1)) 8))
        (Z.lor (Z.shiftl (get8 f (off + 2)) 16) (Z.shiftl (get8 f (off + 3)) 24)).

(** ASCII tags. *)
Definition tag_RIFF : list byte := [82; 73; 70; 70].
Definition tag_WAVE : list byte := [87; 65; 86; 69].
Definition tag_fmt : list byte := [102; 109; 116; 32].
Definition tag_data : list byte := [100; 97; 116; 97].

Definition bytes_eqb (a b : list byte) : bool :=
  (Nat.eqb (List.length a) (List.length b)) && forallb (fun p => fst p =? snd p) (combine a b).

Definition slice (f : list byte) (off n : Z) : list byte :=
  firstn (Z.to_nat n) (skipn (Z.to_nat off) f).

(** The binary32 image of a float in memory.  [spec_float] has a single NaN;
    it is stored as the default quiet NaN. *)
Definition bits_of_float (x : float) : Z :=
  match x with
  | S754_zero s => if s then 2 ^ 31 else 0
  | S754_infinity s => (if s then 2 ^ 31 else 0) + 255 * 2 ^ 23
  | S754_nan => 255 * 2 ^ 23 + 2 ^ 22
  | S754_finite s m e =>
      (if s then 2 ^ 31 else 0) +
      (if Z.pos m <? 2 ^ 23 then Z.pos m
       else (e + 150) * 2 ^ 23 + (Z.pos m - 2 ^ 23))
  end.

Definition float_of_bits (b : Z) : float :=
  let s := Z.testbit b 31 in
  let E := (b / 2 ^ 23) mod 2 ^ 8 in
  let frac := b mod 2 ^ 23 in
  if E =? 0 then
    match frac with
    | Z.pos m => S754_finite s m (-149)
    | _ => S754_zero s
    end
  else if E =? 255 then
    (if frac =? 0 then S754_infinity s else S754_nan)
  else
    match frac + 2 ^ 23 with
    | Z.pos m => S754_finite s m (E - 150)
    | _ => S754_nan
    end.

(** ** WAV codec of the standalone programs ([phase_voc.c], [psola.c]):
       32-bit float on write, 16-bit PCM or 32-bit float on read *)

Module WavFloat.

(** [write_wav_file]: the bytes of the file written ([fopen] is assumed to
    succeed).  [data_size] and [byte_rate] are [int]s assigned from a
    [size_t] product, [file_size] is an [int] sum; each is stored through
    its 4-byte image. *)
Definition data_size (audio : AudioBuffer) : Z := s32 (audio.(length) * 4).
Definition file_size (audio : AudioBuffer) : Z := s32 (36 + data_size audio).

Definition header (audio : AudioBuffer) : list byte :=
  tag_RIFF ++ le32 (file_size audio) ++ tag_WAVE ++
  tag_fmt ++
  le32 16 ++                                   (* fmt_size *)
  le16 3 ++                                    (* audio_format: IEEE float *)
  le16 1 ++                                    (* num_channels *)
  le32 audio.(sample_rate) ++
  le32 (s32 (audio.(sample_rate) * 4)) ++      (* byte_rate *)
  le16 4 ++                                    (* block_align *)
  le16 32 ++                                   (* bits_per_sample *)
  tag_data ++ le32 (data_size audio).

(** [fwrite(audio->data, sizeof(float), audio->length, f)]: the memory
    image of the samples. *)
Definition payload (audio : AudioBuffer) : list byte :=
  flat_map (fun i => le32 (bits_of_float (rd audio.(data) i))) (range audio.(length)).

Definition write_wav_file (audio : AudioBuffer) : list byte :=
  header audio ++ payload audio.

(** The chunk search of [read_wav_file]: [pos] is the file position;
    returns the position of the data and [chunk_size]. *)
Fixpoint find_data (fuel : nat) (f : list byte) (pos : Z) : option (Z * Z) :=
  match fuel with
  | O => None
  | S fuel' =>
      if pos + 4 >? Z.of_nat (List.length f) then None
      else
        let chunk_id := slice f pos 4 in
        let chunk_size := get32 f (pos + 4) in
        if bytes_eqb chunk_id tag_data then Some (pos + 8, chunk_size)
        else find_data fuel' f (pos + 8 + chunk_size)
  end.

(** [read_wav_file]; [None] is the [NULL] result.  A file too short for
    the fixed header leaves the C variables uninitialised; the model
    reads zero bytes there, as it does for a payload shorter than
    [chunk_size].  A zero divisor in the sample count is a trap in C and
    [None] here. *)
Definition read_wav_file (f : list byte) : option AudioBuffer :=
  if negb (bytes_eqb (slice f 0 4) tag_RIFF && bytes_eqb (slice f 8 4) tag_WAVE)
  then None
  else
    let fmt_size := get32 f 16 in
    let audio_format := s16 (get16 f 20) in
    let num_channels := s16 (get16 f 22) in
    let sample_rate := get32 f 24 in
    let bits_per_sample := s16 (get16 f 34) in
    let pos := if fmt_size >? 16 then 36 + (fmt_size - 16) else 36 in
    match find_data (S (List.length f)) f pos with
    | None => None
    | Some (start, chunk_size) =>
        if (Z.quot bits_per_sample 8 =? 0) || (num_channels =? 0) then None
        else
          let num_samples :=
            s32 (u32 (u32 chunk_size / u32 (Z.quot bits_per_sample 8))
                 / u32 num_channels) in
          if (audio_format =? 1) && (bits_per_sample =? 16) then
            let temp i := s16 (get16 f (start + 2 * i)) in
            Some {| data :=
                      map (fun i =>
                             if num_channels =? 2
                             then fdiv (float_of_int (temp (i * 2) + temp (i * 2 + 1)))
                                       f65536
                             else fdiv (float_of_int (temp i)) f32768)
                          (range num_samples);
                    length := num_samples;
                    sample_rate := s32 sample_rate |}
          else if (audio_format =? 3) && (bits_per_sample =? 32) then
            let temp i := float_of_bits (get32 f (start + 4 * i)) in
            Some {| data :=
                      map (fun i =>
                             if num_channels =? 2
                             then fdiv (fadd (temp (i * 2)) (temp (i * 2 + 1))) f2
                             else temp i)
                          (range num_samples);
                    length := num_samples;
                    sample_rate := s32 sample_rate |}
          else None
    end.

End WavFloat.

(** ** The embedded application ([helloworld.c]): 16-bit WAV codec and
       frequency mapper *)

Module Tuner.

(** [wav_header(h, nsamples, fs, bits, ch)] with [uint32_t nsamples, fs]
    and [uint16_t bits, ch]: the 44 bytes written to [h]. *)
Definition byteRate (fs bits ch : Z) : Z := u32 (u32 (fs * ch) * Z.quot bits 8).
Definition blockAlign (bits ch : Z) : Z := u16 (ch * Z.quot bits 8).
Definition dataSize (nsamples bits ch : Z) : Z := u32 (nsamples * blockAlign bits ch).
Definition riffSize (nsamples bits ch : Z) : Z := u32 (36 + dataSize nsamples bits ch).

Definition wav_header (nsamples fs bits ch : Z) : list byte :=
  let byteRate := byteRate fs bits ch in
  let blockAlign := blockAlign bits ch in
  let dataSize := dataSize nsamples bits ch in
  let riffSize := riffSize nsamples bits ch in
  [82; 73; 70; 70;
   Z.land riffSize 255; Z.land (Z.shiftr riffSize 8) 255;
   Z.land (Z.shiftr riffSize 16) 255; Z.land (Z.shiftr riffSize 24) 255;
   87; 65; 86; 69;
   102; 109; 116; 32;
   16; 0; 0; 0;
   1; 0;
   u8 ch; 0;
   Z.land fs 255; Z.land (Z.shiftr fs 8) 255;
   Z.land (Z.shiftr fs 16) 255; Z.land (Z.shiftr fs 24) 255;
   Z.land byteRate 255; Z.land (Z.shiftr byteRate 8) 255;
   Z.land (Z.shiftr byteRate 16) 255; Z.land (Z.shiftr byteRate 24) 255;
   Z.land blockAlign 255; Z.land (Z.shiftr blockAlign 8) 255;
   Z.land bits 255; Z.land (Z.shiftr bits 8) 255;
   100; 97; 116; 97;
   Z.land dataSize 255; Z.land (Z.shiftr dataSize 8) 255;
   Z.land (Z.shiftr dataSize 16) 255; Z.land (Z.shiftr dataSize 24) 255].

(** Float to int16 as [save_wav_to_sd] does it: clamp to [[-1, 1]], scale
    by [32767.0f], truncate. *)
Definition sample_to_pcm16 (sample : float) : Z :=
  let sample := if fgt sample f1 then f1 else sample in
  let sample := if flt sample (fneg f1) then fneg f1 else sample in
  s16 (int_of_float (fmul sample f32767)).

(** Int16 to float as [load_wav_from_sd] does it. *)
Definition pcm16_to_sample (v : Z) : float := fdiv (float_of_int v) f32768.

(** [save_wav_to_sd]: the bytes of the file, every FatFs call succeeding.
    The samples go out in chunks of 1024; the stream is the same as the
    one written sample by sample. *)
Definition pcm_payload (audio : AudioBuffer) : list byte :=
  flat_map (fun i => le16 (sample_to_pcm16 (rd audio.(data) i)))
           (range audio.(length)).

Definition save_wav_to_sd (audio : AudioBuffer) : list byte :=
  wav_header (u32 audio.(length)) (u32 audio.(sample_rate)) 16 1 ++
  pcm_payload audio.

(** The read loop of [load_wav_from_sd].  [f_read] returns the bytes that
    are left when fewer than asked for remain; a read of less than one
    sample makes no progress and the loop spins. *)
Fixpoint load_loop (fuel : nat) (f : list byte) (fpos num_samples samples_read : Z)
  : outcome (list float) :=
  if samples_read <? num_samples then
    match fuel with
    | O => Timeout
    | S fuel' =>
        let samples_to_read := num_samples - samples_read in
        let samples_to_read := if samples_to_read >? 1024 then 1024 else samples_to_read in
        let avail := Z.max 0 (Z.of_nat (List.length f) - fpos) in
        let br := Z.min (samples_to_read * 2) avail in
        let got := map (fun i => pcm16_to_sample (s16 (get16 f (fpos + 2 * i))))
                       (range (br / 2)) in
        rest <- load_loop fuel' f (fpos + br) num_samples (samples_read + br / 2) ;;
        Done (got ++ rest)
    end
  else Done [].

(** [load_wav_from_sd]; [Done None] is the [NULL] result. *)
Definition load_wav_from_sd (fuel : nat) (f : list byte) : outcome (option AudioBuffer) :=
  if Z.of_nat (List.length f) <? 44 then Done None
  else if negb (bytes_eqb (slice f 0 4) tag_RIFF && bytes_eqb (slice f 8 4) tag_WAVE)
  then Done None
  else
    let sample_rate := get32 f 24 in
    let bits_per_sample := get16 f 34 in
    let data_size := get32 f 40 in
    if negb (bits_per_sample =? 16) then Done None
    else
      let num_samples := data_size / 2 in
      samples <- load_loop fuel f 44 num_samples 0 ;;
      Done (Some {| data := samples;
                    length := s32 num_samples;
                    sample_rate := s32 sample_rate |}).

Section Mapper.
Context `{Libm}.

Definition get_note_frequency (midi_note : Z) : float :=
  let semitones_from_a4 := float_of_int (midi_note - 69) in
  fmul f440 (powf f2 (fdiv semitones_from_a4 f12)).

Definition frequency_to_midi_note (frequency : float) : Z :=
  if fle frequency f0 then -1
  else
    let log2_val := fdiv (logf (fdiv frequency f440)) (logf f2) in
    int_of_float (fadd (fadd (fmul f12 log2_val) f69) f0_5).

(** One step of either octave scan: [Some freq] when the loop breaks. *)
Definition candidate (below : bool) (recorded_freq : float)
           (reference_note_class octave : Z) : option float :=
  let midi_note := reference_note_class + octave * 12 in
  if (midi_note >=? 12) && (midi_note <=? 108) then
    let freq := get_note_frequency midi_note in
    if (if below then flt freq recorded_freq else fgt freq recorded_freq)
    then Some freq else None
  else None.

(** A [for] loop over [octaves] that stops at the first hit;
    [target_freq] keeps its initial 0 when there is none. *)
Fixpoint scan (below : bool) (recorded_freq : float) (reference_note_class : Z)
         (octaves : list Z) : float :=
  match octaves with
  | [] => f0
  | octave :: rest =>
      match candidate below recorded_freq reference_note_class octave with
      | Some freq => freq
      | None => scan below recorded_freq reference_note_class rest
      end
  end.

Definition octaves_down : list Z := [8; 7; 6; 5; 4; 3; 2; 1].
Definition octaves_up : list Z := [1; 2; 3; 4; 5; 6; 7; 8].

Definition find_closest_target_frequency (recorded_freq : float)
           (reference_note_class : Z) (reference_freq : float) : float :=
  if fgt recorded_freq reference_freq
  then scan true recorded_freq reference_note_class octaves_down
  else scan false recorded_freq reference_note_class octaves_up.

(** The part of [main] (state 3) that sets [target_pitch_ratio] once both
    pitches are detected. *)
Definition shift_ratio (recorded_pitch reference_pitch : float) : float :=
  let ref_midi := frequency_to_midi_note reference_pitch in
  let ref_note_class := Z.rem ref_midi 12 in
  let target_freq :=
    find_closest_target_frequency recorded_pitch ref_note_class reference_pitch in
  if fgt target_freq f0 then fdiv target_freq recorded_pitch else f1.

(** [hit below recorded cls octave]: the recurrence of pitch class [cls]
    in [octave] is a MIDI note of the range 12..108 and its frequency is
    on the wanted side of [recorded]. *)
Definition hit (below : bool) (recorded : float) (cls octave : Z) : Prop :=
  12 <= cls + octave * 12 <= 108 /\
  (if below then flt (get_note_frequency (cls + octave * 12)) recorded
   else fgt (get_note_frequency (cls + octave * 12)) recorded) = true.

End Mapper.

End Tuner.

(** ** A small libm for running the model

    Argument reduction and truncated power series, good to a few digits.
    They only serve to evaluate the engines on concrete buffers; every
    theorem below is proved for an arbitrary [Libm]. *)

Module SeriesLibm.

Definition fz (z : Z) : float := float_of_int z.
Definition fq (num den : Z) : float := fdiv (fz num) (fz den).

(** Horner evaluation of [c0 + y (c1 + y (c2 + ...))]. *)
Fixpoint horner (coeffs : list float) (y : float) : float :=
  match coeffs with
  | [] => f0
  | c :: rest => fadd c (fmul y (horner rest y))
  end.

Definition pi_f : float := float_of_double M_PI.
Definition two_pi_f : float := float_of_double two_pi.
Definition ln2 : float := fq 6931472 10000000.

(** [x - k * 2pi] with [k] the integer nearest to [x / 2pi]. *)
Definition reduce (x : float) : float :=
  let q := fdiv x two_pi_f in
  let k := int_of_float (if flt q f0 then fsub q f0_5 else fadd q f0_5) in
  fsub x (fmul (fz k) two_pi_f).

Definition series_cos (x : float) : float :=
  let r := reduce x in
  horner [f1; fq (-1) 2; fq 1 24; fq (-1) 720; fq 1 40320; fq (-1) 3628800;
          fq 1 479001600] (fmul r r).

Definition series_sin (x : float) : float :=
  let r := reduce x in
  fmul r (horner [f1; fq (-1) 6; fq 1 120; fq (-1) 5040; fq 1 362880;
                  fq (-1) 39916800; fq 1 6227020800] (fmul r r)).

Definition series_atan (z : float) : float :=
  fdiv z (fadd f1 (fmul (fq 28 100) (fmul z z))).

Definition series_atan2 (y x : float) : float :=
  let half_pi := fdiv pi_f f2 in
  if fgt (fabsf x) (fabsf y) then
    let a := series_atan (fdiv y x) in
    if flt x f0 then (if flt y f0 then fsub a pi_f else fadd a pi_f) else a
  else if fgt (fabsf y) f0 then
    let a := series_atan (fdiv x y) in
    if flt y f0 then fsub (fneg half_pi) a else fsub half_pi a
  else f0.

(** [x = m * 2^k] with [1/2 <= m < 1]; [log x = k log 2 + 2 atanh ((m-1)/(m+1))]. *)
Definition series_log (x : float) : float :=
  match x with
  | S754_finite false _ _ =>
      let '(m, k) := SFfrexp 24 128 x in
      let t := fdiv (fsub m f1) (fadd m f1) in
      fadd (fmul (fz k) ln2)
           (fmul (fmul f2 t) (horner [f1; fq 1 3; fq 1 5; fq 1 7; fq 1 9] (fmul t t)))
  | S754_zero _ => S754_infinity true
  | S754_infinity false => x
  | _ => S754_nan
  end.

(** [exp x = 2^n * exp (x - n log 2)]. *)
Definition series_exp (x : float) : float :=
  let n := int_of_float (fdiv x ln2) in
  let r := fsub x (fmul (fz n) ln2) in
  SFldexp 24 128
          (horner [f1; f1; fq 1 2; fq 1 6; fq 1 24; fq 1 120; fq 1 720; fq 1 5040] r) n.

Definition series_pow (b y : float) : float := series_exp (fmul y (series_log b)).

#[export] Instance libm : Libm :=
  {| cosf := series_cos;
     sinf := series_sin;
     atan2f := series_atan2;
     powf := series_pow;
     logf := series_log |}.

End SeriesLibm.

(** ** Vocabulary of the theorems

    The buffers and floats the engines are run on, and the reading of
    binary floating-point data as real numbers that the numeric claims are
    stated with. *)

(** Buffers used to run the engines: [n] samples of silence. *)
Definition silence (n : nat) : AudioBuffer :=
  {| data := repeat f0 n; length := Z.of_nat n; sample_rate := 48000 |}.

Definition czero : PhaseVocoder.Complex :=
  {| PhaseVocoder.real := f0; PhaseVocoder.imag := f0 |}.

(** 201 samples at the largest finite binary32 value, and 201 samples of
    silence after one NaN. *)
Definition loud : AudioBuffer :=
  {| data := repeat (S754_finite false 16777215 104) 201;
     length := 201; sample_rate := 48000 |}.

Definition poisoned : AudioBuffer :=
  {| data := S754_nan :: repeat f0 200; length := 201; sample_rate := 48000 |}.

(** The signal PSOLA builds from [loud] at ratio 1, before normalisation. *)
Definition loud_signal : list float := Eval vm_compute in
  match Psola.synthesize (H := SeriesLibm.libm) loud (clamp_ratio f1) [0; 200] with
  | Some pre => pre
  | None => []
  end.

(** [0.7f], and a three-sample buffer. *)
Definition sample_0_7 : float := Eval vm_compute in fdiv (float_of_int 7) (float_of_int 10).

Definition three_samples : AudioBuffer :=
  {| data := [f0_5; fneg f1; sample_0_7]; length := 3; sample_rate := 44100 |}.

(** *** Values of floating-point data *)

Definition bpow (e : Z) : R := powerRZ 2 e.

(** The real number a datum stands for; 0 for infinities and NaN. *)
Definition B2R (x : spec_float) : R :=
  match x with
  | S754_finite s m e =>
      ((if s then -1 else 1) * IZR (Z.pos m) * bpow e)%R
  | _ => 0%R
  end.

Definition sgn (s : bool) : R := if s then (-1)%R else 1%R.

(** Magnitude of a finite datum. *)
Definition mag (m : positive) (e : Z) : R := (IZR (Z.pos m) * bpow e)%R.

(** A comparison result and the order of two reals. *)
Definition agrees (c : comparison) (a b : R) : Prop :=
  match c with
  | Lt => (a < b)%R
  | Eq => a = b
  | Gt => (b < a)%R
  end.

Section Rounding.

Variables prec emax : Z.

(** The exponent the first shift of [binary_round_aux] reaches and the
    mantissa it leaves. *)
Definition round_exp (mx ex : Z) : Z :=
  Z.max ex (SpecFloat.fexp prec emax (Zdigits2 mx + ex)).
Definition round_mant (mx ex : Z) : Z := mx / 2 ^ (round_exp mx ex - ex).

(** What [binary_round_aux] does with the rounded mantissa [m2]: the tail
    of its definition. *)
Definition finish (sx : bool) (m2 e1 : Z) : spec_float :=
  let '(mrs'', e'') := shr_fexp prec emax m2 e1 loc_Exact in
  match shr_m mrs'' with
  | Z0 => S754_zero sx
  | Zpos m => if e'' <=? emax - prec then S754_finite sx m e'' else S754_infinity sx
  | _ => S754_nan
  end.

(** Result of an operation that rounds the positive value [t] with sign
    [s]: either an overflow, reported with the exponent that caused it, or a
    finite datum of sign [s] whose magnitude is within the error model. *)
Definition rounds_to (s : bool) (t : R) (e1 : Z) (r : spec_float) : Prop :=
  (r = S754_infinity s /\ emax - prec <= e1) \/
  ((r = S754_zero s \/ exists mr er, r = S754_finite s mr er) /\
   exists v : R,
     B2R r = (sgn s * v)%R /\
     (0 <= v)%R /\
     (v <= t + (bpow (1 - prec) * t + bpow (SpecFloat.emin prec emax)))%R).

(** [numeric x]: a zero or a finite datum in canonical form. *)
Definition numeric (x : spec_float) : Prop :=
  match x with
  | S754_zero _ => True
  | S754_finite _ m e => canonical_mantissa prec emax m e = true
  | _ => False
  end.

(** [rounded s t r]: [r] is a zero or a finite datum of sign [s] whose
    magnitude is at most [t] plus the rounding error of [t]. *)
Definition rounded (s : bool) (t : R) (r : spec_float) : Prop :=
  (r = S754_zero s \/ exists mr er, r = S754_finite s mr er) /\
  exists v : R,
    B2R r = (sgn s * v)%R /\ (0 <= v)%R /\
    (v <= t + (bpow (1 - prec) * t + bpow (SpecFloat.emin prec emax)))%R.

(** [rounds s t r]: [r] is the value [t >= 0] rounded with sign [s]; below
    [2^k] the result is within one step [2^(fexp k)] of [t]. *)
Definition rounds (s : bool) (t : R) (r : spec_float) : Prop :=
  (r = S754_infinity s /\ (bpow (emax - prec) <= t)%R) \/
  ((r = S754_zero s \/ exists mr er, r = S754_finite s mr er) /\
   valid_binary prec emax r = true /\
   exists v : R,
     B2R r = (sgn s * v)%R /\ (0 <= v)%R /\
     forall k, (t < bpow k)%R ->
               (Rabs (v - t) <= bpow (SpecFloat.fexp prec emax k))%R).

(** The same for a signed value [t], as [binary_normalize] rounds an
    integer-scaled sum. *)
Definition rounds_signed (t : R) (r : spec_float) : Prop :=
  (is_finite r = false /\ (bpow (emax - prec) <= Rabs t)%R) \/
  (is_finite r = true /\
   valid_binary prec emax r = true /\
   (forall k, (Rabs t < bpow k)%R ->
              (Rabs (B2R r - t) <= bpow (SpecFloat.fexp prec emax k))%R) /\
   ((0 <= t)%R -> (0 <= B2R r)%R) /\ ((t <= 0)%R -> (B2R r <= 0)%R)).

End Rounding.

(** *** binary32 and binary64 data *)

Definition finite32 (x : float) : Prop := is_finite x = true /\ valid32 x = true.

Definition finite32b (x : float) : bool := is_finite x && valid32 x.

(** A non-negative finite binary32 datum, as [fabsf] returns. *)
Definition nonneg32 (x : float) : Prop :=
  match x with
  | S754_zero false => True
  | S754_finite false m e => SpecFloat.bounded 24 128 m e = true
  | _ => False
  end.

Definition finite64 (d : double) : Prop :=
  is_finite d = true /\ valid_binary 53 1024 d = true.

(** A sample inside full scale: a number between -1 and 1. *)
Definition unit_range (y : float) : Prop :=
  is_finite y = true /\ (-1 <= B2R y <= 1)%R.

(** What the normalisation loop makes of the signal [pre]. *)
Definition normalised (pre out : list float) : Prop :=
  Forall unit_range out /\
  ((fgt (peak pre) f0_001 = true /\
    out = map (fun x => fmul x (fdiv f0_9 (peak pre))) pre /\
    Forall (fun y => (Rabs (B2R y) <= 9 / 10 + bpow (-20))%R) out) \/
   (fgt (peak pre) f0_001 = false /\
    out = pre /\
    Forall (fun y => (Rabs (B2R y) <= B2R f0_001)%R) out)).

(** *** 16-bit conversions *)

(** [pcm16_to_sample q] is [q / 32768] without rounding: the check, on
    integers scaled by [2^39]. *)
Definition pcm16_exactb (q : Z) : bool :=
  match Tuner.pcm16_to_sample q with
  | S754_zero _ => q =? 0
  | S754_finite s m e =>
      (-39 <=? e) && ((if s then - Z.pos m else Z.pos m) * 2 ^ (e + 39) =? q * 2 ^ 24)
  | _ => false
  end.

(** [p q && p (q + 1) && ...], [n] values. *)
Fixpoint all_from (n : nat) (q : Z) (p : Z -> bool) : bool :=
  match n with
  | O => true
  | S n' => p q && all_from n' (Z.succ q) p
  end.

(** *** One turn of each loop of [wrap_phase] *)

Definition step_down (phase : float) : float :=
  float_of_double (dsub (double_of_float phase) two_pi).

Definition step_up (phase : float) : float :=
  float_of_double (dadd (double_of_float phase) two_pi).

(** [-3.14159274f], the float next below [-M_PI]. *)
Definition below_minus_pi : float := S754_finite true 13176795 (-22).

(** [67108864.0f = 2^26]: every turn of the loops moves a phase below it
    by more than the rounding can take back. *)
Definition phase_bound : float := S754_finite false 8388608 3.

(** [134217744.0f = 2^27 + 16]: floats are 16 apart there and
    [phase - 2 pi] rounds back to [phase]. *)
Definition stuck_phase : float := S754_finite false 8388609 4.

(** * Properties *)

(** ** Lists and index ranges *)

Lemma length_range n : List.length (range n) = Z.to_nat n.
Proof. unfold range. now rewrite length_map, length_seq. Qed.

Lemma range_nonpos n : n <= 0 -> range n = [].
Proof.
  intros Hn. unfold range. replace (Z.to_nat n) with 0%nat by lia. reflexivity.
Qed.

Lemma in_range i n : In i (range n) <-> 0 <= i < n.
Proof.
  unfold range. rewrite in_map_iff. split.
  - intros (k & <- & Hk). apply in_seq in Hk. lia.
  - intros Hi. exists (Z.to_nat i). split; [lia|]. apply in_seq. lia.
Qed.

Lemma length_upd {A} (a : list A) i v : List.length (upd a i v) = List.length a.
Proof.
  revert i. induction a as [|h t IH]; intros [|j]; simpl; auto.
Qed.

Lemma fold_left_invariant {A B} (P : A -> Prop) (f : A -> B -> A) (l : list B) a :
  (forall a b, In b l -> P a -> P (f a b)) -> P a -> P (fold_left f l a).
Proof.
  revert a. induction l as [|b l IH]; simpl; intros a Hf Ha.
  - exact Ha.
  - apply IH; [intros a' b' Hb'|]; apply Hf; auto.
Qed.

Lemma fold_left_preserves {A B} (P : A -> Prop) (f : A -> B -> A) (l : list B) a :
  (forall a b, P a -> P (f a b)) -> P a -> P (fold_left f l a).
Proof. intros Hf. apply fold_left_invariant. auto. Qed.

(** ** Peak normalisation keeps the number of samples *)

Lemma length_normalize samples :
  List.length (normalize samples) = List.length samples.
Proof.
  unfold normalize. destruct (fgt _ _); [apply length_map | reflexivity].
Qed.

(** ** PSOLA: the mark loops terminate *)

Module PsolaFacts.
Import Psola.

Lemma in_range_from i lo hi : In i (range_from lo hi) <-> lo <= i < hi.
Proof.
  unfold range_from. rewrite in_map_iff. split.
  - intros (k & <- & Hk). apply in_range in Hk. lia.
  - intros Hi. exists (i - lo). split; [lia|]. apply in_range. lia.
Qed.

(** A lag is an [int] below 2048: its float image converts back to it. *)
Lemma lag_round_trip lag :
  MIN_PERIOD <= lag < MAX_PERIOD -> int_of_float (float_of_int lag) = lag.
Proof.
  intros Hlag.
  assert (Hall : forallb (fun l => int_of_float (float_of_int l) =? l)
                         (range_from MIN_PERIOD MAX_PERIOD) = true)
    by (vm_compute; reflexivity).
  rewrite forallb_forall in Hall.
  apply Z.eqb_eq, Hall, in_range_from, Hlag.
Qed.

Lemma best_correlation_lag buffer start search_length :
  search_length <= MAX_PERIOD ->
  MIN_PERIOD <= snd (best_correlation buffer start search_length) < MAX_PERIOD.
Proof.
  intros Hs. unfold best_correlation.
  apply fold_left_invariant with
    (P := fun st : float * Z => MIN_PERIOD <= snd st < MAX_PERIOD).
  2: { simpl. unfold MIN_PERIOD, MAX_PERIOD. lia. }
  intros [max_corr best_lag] lag Hlag Hinv. simpl in Hinv.
  apply in_range_from in Hlag.
  destruct (correlate buffer start search_length lag) as [corr energy].
  destruct (fgt energy f0); [|exact Hinv].
  destruct (fgt (fdiv corr energy) max_corr); [|exact Hinv].
  simpl. lia.
Qed.

(** [detect_pitch_period] returns [0.0f] or the float image of a lag of
    the search window. *)
Lemma detect_pitch_period_cases buffer start length :
  detect_pitch_period buffer start length = f0 \/
  exists lag, MIN_PERIOD <= lag < MAX_PERIOD /\
              detect_pitch_period buffer start length = float_of_int lag.
Proof.
  unfold detect_pitch_period.
  destruct (start + MAX_PERIOD >=? length); [now left|].
  set (search_length := if length - start <? MAX_PERIOD then length - start else MAX_PERIOD).
  assert (Hs : search_length <= MAX_PERIOD).
  { subst search_length. destruct (length - start <? MAX_PERIOD) eqn:E; lia. }
  pose proof (best_correlation_lag buffer start search_length Hs) as Hlag.
  destruct (best_correlation buffer start search_length) as [max_corr best_lag].
  simpl in Hlag.
  destruct (fgt max_corr f0_3); [right; eauto | now left].
Qed.

(** Every iteration of the mark loop moves [position] forward. *)
Lemma mark_step_advances buffer position length :
  let period := detect_pitch_period buffer position length in
  position + MIN_PERIOD <=
  (if fgt period f0 && flt period (float_of_int MAX_PERIOD)
   then position + int_of_float period else position + 200).
Proof.
  intros period. subst period.
  destruct (detect_pitch_period_cases buffer position length)
    as [-> | (lag & Hlag & ->)].
  - change (fgt f0 f0) with false. simpl. unfold MIN_PERIOD. lia.
  - rewrite (lag_round_trip lag Hlag).
    destruct (_ && _); unfold MIN_PERIOD in *; lia.
Qed.

Lemma detect_pitch_marks_loop_total fuel audio position :
  (Z.to_nat (audio.(length) - position) <= fuel)%nat ->
  exists marks, detect_pitch_marks_loop fuel audio position = Some marks.
Proof.
  revert position. induction fuel as [|fuel IH]; intros position Hfuel.
  - simpl. destruct (position <? length audio) eqn:E; [|eauto].
    apply Z.ltb_lt in E. lia.
  - cbn [detect_pitch_marks_loop].
    destruct (position <? length audio) eqn:E; [|eauto].
    apply Z.ltb_lt in E.
    pose proof (mark_step_advances (data audio) position (length audio)) as Hadv.
    cbv zeta in Hadv.
    set (position' := if _ && _ then _ else _) in *.
    destruct (IH position') as [rest Hrest].
    { unfold MIN_PERIOD in Hadv. lia. }
    rewrite Hrest. eauto.
Qed.

(** [detect_pitch_marks] always returns, and its first mark is 0. *)
Lemma detect_pitch_marks_total audio :
  exists rest, detect_pitch_marks audio = Some (0 :: rest).
Proof.
  unfold detect_pitch_marks.
  destruct (detect_pitch_marks_loop_total (Z.to_nat (length audio)) audio 0)
    as [rest Hrest]; [lia|].
  rewrite Hrest. eauto.
Qed.

(** Fewer than two marks means a buffer of at most 200 samples: the
    first advance is the 200-sample fallback or a lag below 2048. *)
Lemma few_marks_iff_short audio marks :
  detect_pitch_marks audio = Some marks ->
  (count marks < 2 <-> audio.(length) <= 200).
Proof.
  unfold detect_pitch_marks.
  destruct (detect_pitch_marks_loop_total (Z.to_nat (length audio)) audio 0)
    as [rest Hrest]; [lia|].
  rewrite Hrest. intros [= <-].
  destruct (Z.to_nat (length audio)) as [|fuel] eqn:Hfuel.
  - simpl in Hrest. destruct (0 <? length audio) eqn:E; [discriminate|].
    injection Hrest as <-. apply Z.ltb_ge in E. unfold count. simpl. lia.
  - cbn [detect_pitch_marks_loop] in Hrest.
    destruct (0 <? length audio) eqn:E; [|apply Z.ltb_ge in E; lia].
    pose proof (detect_pitch_period_cases (data audio) 0 (length audio)) as Hcases.
    set (period := detect_pitch_period (data audio) 0 (length audio)) in *.
    set (position := if fgt period f0 && flt period (float_of_int MAX_PERIOD)
                     then 0 + int_of_float period else 0 + 200) in *.
    assert (Hpos : (length audio <= MAX_PERIOD -> position = 200) /\
                   MIN_PERIOD <= position < MAX_PERIOD).
    { subst position. split.
      - intros Hshort. subst period. unfold detect_pitch_period.
        replace (0 + MAX_PERIOD >=? length audio) with true
          by (symmetry; apply Z.geb_le; lia).
        reflexivity.
      - destruct Hcases as [-> | (lag & Hlag & ->)].
        + change (fgt f0 f0) with false. simpl. unfold MIN_PERIOD, MAX_PERIOD. lia.
        + rewrite (lag_round_trip lag Hlag).
          destruct (_ && _); unfold MIN_PERIOD, MAX_PERIOD in *; lia. }
    destruct Hpos as [Hshort Hbound].
    destruct (detect_pitch_marks_loop fuel audio position) as [rest'|] eqn:Hloop;
      [|discriminate].
    injection Hrest as <-.
    destruct (position <? length audio) eqn:E'.
    + apply Z.ltb_lt in E'. unfold count. simpl.
      unfold MIN_PERIOD, MAX_PERIOD in *. split; [lia|]. intros Hlen.
      specialize (Hshort ltac:(lia)). lia.
    + apply Z.ltb_ge in E'.
      assert (rest' = []) as ->.
      { destruct fuel; simpl in Hloop;
          replace (position <? length audio) with false in Hloop
            by (symmetry; apply Z.ltb_ge; lia);
          now injection Hloop. }
      unfold count. simpl. unfold MIN_PERIOD, MAX_PERIOD in *.
      split; [intros _|lia].
      destruct (Z_le_gt_dec (length audio) 2048) as [Hle|Hgt]; [|lia].
      specialize (Hshort Hle). lia.
Qed.

Section Engine.
Context `{Libm}.

Lemma output_marks_loop_total fuel periods pitch_ratio length nmarks out_pos in_idx :
  (Z.to_nat (length - out_pos) <= fuel)%nat ->
  exists marks,
    output_marks_loop fuel periods pitch_ratio length nmarks out_pos in_idx
    = Some marks.
Proof.
  revert out_pos in_idx.
  induction fuel as [|fuel IH]; intros out_pos in_idx Hfuel.
  - simpl. destruct (out_pos <? length) eqn:E; simpl; [|eauto].
    apply Z.ltb_lt in E. lia.
  - cbn [output_marks_loop].
    destruct ((out_pos <? length) && (in_idx <? nmarks - 1)) eqn:E; [|eauto].
    apply andb_prop in E. destruct E as [E _]. apply Z.ltb_lt in E.
    set (p := int_of_float _).
    set (out_period := if p <? 20 then 20 else p).
    assert (Hp : 20 <= out_period).
    { subst out_period. destruct (p <? 20) eqn:E'; [lia|]. apply Z.ltb_ge in E'. lia. }
    match goal with
    | |- context [output_marks_loop fuel ?a ?b ?c ?d ?e ?f] =>
        destruct (IH e f) as [rest Hrest]; [lia|]; rewrite Hrest
    end.
    eauto.
Qed.

Lemma length_overlap_add output grain center grain_size output_length :
  List.length (overlap_add output grain center grain_size output_length)
  = List.length output.
Proof.
  unfold overlap_add.
  apply fold_left_preserves
    with (P := fun o : list float => List.length o = List.length output); auto.
  intros o i Ho. destruct (_ && _); [now rewrite length_upd | exact Ho].
Qed.

Lemma length_place_grain input input_marks grain_size output out_mark :
  List.length (place_grain input input_marks grain_size output out_mark)
  = List.length output.
Proof.
  unfold place_grain.
  repeat match goal with |- context [if ?c then _ else _] => destruct c end;
    auto using length_overlap_add.
Qed.

(** Steps 2 to 6 always produce a signal, of [length] samples. *)
Lemma synthesize_total input pitch_ratio input_marks :
  exists output,
    synthesize input pitch_ratio input_marks = Some output /\
    List.length output = Z.to_nat input.(length).
Proof.
  unfold synthesize.
  destruct (output_marks_loop_total (Z.to_nat input.(length))
              (periods_of input_marks) pitch_ratio input.(length)
              (count input_marks) 0 0) as [rest Hrest]; [lia|].
  rewrite Hrest. eexists. split; [reflexivity|].
  apply fold_left_preserves
    with (P := fun o : list float => List.length o = Z.to_nat input.(length)).
  - intros o m Ho. now rewrite length_place_grain.
  - apply repeat_length.
Qed.

(** The engine returns [NULL] exactly when fewer than two marks are
    found; otherwise it returns the normalised synthesis. *)
Lemma psola_body_cases input pitch_ratio :
  exists marks,
    detect_pitch_marks input = Some marks /\
    ((count marks < 2 /\ psola_body input pitch_ratio = None) \/
     (2 <= count marks /\
      exists output,
        synthesize input pitch_ratio marks = Some output /\
        List.length output = Z.to_nat input.(length) /\
        psola_body input pitch_ratio =
        Some {| data := normalize output;
                length := input.(length);
                sample_rate := input.(sample_rate) |})).
Proof.
  destruct (detect_pitch_marks_total input) as [rest Hmarks].
  exists (0 :: rest). split; [exact Hmarks|].
  unfold psola_body. rewrite Hmarks.
  destruct (count (0 :: rest) <? 2) eqn:E.
  - left. apply Z.ltb_lt in E. auto.
  - right. apply Z.ltb_ge in E. split; [exact E|].
    destruct (synthesize_total input pitch_ratio (0 :: rest)) as (o & Ho & Hlen).
    exists o. rewrite Ho. auto.
Qed.

End Engine.

End PsolaFacts.

(** ** Phase vocoder: shape of the result *)

Module PhaseVocoderFacts.
Import PhaseVocoder.

Lemma length_resample temp_output output_pos length :
  List.length (resample temp_output output_pos length) = Z.to_nat length.
Proof. unfold resample. now rewrite length_map, length_range. Qed.

(** A buffer shorter than one FFT window has no frame to process. *)
Lemma num_frames_short input :
  input.(length) < FFT_SIZE -> num_frames input <= 0.
Proof.
  unfold num_frames, FFT_SIZE, HOP_SIZE. intros Hlen.
  replace (length input - 2048) with (- (2048 - length input)) by lia.
  rewrite Z.quot_opp_l by lia.
  pose proof (Z.quot_pos (2048 - length input) 512). lia.
Qed.

Lemma peak_silence n : peak (repeat f0 n) = f0.
Proof.
  unfold peak. induction n as [|n IH]; [reflexivity|].
  simpl. exact IH.
Qed.

Lemma normalize_silence n : normalize (repeat f0 n) = repeat f0 n.
Proof. unfold normalize. rewrite peak_silence. reflexivity. Qed.

(** With nothing synthesised ([output_pos = 0]) the resampling ratio is
    [0 / length = +0], every read position is 0 and no sample is below
    [output_pos]: the third branch writes [0.0f]. *)
Lemma zero_ratio length :
  0 < length < FFT_SIZE -> fdiv (float_of_int 0) (float_of_int length) = f0.
Proof.
  intros Hlen.
  assert (Hall : forallb (fun l => match fdiv (float_of_int 0) (float_of_int l) with
                                   | S754_zero false => true
                                   | _ => false
                                   end)
                         (range_from 1 FFT_SIZE) = true)
    by (vm_compute; reflexivity).
  rewrite forallb_forall in Hall.
  specialize (Hall length). rewrite PsolaFacts.in_range_from in Hall.
  assert (Hlen' : 1 <= length < FFT_SIZE) by lia. specialize (Hall Hlen').
  destruct (fdiv _ _) as [[|]| | |]; try discriminate. reflexivity.
Qed.

Lemma zero_position i :
  0 <= i < FFT_SIZE -> fmul (float_of_int i) f0 = f0.
Proof.
  intros Hi.
  assert (Hall : forallb (fun k => match fmul (float_of_int k) f0 with
                                   | S754_zero false => true
                                   | _ => false
                                   end)
                         (range FFT_SIZE) = true)
    by (vm_compute; reflexivity).
  rewrite forallb_forall in Hall.
  specialize (Hall i). rewrite in_range in Hall. specialize (Hall Hi).
  destruct (fmul _ _) as [[|]| | |]; try discriminate. reflexivity.
Qed.

Lemma resample_nothing temp_output length :
  length < FFT_SIZE ->
  resample temp_output 0 length = repeat f0 (Z.to_nat length).
Proof.
  intros Hlen. unfold resample.
  rewrite <- (length_range length).
  rewrite <- map_const.
  apply map_ext_in. intros i Hi. apply in_range in Hi.
  rewrite zero_ratio by lia.
  rewrite zero_position by lia.
  reflexivity.
Qed.

Section Engine.
Context `{Libm}.
Variable uninit : Complex.

(** Whatever the frames do, the function ends by returning the output
    buffer it allocated, of the input's length and rate. *)
Lemma phase_vocoder_body_cases fuel input pitch_ratio :
  phase_vocoder_body uninit fuel input pitch_ratio = Timeout \/
  exists samples,
    List.length samples = Z.to_nat input.(length) /\
    phase_vocoder_body uninit fuel input pitch_ratio =
    Done (Some {| data := samples;
                  length := input.(length);
                  sample_rate := input.(sample_rate) |}).
Proof.
  unfold phase_vocoder_body, phase_vocoder_signal.
  destruct (frame_loop _ _ _ _ _ _) as [|st]; [now left|].
  right. simpl. eexists. split; [|reflexivity].
  now rewrite length_normalize, length_resample.
Qed.

Lemma phase_vocoder_body_short fuel input pitch_ratio :
  input.(length) < FFT_SIZE ->
  phase_vocoder_body uninit fuel input pitch_ratio =
  Done (Some {| data := repeat f0 (Z.to_nat input.(length));
                length := input.(length);
                sample_rate := input.(sample_rate) |}).
Proof.
  intros Hlen. unfold phase_vocoder_body, phase_vocoder_signal.
  rewrite (range_nonpos (num_frames input)) by now apply num_frames_short.
  simpl.
  rewrite resample_nothing by assumption.
  now rewrite normalize_silence.
Qed.

End Engine.

End PhaseVocoderFacts.

(** ** Order facts on IEEE comparisons *)

Lemma SFcompare_antisym x y c :
  SFcompare x y = Some c -> SFcompare y x = Some (CompOpp c).
Proof.
  destruct x as [sx|sx| |sx mx ex], y as [sy|sy| |sy my ey]; simpl;
    try discriminate;
    try (destruct sx); try (destruct sy); simpl;
    try (intros [= <-]; reflexivity).
  all: intros [= <-]; f_equal.
  all: rewrite (Z.compare_antisym ex ey);
    destruct (ex ?= ey); simpl; try reflexivity;
    pose proof (Pos.compare_cont_antisym mx my Eq) as Ha; simpl in Ha;
    rewrite <- Ha; now destruct (Pos.compare_cont Eq mx my).
Qed.

Lemma flt_not_gt x y : flt x y = true -> fgt x y = false.
Proof.
  unfold flt, fgt, SFltb. destruct (SFcompare x y) as [[| |]|] eqn:E; try discriminate.
  intros _. now rewrite (SFcompare_antisym _ _ _ E).
Qed.

(** For a number, "not below [y]" is "at least [y]". *)
Lemma not_lt_ge x y :
  is_nan x = false -> is_nan y = false -> flt x y = false -> fle y x = true.
Proof.
  unfold flt, fle, SFltb, SFleb. intros Hx Hy.
  destruct (SFcompare x y) as [c|] eqn:E.
  - rewrite (SFcompare_antisym _ _ _ E). now destruct c.
  - destruct x, y; simpl in *; discriminate.
Qed.

(** ** The clamp *)

Lemma clamp_ratio_below r : flt r f0_5 = true -> clamp_ratio r = f0_5.
Proof. unfold clamp_ratio. now intros ->. Qed.

Lemma above_two_not_below_half r : fgt r f2 = true -> flt r f0_5 = false.
Proof.
  unfold fgt, flt, SFltb.
  destruct r as [s|s| |s m e]; cbv beta iota delta [SFcompare f2 f0_5];
    try discriminate.
  - now destruct s.
  - destruct s; [discriminate|].
    destruct (Z.compare_spec (-22) e), (Z.compare_spec e (-24));
      try lia; try discriminate; reflexivity.
Qed.

Lemma clamp_ratio_above r : fgt r f2 = true -> clamp_ratio r = f2.
Proof.
  intros Hr. unfold clamp_ratio.
  rewrite (above_two_not_below_half r Hr). now rewrite Hr.
Qed.

Lemma clamp_ratio_range r :
  is_nan r = false ->
  fle f0_5 (clamp_ratio r) = true /\ fle (clamp_ratio r) f2 = true.
Proof.
  intros Hr. unfold clamp_ratio.
  destruct (flt r f0_5) eqn:Hlo.
  - split; reflexivity.
  - destruct (fgt r f2) eqn:Hhi.
    + split; reflexivity.
    + split.
      * now apply not_lt_ge.
      * now apply not_lt_ge.
Qed.

(** ** Frequency mapper: what a scan returns *)

Module TunerFacts.
Import Tuner.

Section Mapper.
Context `{Libm}.

Lemma candidate_some below recorded cls octave freq :
  candidate below recorded cls octave = Some freq <->
  hit below recorded cls octave /\ freq = get_note_frequency (cls + octave * 12).
Proof.
  unfold candidate, hit.
  destruct (cls + octave * 12 >=? 12) eqn:E1; simpl.
  2: { rewrite Z.geb_leb in E1. apply Z.leb_gt in E1.
       split; [discriminate | intros [[? _] _]; lia]. }
  destruct (cls + octave * 12 <=? 108) eqn:E2; simpl.
  2: { apply Z.leb_gt in E2. split; [discriminate | intros [[? _] _]; lia]. }
  apply Z.geb_le in E1. apply Z.leb_le in E2.
  destruct (if below then _ else _) eqn:E3.
  - split; [intros [= <-]; auto | intros [_ ->]; reflexivity].
  - split; [discriminate | intros [[_ ?] _]; discriminate].
Qed.

Lemma candidate_none below recorded cls octave :
  candidate below recorded cls octave = None <-> ~ hit below recorded cls octave.
Proof.
  destruct (candidate below recorded cls octave) as [freq|] eqn:E.
  - apply candidate_some in E. split; [discriminate | intros Hn; tauto].
  - split; [|reflexivity]. intros _ Hhit.
    assert (Hs : candidate below recorded cls octave
                 = Some (get_note_frequency (cls + octave * 12)))
      by (apply candidate_some; auto).
    congruence.
Qed.

(** The loop returns the frequency of the first octave of the list that
    is a hit, and the initial 0 when there is none. *)
Lemma scan_first below recorded cls octaves :
  (Forall (fun o => ~ hit below recorded cls o) octaves /\
   scan below recorded cls octaves = f0) \/
  (exists before o after,
      octaves = before ++ o :: after /\
      Forall (fun o' => ~ hit below recorded cls o') before /\
      hit below recorded cls o /\
      scan below recorded cls octaves = get_note_frequency (cls + o * 12)).
Proof.
  induction octaves as [|o rest IH]; simpl.
  - left. auto.
  - destruct (candidate below recorded cls o) as [freq|] eqn:E.
    + apply candidate_some in E. destruct E as [Hhit ->].
      right. exists [], o, rest. auto.
    + apply candidate_none in E.
      destruct IH as [[Hnone Hscan] | (before & o' & after & -> & Hb & Hhit & Hscan)].
      * left. auto.
      * right. exists (o :: before), o', after. auto.
Qed.

End Mapper.

End TunerFacts.

(** * Floating-point data as real numbers

    The operations of [SpecFloat] round an exact value; the lemmas below
    bound what a rounding can change, from the definitions of the library. *)

Lemma bpow_gt_0 e : (0 < bpow e)%R.
Proof. apply powerRZ_lt. lra. Qed.

Lemma bpow_add e1 e2 : bpow (e1 + e2) = (bpow e1 * bpow e2)%R.
Proof. apply powerRZ_add. lra. Qed.

Lemma bpow_IZR k : 0 <= k -> bpow k = IZR (2 ^ k).
Proof.
  intros Hk. unfold bpow.
  rewrite <- (Z2Nat.id k Hk) at 1. rewrite <- pow_powerRZ.
  rewrite pow_IZR. now rewrite Z2Nat.id.
Qed.

Lemma bpow_le e1 e2 : e1 <= e2 -> (bpow e1 <= bpow e2)%R.
Proof.
  intros He. replace e2 with (e1 + (e2 - e1)) by lia.
  rewrite bpow_add, (bpow_IZR (e2 - e1)) by lia.
  assert (H1 : (1 <= IZR (2 ^ (e2 - e1)))%R).
  { apply IZR_le. pose proof (Z.pow_pos_nonneg 2 (e2 - e1)). lia. }
  pose proof (bpow_gt_0 e1). nra.
Qed.

Lemma bpow_lt e1 e2 : e1 < e2 -> (bpow e1 < bpow e2)%R.
Proof.
  intros He. replace e2 with (e1 + (e2 - e1)) by lia.
  rewrite bpow_add, (bpow_IZR (e2 - e1)) by lia.
  assert (H1 : (2 <= IZR (2 ^ (e2 - e1)))%R).
  { apply IZR_le. replace (e2 - e1) with (Z.succ (e2 - e1 - 1)) by lia.
    rewrite Z.pow_succ_r by lia.
    pose proof (Z.pow_pos_nonneg 2 (e2 - e1 - 1)). lia. }
  pose proof (bpow_gt_0 e1). nra.
Qed.

(** ** Mantissa arithmetic of [SpecFloat] *)

Lemma digits2_pos_bounds p :
  2 ^ (Z.pos (digits2_pos p) - 1) <= Z.pos p < 2 ^ Z.pos (digits2_pos p).
Proof.
  induction p as [p IH|p IH|]; simpl digits2_pos.
  - rewrite Pos2Z.inj_succ.
    replace (Z.succ (Z.pos (digits2_pos p)) - 1) with (Z.succ (Z.pos (digits2_pos p) - 1)) by lia.
    rewrite !Z.pow_succ_r by lia. lia.
  - rewrite Pos2Z.inj_succ.
    replace (Z.succ (Z.pos (digits2_pos p)) - 1) with (Z.succ (Z.pos (digits2_pos p) - 1)) by lia.
    rewrite !Z.pow_succ_r by lia. lia.
  - simpl. lia.
Qed.

Lemma Zdigits2_bounds m :
  0 < m -> 2 ^ (Zdigits2 m - 1) <= m < 2 ^ Zdigits2 m.
Proof.
  destruct m as [|p|p]; try lia. intros _. apply digits2_pos_bounds.
Qed.

Lemma Zdigits2_nonneg m : 0 <= Zdigits2 m.
Proof. destruct m; simpl; lia. Qed.

(** If [2^(d-1) <= m < 2^d] then [m] has [d] digits. *)
Lemma Zdigits2_unique m d :
  0 < d -> 2 ^ (d - 1) <= m < 2 ^ d -> Zdigits2 m = d.
Proof.
  intros Hd Hm.
  assert (Hpos : 0 < m) by (pose proof (Z.pow_pos_nonneg 2 (d - 1)); lia).
  pose proof (Zdigits2_bounds m Hpos) as Hb.
  pose proof (Zdigits2_nonneg m) as Hn.
  destruct (Z.lt_trichotomy (Zdigits2 m) d) as [Hlt | [Heq | Hgt]]; [|exact Heq|].
  - assert (2 ^ Zdigits2 m <= 2 ^ (d - 1)) by (apply Z.pow_le_mono_r; lia). lia.
  - assert (2 ^ d <= 2 ^ (Zdigits2 m - 1)) by (apply Z.pow_le_mono_r; lia). lia.
Qed.

Lemma shr_1_m mrs : 0 <= shr_m mrs -> shr_m (shr_1 mrs) = shr_m mrs / 2.
Proof.
  destruct mrs as [m r s]. cbn [shr_m]. intros Hm.
  destruct m as [|[p|p|]|p]; cbn [shr_1 shr_m]; try lia; try reflexivity.
  - apply Z.div_unique with 1; lia.
  - apply Z.div_unique with 0; lia.
Qed.

Lemma pow2_xO n : 2 ^ Z.pos n~0 = 2 ^ Z.pos n * 2 ^ Z.pos n.
Proof.
  replace (Z.pos n~0) with (Z.pos n + Z.pos n) by lia.
  apply Z.pow_add_r; lia.
Qed.

Lemma pow2_xI n : 2 ^ Z.pos n~1 = 2 * (2 ^ Z.pos n * 2 ^ Z.pos n).
Proof.
  replace (Z.pos n~1) with (Z.succ (Z.pos n + Z.pos n)) by lia.
  rewrite Z.pow_succ_r by lia. f_equal. apply Z.pow_add_r; lia.
Qed.

Lemma iter_shr_1_m n : forall mrs,
  0 <= shr_m mrs ->
  shr_m (SpecFloat.iter_pos shr_1 n mrs) = shr_m mrs / 2 ^ Z.pos n.
Proof.
  assert (Hp : forall k, 0 < 2 ^ Z.pos k) by (intros; apply Z.pow_pos_nonneg; lia).
  induction n as [n IH|n IH|]; intros mrs Hm; cbn [SpecFloat.iter_pos].
  - assert (H1 : 0 <= shr_m (shr_1 mrs))
      by (rewrite shr_1_m by exact Hm; apply Z.div_pos; lia).
    assert (H2 : 0 <= shr_m (SpecFloat.iter_pos shr_1 n (shr_1 mrs)))
      by (rewrite IH by exact H1; apply Z.div_pos; [exact H1 | apply Hp]).
    rewrite IH by exact H2. rewrite IH by exact H1. rewrite shr_1_m by exact Hm.
    pose proof (Hp n).
    rewrite !Z.div_div by lia. now rewrite pow2_xI.
  - assert (H2 : 0 <= shr_m (SpecFloat.iter_pos shr_1 n mrs))
      by (rewrite IH by exact Hm; apply Z.div_pos; [exact Hm | apply Hp]).
    rewrite IH by exact H2. rewrite IH by exact Hm.
    pose proof (Hp n).
    rewrite !Z.div_div by lia. now rewrite pow2_xO.
  - rewrite shr_1_m by exact Hm. reflexivity.
Qed.

Lemma round_nearest_even_bounds m l :
  m <= round_nearest_even m l <= m + 1.
Proof.
  unfold round_nearest_even. destruct l as [|[| |]]; try lia.
  destruct (Z.even m); lia.
Qed.

Lemma loc_of_shr_record_of_loc m l :
  loc_of_shr_record (shr_record_of_loc m l) = l.
Proof. now destruct l as [|[| |]]. Qed.

Lemma shr_m_shr_record_of_loc m l : shr_m (shr_record_of_loc m l) = m.
Proof. now destruct l as [|[| |]]. Qed.

(** ** Division in inequalities *)

Lemma Rle_div_intro (a b c : R) : (0 < c -> a * c <= b -> a <= b / c)%R.
Proof.
  intros Hc H. unfold Rdiv. apply Rmult_le_reg_r with c; [exact Hc|].
  rewrite Rmult_assoc, Rinv_l by lra. lra.
Qed.

Lemma Rdiv_le_intro (a b c : R) : (0 < c -> b <= a * c -> b / c <= a)%R.
Proof.
  intros Hc H. unfold Rdiv. apply Rmult_le_reg_r with c; [exact Hc|].
  rewrite Rmult_assoc, Rinv_l by lra. lra.
Qed.

Lemma Rdiv_pos (a b : R) : (0 <= a -> 0 < b -> 0 <= a / b)%R.
Proof.
  intros Ha Hb. apply Rle_div_intro; [exact Hb | lra].
Qed.

Lemma Rabs_bounds a b : (Rabs a <= b)%R -> (- b <= a <= b)%R.
Proof. unfold Rabs. destruct (Rcase_abs a); intros; lra. Qed.

Lemma shr_spec mrs e n :
  0 <= shr_m mrs ->
  snd (shr mrs e n) = e + Z.max 0 n /\
  shr_m (fst (shr mrs e n)) = shr_m mrs / 2 ^ Z.max 0 n /\
  (n <= 0 -> fst (shr mrs e n) = mrs).
Proof.
  intros Hm. destruct n as [|p|p]; cbn [shr fst snd].
  - rewrite Z.max_l by lia. rewrite Z.div_1_r. repeat split; auto; lia.
  - rewrite Z.max_r by lia. rewrite iter_shr_1_m by exact Hm. repeat split; auto; lia.
  - rewrite Z.max_l by lia. rewrite Z.div_1_r. repeat split; auto; lia.
Qed.

Section Round.

Variables prec emax : Z.
Hypothesis Hprec : 0 < prec.
Hypothesis Hemax : 2 <= emax.

Local Abbreviation fexp := (SpecFloat.fexp prec emax).
Local Abbreviation emin := (SpecFloat.emin prec emax).
Local Abbreviation round_exp := (round_exp prec emax).
Local Abbreviation round_mant := (round_mant prec emax).
Local Abbreviation finish := (finish prec emax).
Local Abbreviation rounds_to := (rounds_to prec emax).
Local Abbreviation numeric := (numeric prec emax).
Local Abbreviation rounded := (rounded prec emax).

Lemma fexp_ge_emin e : emin <= fexp e.
Proof. unfold SpecFloat.fexp. lia. Qed.

Lemma fexp_ge e : e - prec <= fexp e.
Proof. unfold SpecFloat.fexp. lia. Qed.

Lemma fexp_cases e : fexp e = e - prec \/ fexp e = emin.
Proof. unfold SpecFloat.fexp. lia. Qed.

Lemma round_mant_lt mx ex : 0 <= mx -> 0 <= round_mant mx ex < 2 ^ prec.
Proof.
  intros Hmx. unfold round_mant.
  set (k := round_exp mx ex - ex).
  assert (Hk : 0 <= k) by (unfold k, round_exp; lia).
  assert (Hp : 0 < 2 ^ k) by (apply Z.pow_pos_nonneg; lia).
  split; [apply Z.div_pos; lia|].
  apply Z.div_lt_upper_bound; [exact Hp|].
  rewrite <- Z.pow_add_r by lia.
  destruct (Z.eq_dec mx 0) as [->|Hnz].
  - apply Z.pow_pos_nonneg; lia.
  - pose proof (Zdigits2_bounds mx ltac:(lia)) as [_ Hub].
    assert (Hd : Zdigits2 mx <= k + prec).
    { unfold k, round_exp. pose proof (fexp_ge (Zdigits2 mx + ex)). lia. }
    pose proof (Z.pow_le_mono_r 2 _ _ ltac:(lia) Hd). lia.
Qed.

(** When the input is aligned ([ex] at most the target exponent) and the
    target is above [emin], the shifted mantissa fills the precision. *)
Lemma round_mant_ge mx ex :
  0 < mx -> ex <= fexp (Zdigits2 mx + ex) -> emin < round_exp mx ex ->
  2 ^ (prec - 1) <= round_mant mx ex.
Proof.
  intros Hmx Hal Hn. unfold round_mant, round_exp in *.
  rewrite Z.max_r in * by lia.
  destruct (fexp_cases (Zdigits2 mx + ex)) as [He|He]; [|lia].
  rewrite He in *.
  replace (Zdigits2 mx + ex - prec - ex) with (Zdigits2 mx - prec) by lia.
  pose proof (Zdigits2_bounds mx Hmx) as [Hlb _].
  assert (Hk : 0 <= Zdigits2 mx - prec) by lia.
  apply Z.div_le_lower_bound; [apply Z.pow_pos_nonneg; lia|].
  rewrite <- Z.pow_add_r by lia.
  replace (Zdigits2 mx - prec + (prec - 1)) with (Zdigits2 mx - 1) by lia.
  exact Hlb.
Qed.

Lemma binary_round_aux_finish sx mx ex lx :
  0 <= mx ->
  exists m2,
    round_mant mx ex <= m2 <= round_mant mx ex + 1 /\
    (lx = loc_Exact -> round_exp mx ex = ex -> m2 = mx) /\
    binary_round_aux prec emax sx mx ex lx = finish sx m2 (round_exp mx ex).
Proof.
  intros Hmx. unfold binary_round_aux, shr_fexp at 1.
  set (n1 := fexp (Zdigits2 mx + ex) - ex).
  pose proof (shr_spec (shr_record_of_loc mx lx) ex n1) as Hshr.
  rewrite shr_m_shr_record_of_loc in Hshr. specialize (Hshr Hmx).
  destruct (shr (shr_record_of_loc mx lx) ex n1) as [mrs' e'].
  cbn [fst snd] in Hshr. destruct Hshr as (He' & Hm' & Hsame).
  assert (Hexp : e' = round_exp mx ex) by (unfold round_exp; lia).
  assert (Hmant : shr_m mrs' = round_mant mx ex).
  { unfold round_mant. rewrite Hm'. do 2 f_equal. unfold round_exp. lia. }
  exists (round_nearest_even (shr_m mrs') (loc_of_shr_record mrs')).
  split; [rewrite <- Hmant; apply round_nearest_even_bounds|].
  split.
  - intros -> Hno.
    assert (Hn1 : n1 <= 0) by (unfold round_exp in Hno; lia).
    rewrite (Hsame Hn1). reflexivity.
  - unfold finish. rewrite Hexp. reflexivity.
Qed.

Lemma finish_spec sx m2 e1 :
  0 <= m2 <= 2 ^ prec -> emin <= e1 ->
  (m2 = 0 /\ finish sx m2 e1 = S754_zero sx) \/
  (0 < m2 < 2 ^ prec /\
   finish sx m2 e1 =
   if e1 <=? emax - prec then S754_finite sx (Z.to_pos m2) e1 else S754_infinity sx) \/
  (m2 = 2 ^ prec /\
   finish sx m2 e1 =
   if e1 + 1 <=? emax - prec
   then S754_finite sx (Z.to_pos (2 ^ (prec - 1))) (e1 + 1) else S754_infinity sx).
Proof.
  intros Hm2 He1. unfold finish, shr_fexp.
  set (n2 := fexp (Zdigits2 m2 + e1) - e1).
  pose proof (shr_spec (shr_record_of_loc m2 loc_Exact) e1 n2) as Hshr.
  rewrite shr_m_shr_record_of_loc in Hshr. specialize (Hshr ltac:(lia)).
  destruct (shr (shr_record_of_loc m2 loc_Exact) e1 n2) as [mrs e''].
  cbn [fst snd] in Hshr. destruct Hshr as (He'' & Hm & Hsame).
  assert (Hpp : 0 < 2 ^ prec) by (apply Z.pow_pos_nonneg; lia).
  destruct (Z.eq_dec m2 0) as [Hz|Hnz]; [|destruct (Z.eq_dec m2 (2 ^ prec)) as [Htop|Hlt]].
  - left. split; [exact Hz|].
    rewrite Hm, Hz, Z.div_0_l by (apply Z.pow_nonzero; lia). reflexivity.
  - right. right. split; [exact Htop|].
    assert (Hd : Zdigits2 m2 = prec + 1).
    { apply Zdigits2_unique; [lia|]. rewrite Htop.
      replace (prec + 1 - 1) with prec by lia.
      replace (prec + 1) with (Z.succ prec) by lia.
      rewrite Z.pow_succ_r by lia. lia. }
    assert (Hn2 : n2 = 1).
    { unfold n2. rewrite Hd. unfold SpecFloat.fexp. lia. }
    rewrite Hn2 in *. change (Z.max 0 1) with 1 in *. change (2 ^ 1) with 2 in Hm.
    assert (Hhalf : m2 / 2 = 2 ^ (prec - 1)).
    { rewrite Htop. replace prec with (Z.succ (prec - 1)) at 1 by lia.
      rewrite Z.pow_succ_r by lia. rewrite Z.mul_comm. apply Z.div_mul. lia. }
    rewrite Hm, Hhalf, He''.
    assert (Hpos : 0 < 2 ^ (prec - 1)) by (apply Z.pow_pos_nonneg; lia).
    destruct (2 ^ (prec - 1)) as [|p|p] eqn:E; try lia. reflexivity.
  - right. left. split; [lia|].
    assert (Hd : Zdigits2 m2 <= prec).
    { pose proof (Zdigits2_bounds m2 ltac:(lia)) as [Hlb _].
      destruct (Z_le_gt_dec (Zdigits2 m2) prec) as [Hle|Hgt]; [exact Hle|].
      pose proof (Z.pow_le_mono_r 2 prec (Zdigits2 m2 - 1) ltac:(lia) ltac:(lia)). lia. }
    assert (Hn2 : n2 <= 0).
    { unfold n2. unfold SpecFloat.fexp. lia. }
    rewrite (Hsame Hn2). rewrite shr_m_shr_record_of_loc.
    rewrite He''. rewrite Z.max_l by lia. rewrite Z.add_0_r.
    destruct m2 as [|p|p]; try lia. reflexivity.
Qed.

(** The shifted mantissa brackets the exact value. *)
Lemma round_mant_bracket mx ex :
  0 <= mx ->
  (IZR (round_mant mx ex) * bpow (round_exp mx ex) <= IZR mx * bpow ex
   < (IZR (round_mant mx ex) + 1) * bpow (round_exp mx ex))%R.
Proof.
  intros Hmx. unfold round_mant.
  set (e1 := round_exp mx ex). set (k := e1 - ex).
  assert (Hk : 0 <= k) by (unfold k, e1, round_exp; lia).
  assert (Hp : 0 < 2 ^ k) by (apply Z.pow_pos_nonneg; lia).
  replace e1 with (ex + k) by (unfold k; lia).
  rewrite bpow_add, (bpow_IZR k Hk).
  pose proof (bpow_gt_0 ex) as Hb.
  pose proof (Z.mul_div_le mx (2 ^ k) Hp) as Hlo.
  pose proof (Z.mul_succ_div_gt mx (2 ^ k) Hp) as Hhi.
  apply IZR_le in Hlo. apply IZR_lt in Hhi.
  rewrite mult_IZR in Hlo. rewrite mult_IZR, succ_IZR in Hhi.
  split; nra.
Qed.

(** The rounding step is at most one unit of the target exponent, and is
    relative to the value when the target is above [emin] and a shift took
    place. *)
Lemma round_exp_cases mx ex :
  0 < mx ->
  round_exp mx ex = ex \/ round_exp mx ex = emin \/
  (bpow (round_exp mx ex) <= bpow (1 - prec) * (IZR mx * bpow ex))%R.
Proof.
  intros Hmx. unfold round_exp.
  destruct (Z.max_spec ex (fexp (Zdigits2 mx + ex))) as [[_ ->]|[_ ->]]; [|now left].
  destruct (fexp_cases (Zdigits2 mx + ex)) as [->| ->]; [|now right; left].
  right. right.
  pose proof (Zdigits2_bounds mx Hmx) as [Hlb _].
  assert (Hd : 0 < Zdigits2 mx) by (destruct mx; simpl; lia).
  replace (Zdigits2 mx + ex - prec) with ((1 - prec) + ((Zdigits2 mx - 1) + ex)) by lia.
  rewrite !bpow_add, (bpow_IZR (Zdigits2 mx - 1)) by lia.
  apply IZR_le in Hlb.
  apply Rmult_le_compat_l; [left; apply bpow_gt_0|].
  apply Rmult_le_compat_r; [left; apply bpow_gt_0 | exact Hlb].
Qed.

Theorem binary_round_aux_correct sx mx ex lx :
  0 <= mx ->
  exists m2,
    round_mant mx ex <= m2 <= round_mant mx ex + 1 /\
    (lx = loc_Exact -> round_exp mx ex = ex -> m2 = mx) /\
    ((binary_round_aux prec emax sx mx ex lx = S754_infinity sx /\
      emax - prec <= round_exp mx ex) \/
     (binary_round_aux prec emax sx mx ex lx = S754_zero sx /\ m2 = 0) \/
     (exists mr er,
         binary_round_aux prec emax sx mx ex lx = S754_finite sx mr er /\
         0 < m2 /\
         (IZR (Z.pos mr) * bpow er = IZR m2 * bpow (round_exp mx ex))%R /\
         er <= emax - prec /\
         (ex <= fexp (Zdigits2 mx + ex) ->
          canonical_mantissa prec emax mr er = true) /\
         ((er = round_exp mx ex /\ Z.pos mr = m2) \/
          (er = round_exp mx ex + 1 /\ 2 * Z.pos mr = m2)))).
Proof.
  intros Hmx.
  destruct (binary_round_aux_finish sx mx ex lx Hmx) as (m2 & Hm2 & Hexact & ->).
  exists m2. split; [exact Hm2|]. split; [exact Hexact|].
  pose proof (round_mant_lt mx ex Hmx) as Hm1.
  assert (He1 : emin <= round_exp mx ex).
  { unfold round_exp. pose proof (fexp_ge_emin (Zdigits2 mx + ex)). lia. }
  assert (Hm2' : 0 <= m2 <= 2 ^ prec) by lia.
  destruct (finish_spec sx m2 (round_exp mx ex) Hm2' He1)
    as [[Hz ->] | [[Hmid ->] | [Htop ->]]].
  - right. left. auto.
  - destruct (Z.leb_spec (round_exp mx ex) (emax - prec)) as [Hle|Hgt].
    + right. right. exists (Z.to_pos m2), (round_exp mx ex).
      split; [reflexivity|]. split; [lia|].
      rewrite Z2Pos.id by lia. split; [reflexivity|]. split; [exact Hle|].
      split; [|left; split; reflexivity].
      intros Hal. unfold canonical_mantissa. apply Z.eqb_eq.
      change (Z.pos (digits2_pos (Z.to_pos m2))) with (Zdigits2 (Z.pos (Z.to_pos m2))).
      rewrite Z2Pos.id by lia.
      assert (Hd : Zdigits2 m2 <= prec).
      { pose proof (Zdigits2_bounds m2 ltac:(lia)) as [Hlb _].
        destruct (Z_le_gt_dec (Zdigits2 m2) prec) as [Hle'|Hgt']; [exact Hle'|].
        pose proof (Z.pow_le_mono_r 2 prec (Zdigits2 m2 - 1) ltac:(lia) ltac:(lia)). lia. }
      destruct (Z.eq_dec (round_exp mx ex) emin) as [Hmin|Hnmin].
      * unfold SpecFloat.fexp. lia.
      * assert (Hmxpos : 0 < mx).
        { destruct (Z.eq_dec mx 0) as [->|]; [|lia]. exfalso.
          unfold round_exp in Hnmin, He1. simpl Zdigits2 in *.
          unfold SpecFloat.fexp in *. lia. }
        pose proof (round_mant_ge mx ex Hmxpos Hal ltac:(lia)) as Hge.
        assert (Zdigits2 m2 = prec) as ->.
        { apply Zdigits2_unique; [lia|]. lia. }
        unfold SpecFloat.fexp. lia.
    + left. split; [reflexivity | lia].
  - destruct (Z.leb_spec (round_exp mx ex + 1) (emax - prec)) as [Hle|Hgt].
    + right. right. exists (Z.to_pos (2 ^ (prec - 1))), (round_exp mx ex + 1).
      assert (Hpos : 0 < 2 ^ (prec - 1)) by (apply Z.pow_pos_nonneg; lia).
      split; [reflexivity|]. split; [lia|].
      rewrite Z2Pos.id by lia. split; [|split; [exact Hle|split]].
      * rewrite Htop, bpow_add. rewrite <- !bpow_IZR by lia.
        rewrite <- !bpow_add. f_equal. lia.
      * intros _. unfold canonical_mantissa. apply Z.eqb_eq.
        change (Z.pos (digits2_pos (Z.to_pos (2 ^ (prec - 1)))))
          with (Zdigits2 (Z.pos (Z.to_pos (2 ^ (prec - 1))))).
        rewrite Z2Pos.id by lia.
        assert (Zdigits2 (2 ^ (prec - 1)) = prec) as ->.
        { apply Zdigits2_unique; [lia|]. split; [lia|].
          apply Z.pow_lt_mono_r; lia. }
        unfold SpecFloat.fexp. lia.
      * right. split; [reflexivity|]. rewrite Htop.
        rewrite <- Z.pow_succ_r by lia. f_equal. lia.
    + left. split; [reflexivity | lia].
Qed.

Lemma mag_pos m e : (0 < mag m e)%R.
Proof.
  unfold mag. apply Rmult_lt_0_compat; [apply IZR_lt; lia | apply bpow_gt_0].
Qed.

Lemma fexp_mono a b : a <= b -> fexp a <= fexp b.
Proof. unfold SpecFloat.fexp. lia. Qed.

(** A value below [2^k] rounds at an exponent of at most
    [max ex (fexp k)]. *)
Lemma round_exp_le mx ex k :
  0 < mx -> (IZR mx * bpow ex < bpow k)%R ->
  round_exp mx ex <= Z.max ex (fexp k).
Proof.
  intros Hmx Hlt. unfold round_exp.
  pose proof (Zdigits2_bounds mx Hmx) as [Hlb _].
  assert (Hd : 0 < Zdigits2 mx) by (destruct mx; simpl; lia).
  assert (Hdk : Zdigits2 mx + ex <= k).
  { destruct (Z_le_gt_dec (Zdigits2 mx + ex) k) as [Hle|Hgt]; [exact Hle|]. exfalso.
    assert (Hb : (bpow k <= bpow (Zdigits2 mx - 1 + ex))%R) by (apply bpow_le; lia).
    rewrite bpow_add, (bpow_IZR (Zdigits2 mx - 1)) in Hb by lia.
    apply IZR_le in Hlb. pose proof (bpow_gt_0 ex). nra. }
  pose proof (fexp_mono _ _ Hdk). lia.
Qed.

(** The error model of one rounding: the result [v] of rounding the
    integer-scaled value [mx * 2^ex] satisfies
    [|v - mx 2^ex| <= 2^(1-prec) * mx 2^ex + 2^emin]. *)
Lemma round_error m2 mx ex :
  0 < mx ->
  round_mant mx ex <= m2 <= round_mant mx ex + 1 ->
  (round_exp mx ex = ex -> m2 = mx) ->
  let v := (IZR m2 * bpow (round_exp mx ex))%R in
  let t := (IZR mx * bpow ex)%R in
  (t - (bpow (1 - prec) * t + bpow emin) <= v <= t + (bpow (1 - prec) * t + bpow emin))%R.
Proof.
  intros Hmx Hm2 Hexact v t.
  pose proof (round_mant_bracket mx ex ltac:(lia)) as [Hlo Hhi].
  pose proof (bpow_gt_0 (round_exp mx ex)) as Hu.
  pose proof (bpow_gt_0 (1 - prec)) as Hrel.
  pose proof (bpow_gt_0 emin) as Habs.
  assert (Ht : (0 < t)%R).
  { unfold t. apply Rmult_lt_0_compat; [apply IZR_lt; lia | apply bpow_gt_0]. }
  assert (Hv : (t - bpow (round_exp mx ex) <= v
                <= t + bpow (round_exp mx ex))%R).
  { destruct Hm2 as [H1 H2]. apply IZR_le in H1, H2. rewrite plus_IZR in H2.
    unfold v. fold t in Hlo, Hhi. split; nra. }
  destruct (round_exp_cases mx ex Hmx) as [He | [He | He]].
  - assert (v = t) by (unfold v, t; rewrite (Hexact He), He; reflexivity).
    assert (0 <= bpow (1 - prec) * t)%R by nra. lra.
  - rewrite He in Hv. assert (0 <= bpow (1 - prec) * t)%R by nra. lra.
  - fold t in He. lra.
Qed.

Lemma B2R_finite s m e : B2R (S754_finite s m e) = (sgn s * mag m e)%R.
Proof. unfold B2R, sgn, mag. destruct s; ring. Qed.

Lemma SFmul_finite sx mx ex sy my ey :
  rounds_to (xorb sx sy) (mag mx ex * mag my ey)
            (round_exp (Z.pos (mx * my)) (ex + ey))
            (SFmul prec emax (S754_finite sx mx ex) (S754_finite sy my ey)).
Proof.
  cbn [SFmul].
  destruct (binary_round_aux_correct (xorb sx sy) (Z.pos (mx * my)) (ex + ey)
              loc_Exact ltac:(lia))
    as (m2 & Hm2 & Hexact & Hres).
  pose proof (round_error m2 (Z.pos (mx * my)) (ex + ey) ltac:(lia) Hm2
                (Hexact eq_refl)) as Herr.
  cbv zeta in Herr.
  assert (Ht : (IZR (Z.pos (mx * my)) * bpow (ex + ey) = mag mx ex * mag my ey)%R).
  { unfold mag. rewrite Pos2Z.inj_mul, mult_IZR, bpow_add. ring. }
  rewrite Ht in Herr.
  assert (Hv0 : (0 <= IZR m2 * bpow (round_exp (Z.pos (mx * my)) (ex + ey)))%R).
  { apply Rmult_le_pos; [|left; apply bpow_gt_0].
    apply IZR_le. pose proof (round_mant_lt (Z.pos (mx * my)) (ex + ey) ltac:(lia)). lia. }
  destruct Hres as [[-> Hov] | [[-> Hz] | (mr & er & -> & Hpos & Hval & _)]].
  - left. auto.
  - right. split; [now left|].
    exists (IZR m2 * bpow (round_exp (Z.pos (mx * my)) (ex + ey)))%R.
    split; [rewrite Hz; simpl; ring|]. split; [exact Hv0 | apply Herr].
  - right. split; [right; eauto|].
    exists (IZR m2 * bpow (round_exp (Z.pos (mx * my)) (ex + ey)))%R.
    split; [rewrite B2R_finite; unfold mag; rewrite Hval; reflexivity|].
    split; [exact Hv0 | apply Herr].
Qed.

(** The quotient mantissa of [SFdiv_core_binary] fills the precision unless
    the quotient exponent is at or below [emin]. *)
Lemma SFdiv_core_binary_spec mx ex my ey :
  Z.pos (digits2_pos mx) <= prec ->
  let '(q, e', _) := SFdiv_core_binary prec emax (Z.pos mx) ex (Z.pos my) ey in
  0 <= q /\
  (IZR q * bpow e' <= mag mx ex / mag my ey)%R /\
  (2 ^ (prec - 1) <= q \/ e' <= emin).
Proof.
  intros Hd1. unfold SFdiv_core_binary.
  set (d1 := Zdigits2 (Z.pos mx)). set (d2 := Zdigits2 (Z.pos my)).
  set (X := d1 + ex - (d2 + ey)).
  set (e' := Z.min (fexp X) (ex - ey)).
  set (s := ex - ey - e').
  assert (Hs : 0 <= s) by (unfold s, e'; lia).
  set (m' := match s with Z.pos _ => Z.shiftl (Z.pos mx) s | 0 => Z.pos mx | Z.neg _ => 0 end).
  assert (Hm' : m' = Z.pos mx * 2 ^ s).
  { unfold m'. destruct s as [|p|p] eqn:E; try lia.
    apply Z.shiftl_mul_pow2. lia. }
  pose proof (Z_div_mod m' (Z.pos my) ltac:(lia)) as Hdiv.
  destruct (Z.div_eucl m' (Z.pos my)) as [q r]. destruct Hdiv as [Heq Hr].
  assert (Hps : 0 < 2 ^ s) by (apply Z.pow_pos_nonneg; lia).
  assert (Hq : 0 <= q) by nia.
  split; [exact Hq|]. split.
  - unfold mag.
    pose proof (bpow_gt_0 ey) as Hey. pose proof (bpow_gt_0 e') as He'.
    assert (Hmy : (0 < IZR (Z.pos my))%R) by (apply IZR_lt; lia).
    apply Rle_div_intro; [nra|].
    replace ex with (s + e' + ey) by (unfold s; lia).
    rewrite !bpow_add, (bpow_IZR s Hs).
    assert (Hle : (IZR q * IZR (Z.pos my) <= IZR (Z.pos mx) * IZR (2 ^ s))%R).
    { rewrite <- !mult_IZR. apply IZR_le. nia. }
    replace (IZR q * bpow e' * (IZR (Z.pos my) * bpow ey))%R
      with ((IZR q * IZR (Z.pos my)) * (bpow e' * bpow ey))%R by ring.
    replace (IZR (Z.pos mx) * (IZR (2 ^ s) * bpow e' * bpow ey))%R
      with ((IZR (Z.pos mx) * IZR (2 ^ s)) * (bpow e' * bpow ey))%R by ring.
    apply Rmult_le_compat_r; [|exact Hle].
    left. apply Rmult_lt_0_compat; assumption.
  - destruct (Z_le_gt_dec e' emin) as [Hle|Hgt]; [now right|]. left.
    pose proof (digits2_pos_bounds mx) as [Hlb1 _].
    pose proof (digits2_pos_bounds my) as [_ Hub2].
    change (Z.pos (digits2_pos mx)) with d1 in Hlb1, Hd1.
    change (Z.pos (digits2_pos my)) with d2 in Hub2.
    assert (Hd2 : 0 < d2) by (unfold d2; simpl; lia).
    assert (Hd1' : 0 < d1) by (unfold d1; simpl; lia).
    assert (Hsv : s = prec - d1 + d2).
    { unfold s, e', X in *. unfold SpecFloat.fexp in *. lia. }
    (* m' >= 2^(prec - 1 + d2) > 2^(prec-1) * my *)
    assert (Hbig : 2 ^ (prec - 1) * 2 ^ d2 <= m').
    { rewrite Hm', Hsv. rewrite <- Z.pow_add_r by lia.
      replace (prec - 1 + d2) with ((d1 - 1) + (prec - d1 + d2)) by lia.
      rewrite Z.pow_add_r by lia.
      apply Z.mul_le_mono_nonneg_r; [apply Z.pow_nonneg; lia | exact Hlb1]. }
    assert (Hpp : 0 < 2 ^ (prec - 1)) by (apply Z.pow_pos_nonneg; lia).
    destruct (Z_le_gt_dec (2 ^ (prec - 1)) q) as [Hok|Hsmall]; [exact Hok|].
    exfalso. nia.
Qed.

Lemma round_step_small mx ex (t : R) :
  0 <= mx -> (IZR mx * bpow ex <= t)%R ->
  (2 ^ (prec - 1) <= mx \/ ex <= emin) ->
  (bpow (round_exp mx ex) <= bpow (1 - prec) * t + bpow emin)%R.
Proof.
  intros Hmx Ht Hfill.
  pose proof (bpow_gt_0 (1 - prec)) as Hrel. pose proof (bpow_gt_0 emin) as Habs.
  pose proof (bpow_gt_0 ex) as Hex.
  assert (Ht0 : (0 <= t)%R).
  { apply Rle_trans with (2 := Ht). apply Rmult_le_pos; [apply IZR_le; lia | lra]. }
  assert (Hrt : (0 <= bpow (1 - prec) * t)%R) by (apply Rmult_le_pos; lra).
  destruct (Z.eq_dec mx 0) as [-> | Hnz].
  - destruct Hfill as [Hbad | Hle].
    + pose proof (Z.pow_pos_nonneg 2 (prec - 1)). lia.
    + assert (round_exp 0 ex = emin) as ->.
      { unfold round_exp. simpl Zdigits2. unfold SpecFloat.fexp. lia. }
      lra.
  - destruct (round_exp_cases mx ex ltac:(lia)) as [He | [He | He]].
    + rewrite He. destruct Hfill as [Hbig | Hle].
      * assert (H1 : (1 <= bpow (1 - prec) * IZR mx)%R).
        { apply IZR_le in Hbig. rewrite <- bpow_IZR in Hbig by lia.
          replace 1%R with (bpow (1 - prec) * bpow (prec - 1))%R.
          - apply Rmult_le_compat_l; lra.
          - rewrite <- bpow_add. replace (1 - prec + (prec - 1)) with 0 by lia.
            reflexivity. }
        assert (H2 : (bpow ex <= bpow (1 - prec) * (IZR mx * bpow ex))%R) by nra.
        assert (H3 : (bpow (1 - prec) * (IZR mx * bpow ex) <= bpow (1 - prec) * t)%R)
          by (apply Rmult_le_compat_l; lra).
        lra.
      * assert (ex = emin).
        { unfold round_exp in He. pose proof (fexp_ge_emin (Zdigits2 mx + ex)). lia. }
        subst ex. lra.
    + rewrite He. lra.
    + assert (H3 : (bpow (1 - prec) * (IZR mx * bpow ex) <= bpow (1 - prec) * t)%R)
        by (apply Rmult_le_compat_l; lra).
      lra.
Qed.

Lemma SFdiv_finite sx mx ex sy my ey :
  Z.pos (digits2_pos mx) <= prec ->
  let core := SFdiv_core_binary prec emax (Z.pos mx) ex (Z.pos my) ey in
  rounds_to (xorb sx sy) (mag mx ex / mag my ey)
            (round_exp (fst (fst core)) (snd (fst core)))
            (SFdiv prec emax (S754_finite sx mx ex) (S754_finite sy my ey)).
Proof.
  intros Hd1 core. subst core. cbn [SFdiv].
  pose proof (SFdiv_core_binary_spec mx ex my ey Hd1) as Hcore.
  destruct (SFdiv_core_binary prec emax (Z.pos mx) ex (Z.pos my) ey) as [[q e'] l].
  cbn [fst snd]. destruct Hcore as (Hq & Hle & Hfill).
  set (t := (mag mx ex / mag my ey)%R) in *.
  destruct (binary_round_aux_correct (xorb sx sy) q e' l Hq)
    as (m2 & Hm2 & _ & Hres).
  pose proof (round_mant_bracket q e' Hq) as [Hlo _].
  pose proof (round_step_small q e' t Hq Hle Hfill) as Hstep.
  pose proof (bpow_gt_0 (round_exp q e')) as Hu.
  pose proof (round_mant_lt q e' Hq) as Hm1.
  assert (Hv0 : (0 <= IZR m2 * bpow (round_exp q e'))%R).
  { apply Rmult_le_pos; [apply IZR_le; lia | lra]. }
  assert (Hv : (IZR m2 * bpow (round_exp q e')
                <= t + (bpow (1 - prec) * t + bpow emin))%R).
  { destruct Hm2 as [_ H2]. apply IZR_le in H2. rewrite plus_IZR in H2. nra. }
  destruct Hres as [[-> Hov] | [[-> Hz] | (mr & er & -> & Hpos & Hval & _)]].
  - left. auto.
  - right. split; [now left|].
    exists (IZR m2 * bpow (round_exp q e'))%R.
    split; [rewrite Hz; simpl; ring|]. split; assumption.
  - right. split; [right; eauto|].
    exists (IZR m2 * bpow (round_exp q e'))%R.
    split; [rewrite B2R_finite; unfold mag; rewrite Hval; reflexivity|].
    split; assumption.
Qed.

(** *** Comparisons of canonical data follow their values *)

Lemma canonical_digits m e :
  canonical_mantissa prec emax m e = true ->
  Z.pos (digits2_pos m) <= prec /\ emin <= e /\
  (emin < e -> Z.pos (digits2_pos m) = prec).
Proof.
  unfold canonical_mantissa. intros Hc. apply Z.eqb_eq in Hc.
  unfold SpecFloat.fexp in Hc. lia.
Qed.

Lemma mag_lt_bpow m e :
  canonical_mantissa prec emax m e = true -> (mag m e < bpow (prec + e))%R.
Proof.
  intros Hc. destruct (canonical_digits m e Hc) as (Hd & _ & _).
  pose proof (digits2_pos_bounds m) as [_ Hub].
  assert (Hlt : Z.pos m < 2 ^ prec).
  { pose proof (Z.pow_le_mono_r 2 _ _ ltac:(lia) Hd). lia. }
  unfold mag. rewrite bpow_add, (bpow_IZR prec) by lia.
  apply Rmult_lt_compat_r; [apply bpow_gt_0 | apply IZR_lt, Hlt].
Qed.

Lemma mag_ge_bpow m e :
  canonical_mantissa prec emax m e = true -> emin < e ->
  (bpow (prec - 1 + e) <= mag m e)%R.
Proof.
  intros Hc He. destruct (canonical_digits m e Hc) as (_ & _ & Hd).
  pose proof (digits2_pos_bounds m) as [Hlb _]. rewrite (Hd He) in Hlb.
  unfold mag. rewrite bpow_add, (bpow_IZR (prec - 1)) by lia.
  apply Rmult_le_compat_r; [left; apply bpow_gt_0 | apply IZR_le, Hlb].
Qed.

Lemma mag_lt_of_exp m1 e1 m2 e2 :
  canonical_mantissa prec emax m1 e1 = true ->
  canonical_mantissa prec emax m2 e2 = true ->
  e1 < e2 -> (mag m1 e1 < mag m2 e2)%R.
Proof.
  intros H1 H2 He.
  destruct (canonical_digits m1 e1 H1) as (_ & Hmin & _).
  apply Rlt_le_trans with (1 := mag_lt_bpow m1 e1 H1).
  apply Rle_trans with (2 := mag_ge_bpow m2 e2 H2 ltac:(lia)).
  apply bpow_le. lia.
Qed.

Lemma mag_compare m1 m2 e :
  match Pos.compare_cont Eq m1 m2 with
  | Lt => (mag m1 e < mag m2 e)%R
  | Eq => mag m1 e = mag m2 e
  | Gt => (mag m2 e < mag m1 e)%R
  end.
Proof.
  change (Pos.compare_cont Eq m1 m2) with (Pos.compare m1 m2).
  unfold mag. pose proof (bpow_gt_0 e) as He.
  destruct (Pos.compare_spec m1 m2) as [-> | Hlt | Hlt].
  - reflexivity.
  - apply Rmult_lt_compat_r; [exact He | apply IZR_lt; lia].
  - apply Rmult_lt_compat_r; [exact He | apply IZR_lt; lia].
Qed.

Theorem SFcompare_numeric x y :
  numeric x -> numeric y ->
  exists c, SFcompare x y = Some c /\ agrees c (B2R x) (B2R y).
Proof.
  destruct x as [sx|sx| |sx mx ex]; try contradiction;
    destruct y as [sy|sy| |sy my ey]; try contradiction; intros Hx Hy;
    cbn [SFcompare numeric] in *.
  - exists Eq. split; [reflexivity | reflexivity].
  - pose proof (mag_pos my ey). rewrite B2R_finite.
    destruct sy; eexists; (split; [reflexivity|]); unfold sgn; simpl; lra.
  - pose proof (mag_pos mx ex). rewrite B2R_finite.
    destruct sx; eexists; (split; [reflexivity|]); unfold sgn; simpl; lra.
  - pose proof (mag_pos mx ex). pose proof (mag_pos my ey).
    rewrite !B2R_finite.
    destruct sx, sy; unfold sgn.
    + destruct (Z.compare_spec ex ey) as [-> | Hlt | Hlt].
      * pose proof (mag_compare mx my ey) as Hc.
        destruct (Pos.compare_cont Eq mx my); eexists; (split; [reflexivity|]);
          simpl in *; lra.
      * pose proof (mag_lt_of_exp mx ex my ey Hx Hy Hlt).
        eexists; (split; [reflexivity|]); simpl; lra.
      * pose proof (mag_lt_of_exp my ey mx ex Hy Hx Hlt).
        eexists; (split; [reflexivity|]); simpl; lra.
    + eexists; (split; [reflexivity|]); simpl; lra.
    + eexists; (split; [reflexivity|]); simpl; lra.
    + destruct (Z.compare_spec ex ey) as [-> | Hlt | Hlt].
      * pose proof (mag_compare mx my ey) as Hc.
        destruct (Pos.compare_cont Eq mx my); eexists; (split; [reflexivity|]);
          simpl in *; lra.
      * pose proof (mag_lt_of_exp mx ex my ey Hx Hy Hlt).
        eexists; (split; [reflexivity|]); simpl; lra.
      * pose proof (mag_lt_of_exp my ey mx ex Hy Hx Hlt).
        eexists; (split; [reflexivity|]); simpl; lra.
Qed.

Corollary SFltb_true x y :
  numeric x -> numeric y -> SFltb x y = true -> (B2R x < B2R y)%R.
Proof.
  intros Hx Hy. unfold SFltb.
  destruct (SFcompare_numeric x y Hx Hy) as (c & -> & Hc).
  destruct c; try discriminate. intros _. exact Hc.
Qed.

Corollary SFltb_false x y :
  numeric x -> numeric y -> SFltb x y = false -> (B2R y <= B2R x)%R.
Proof.
  intros Hx Hy. unfold SFltb.
  destruct (SFcompare_numeric x y Hx Hy) as (c & -> & Hc).
  destruct c; try discriminate; intros _; simpl in Hc; lra.
Qed.

Corollary SFleb_true x y :
  numeric x -> numeric y -> SFleb x y = true -> (B2R x <= B2R y)%R.
Proof.
  intros Hx Hy. unfold SFleb.
  destruct (SFcompare_numeric x y Hx Hy) as (c & -> & Hc).
  destruct c; try discriminate; intros _; simpl in Hc; lra.
Qed.

(** *** Operations whose exact result is far from the overflow threshold *)

Lemma overflow_large mx ex :
  0 < mx -> emax - prec <= round_exp mx ex ->
  (bpow (emax - prec) <= IZR mx * bpow ex)%R.
Proof.
  intros Hmx Hov. unfold round_exp in Hov.
  pose proof (Zdigits2_bounds mx Hmx) as [Hlb _].
  assert (Hd : 0 < Zdigits2 mx) by (destruct mx; simpl; lia).
  pose proof (bpow_gt_0 ex) as Hex.
  destruct (Z_le_gt_dec (emax - prec) ex) as [Hle|Hgt].
  - apply Rle_trans with (bpow ex); [apply bpow_le; exact Hle|].
    assert (1 <= IZR mx)%R by (apply IZR_le; lia). nra.
  - assert (Hf : emax <= Zdigits2 mx + ex).
    { unfold SpecFloat.fexp, SpecFloat.emin in Hov. lia. }
    apply Rle_trans with (bpow (Zdigits2 mx - 1 + ex)); [apply bpow_le; lia|].
    rewrite bpow_add, (bpow_IZR (Zdigits2 mx - 1)) by lia.
    apply Rmult_le_compat_r; [lra | apply IZR_le, Hlb].
Qed.

Lemma SFmul_small sx mx ex sy my ey :
  (mag mx ex * mag my ey < bpow (emax - prec))%R ->
  rounded (xorb sx sy) (mag mx ex * mag my ey)
          (SFmul prec emax (S754_finite sx mx ex) (S754_finite sy my ey)).
Proof.
  intros Hsmall.
  destruct (SFmul_finite sx mx ex sy my ey) as [[_ Hov] | Hok]; [|exact Hok].
  exfalso. apply overflow_large in Hov; [|lia].
  replace (IZR (Z.pos (mx * my)) * bpow (ex + ey))%R
    with (mag mx ex * mag my ey)%R in Hov; [lra|].
  unfold mag. rewrite Pos2Z.inj_mul, mult_IZR, bpow_add. ring.
Qed.

Lemma SFdiv_small sx mx ex sy my ey :
  Z.pos (digits2_pos mx) <= prec ->
  (mag mx ex / mag my ey < bpow (emax - prec))%R ->
  rounded (xorb sx sy) (mag mx ex / mag my ey)
          (SFdiv prec emax (S754_finite sx mx ex) (S754_finite sy my ey)).
Proof.
  intros Hd Hsmall.
  pose proof (SFdiv_finite sx mx ex sy my ey Hd) as Hdiv. cbv zeta in Hdiv.
  pose proof (SFdiv_core_binary_spec mx ex my ey Hd) as Hcore.
  destruct (SFdiv_core_binary prec emax (Z.pos mx) ex (Z.pos my) ey) as [[q e'] l].
  cbn [fst snd] in Hdiv. destruct Hcore as (Hq & Hle & Hfill).
  destruct Hdiv as [[_ Hov] | Hok]; [|exact Hok].
  exfalso. destruct (Z.eq_dec q 0) as [-> | Hnz].
  - unfold round_exp in Hov. simpl Zdigits2 in Hov.
    pose proof (Z.pow_pos_nonneg 2 (prec - 1) ltac:(lia) ltac:(lia)).
    unfold SpecFloat.fexp, SpecFloat.emin in *. lia.
  - apply overflow_large in Hov; [lra | lia].
Qed.

End Round.

(** ** Rounding of signed values: conversions, sums and differences *)

Lemma iter_xO m d : Z.pos (Pos.iter xO m d) = Z.pos m * 2 ^ Z.pos d.
Proof.
  induction d as [|d IH] using Pos.peano_ind.
  - simpl. lia.
  - rewrite Pos.iter_succ, Pos2Z.inj_xO, IH, Pos2Z.inj_succ, Z.pow_succ_r by lia. ring.
Qed.

Lemma shl_align_spec mx ex ex' :
  snd (shl_align mx ex ex') = Z.min ex ex' /\
  Z.pos (fst (shl_align mx ex ex')) = Z.pos mx * 2 ^ (ex - Z.min ex ex').
Proof.
  unfold shl_align. destruct (ex' - ex) as [|d|d] eqn:E; cbn [fst snd].
  - replace (Z.min ex ex') with ex by lia. rewrite Z.sub_diag. simpl. lia.
  - replace (Z.min ex ex') with ex by lia. rewrite Z.sub_diag. simpl. lia.
  - replace (Z.min ex ex') with ex' by lia. split; [reflexivity|].
    rewrite iter_xO. f_equal. f_equal. lia.
Qed.

Lemma shl_align_value mx ex ex' :
  (IZR (Z.pos (fst (shl_align mx ex ex'))) * bpow (Z.min ex ex')
   = IZR (Z.pos mx) * bpow ex)%R.
Proof.
  destruct (shl_align_spec mx ex ex') as [_ ->].
  rewrite mult_IZR, <- bpow_IZR by lia.
  rewrite Rmult_assoc, <- bpow_add. f_equal. f_equal. lia.
Qed.

Lemma Zdigits2_shift m k :
  0 < m -> 0 <= k -> Zdigits2 (m * 2 ^ k) = Zdigits2 m + k.
Proof.
  intros Hm Hk. pose proof (Zdigits2_bounds m Hm) as [Hlb Hub].
  assert (Hd : 0 < Zdigits2 m) by (destruct m; simpl; lia).
  assert (Hp : 0 < 2 ^ k) by (apply Z.pow_pos_nonneg; lia).
  apply Zdigits2_unique; [nia|].
  replace (Zdigits2 m + k - 1) with (Zdigits2 m - 1 + k) by lia.
  rewrite !Z.pow_add_r by lia. split; nia.
Qed.

Lemma Rabs_sgn s v : (0 <= v)%R -> Rabs (sgn s * v) = v.
Proof.
  intros Hv. unfold sgn. destruct s.
  - replace (-1 * v)%R with (- v)%R by ring. rewrite Rabs_Ropp. now apply Rabs_pos_eq.
  - rewrite Rmult_1_l. now apply Rabs_pos_eq.
Qed.

Section RoundSigned.

Variables prec emax : Z.
Hypothesis Hprec : 0 < prec.
Hypothesis Hemax : 2 <= emax.

Local Abbreviation fexp := (SpecFloat.fexp prec emax).
Local Abbreviation emin := (SpecFloat.emin prec emax).
Local Abbreviation rounds := (rounds prec emax).
Local Abbreviation rounds_signed := (rounds_signed prec emax).

(** Absolute form of the error of one rounding: below [2^k] the step of
    the target format is [2^(fexp k)]. *)
Lemma round_error_abs m2 mx ex k :
  0 < mx ->
  round_mant prec emax mx ex <= m2 <= round_mant prec emax mx ex + 1 ->
  (round_exp prec emax mx ex = ex -> m2 = mx) ->
  (IZR mx * bpow ex < bpow k)%R ->
  (Rabs (IZR m2 * bpow (round_exp prec emax mx ex) - IZR mx * bpow ex)
   <= bpow (fexp k))%R.
Proof.
  intros Hmx Hm2 Hexact Hk.
  pose proof (round_mant_bracket prec emax mx ex ltac:(lia)) as [Hlo Hhi].
  pose proof (bpow_gt_0 (round_exp prec emax mx ex)) as Hu.
  pose proof (bpow_gt_0 (fexp k)) as Hf.
  destruct (Z.eq_dec (round_exp prec emax mx ex) ex) as [He|Hne].
  - rewrite (Hexact He), He. unfold Rminus. rewrite Rplus_opp_r, Rabs_R0. lra.
  - assert (Hle : round_exp prec emax mx ex <= fexp k).
    { pose proof (round_exp_le prec emax mx ex k Hmx Hk) as H1.
      unfold round_exp in *. lia. }
    apply bpow_le in Hle.
    destruct Hm2 as [H1 H2]. apply IZR_le in H1, H2. rewrite plus_IZR in H2.
    apply Rabs_le. split; nra.
Qed.

Theorem binary_round_rounds sx mx ex :
  rounds sx (mag mx ex) (binary_round prec emax sx mx ex).
Proof.
  unfold binary_round.
  set (f := fexp (Z.pos (digits2_pos mx) + ex)).
  destruct (shl_align_spec mx ex f) as [Hez Hmz].
  pose proof (shl_align_value mx ex f) as Hval.
  destruct (shl_align mx ex f) as [mz ez]. cbn [fst snd] in *. subst ez.
  set (ez := Z.min ex f) in *.
  assert (Hdig : Zdigits2 (Z.pos mz) + ez = Z.pos (digits2_pos mx) + ex).
  { rewrite Hmz, Zdigits2_shift by lia. simpl Zdigits2. lia. }
  assert (Hal : ez <= fexp (Zdigits2 (Z.pos mz) + ez)).
  { rewrite Hdig. fold f. unfold ez. lia. }
  destruct (binary_round_aux_correct prec emax Hprec sx (Z.pos mz) ez loc_Exact ltac:(lia))
    as (m2 & Hm2 & Hexact & Hres).
  fold (mag mz ez) in Hval. fold (mag mx ex) in Hval.
  assert (Hm1 : 0 <= round_mant prec emax (Z.pos mz) ez).
  { pose proof (round_mant_lt prec emax Hprec (Z.pos mz) ez ltac:(lia)). lia. }
  assert (Hv0 : (0 <= IZR m2 * bpow (round_exp prec emax (Z.pos mz) ez))%R).
  { apply Rmult_le_pos; [apply IZR_le; lia | left; apply bpow_gt_0]. }
  assert (Herr : forall k, (mag mx ex < bpow k)%R ->
            (Rabs (IZR m2 * bpow (round_exp prec emax (Z.pos mz) ez) - mag mx ex)
             <= bpow (fexp k))%R).
  { intros k Hk. rewrite <- Hval. unfold mag.
    apply round_error_abs; [lia | exact Hm2 | exact (Hexact eq_refl) |].
    fold (mag mz ez). rewrite Hval. exact Hk. }
  destruct Hres as [[-> Hov] | [[-> Hz] | (mr & er & -> & Hpos & Hv & Her & Hcan & _)]].
  - left. split; [reflexivity|].
    rewrite <- Hval. apply (overflow_large prec emax Hprec Hemax); [lia | exact Hov].
  - right. split; [now left|]. split; [reflexivity|].
    exists (IZR m2 * bpow (round_exp prec emax (Z.pos mz) ez))%R.
    split; [rewrite Hz; simpl; ring|]. split; [exact Hv0 | exact Herr].
  - right. split; [right; eauto|]. split.
    + cbn [valid_binary]. unfold SpecFloat.bounded. rewrite (Hcan Hal). simpl.
      apply Z.leb_le. exact Her.
    + exists (IZR m2 * bpow (round_exp prec emax (Z.pos mz) ez))%R.
      split; [rewrite B2R_finite; unfold mag; rewrite Hv; reflexivity|].
      split; [exact Hv0 | exact Herr].
Qed.

(** A datum that fits the target format converts without rounding. *)
Theorem binary_round_exact sx mx ex :
  Z.pos (digits2_pos mx) <= prec -> emin <= ex ->
  Z.pos (digits2_pos mx) + ex < emax ->
  exists mr er,
    binary_round prec emax sx mx ex = S754_finite sx mr er /\
    mag mr er = mag mx ex /\
    valid_binary prec emax (S754_finite sx mr er) = true.
Proof.
  intros Hd Hlo Hhi. unfold binary_round.
  set (f := fexp (Z.pos (digits2_pos mx) + ex)).
  assert (Hf : f <= ex) by (unfold f, SpecFloat.fexp; lia).
  destruct (shl_align_spec mx ex f) as [Hez Hmz].
  pose proof (shl_align_value mx ex f) as Hval.
  destruct (shl_align mx ex f) as [mz ez]. cbn [fst snd] in *. subst ez.
  replace (Z.min ex f) with f in * by lia.
  assert (Hdig : Zdigits2 (Z.pos mz) + f = Z.pos (digits2_pos mx) + ex).
  { rewrite Hmz, Zdigits2_shift by lia. simpl Zdigits2. lia. }
  assert (Hre : round_exp prec emax (Z.pos mz) f = f).
  { unfold round_exp. rewrite Hdig. fold f. lia. }
  destruct (binary_round_aux_correct prec emax Hprec sx (Z.pos mz) f loc_Exact ltac:(lia))
    as (m2 & Hm2 & Hexact & Hres).
  specialize (Hexact eq_refl Hre). subst m2. rewrite Hre in Hres.
  destruct Hres as [[_ Hov] | [[_ Hz] | (mr & er & -> & Hpos & Hv & Her & Hcan & _)]].
  - exfalso. unfold f, SpecFloat.fexp, SpecFloat.emin in Hov. lia.
  - discriminate Hz.
  - exists mr, er. split; [reflexivity|]. split.
    + unfold mag. rewrite Hv. exact Hval.
    + cbn [valid_binary]. unfold SpecFloat.bounded. rewrite Hcan.
      * simpl. apply Z.leb_le. exact Her.
      * rewrite Hdig. fold f. lia.
Qed.

Lemma rounds_rounds_signed s t r :
  (0 < t)%R -> rounds s t r -> rounds_signed (sgn s * t) r.
Proof.
  intros Ht0 [[-> Hov] | (Hshape & Hvalid & v & Hr & Hv0 & Herr)].
  - left. split; [reflexivity|]. rewrite Rabs_sgn by lra. exact Hov.
  - assert (Ht : (0 <= t)%R) by lra.
    right. split; [destruct Hshape as [-> | (mr & er & ->)]; reflexivity|].
    split; [exact Hvalid|].
    rewrite Hr. unfold sgn. destruct s.
    + split; [|split; intros; lra].
      intros k Hk.
      replace (-1 * v - -1 * t)%R with (- (v - t))%R by ring.
      rewrite Rabs_Ropp. apply Herr.
      replace (-1 * t)%R with (- t)%R in Hk by ring.
      rewrite Rabs_Ropp, Rabs_pos_eq in Hk by exact Ht. exact Hk.
    + split; [|split; intros; lra].
      intros k Hk. rewrite !Rmult_1_l in *. apply Herr.
      rewrite Rabs_pos_eq in Hk by exact Ht. exact Hk.
Qed.

Theorem binary_normalize_rounds z e :
  rounds_signed (IZR z * bpow e) (binary_normalize prec emax z e false).
Proof.
  destruct z as [|m|m]; cbn [binary_normalize].
  - right. split; [reflexivity|]. split; [reflexivity|].
    rewrite Rmult_0_l. cbn [B2R]. split; [|split; intros; lra].
    intros k _. unfold Rminus. rewrite Rplus_opp_r, Rabs_R0. left. apply bpow_gt_0.
  - pose proof (rounds_rounds_signed false (mag m e) _
                  (mag_pos m e) (binary_round_rounds false m e)) as H.
    unfold sgn in H. rewrite Rmult_1_l in H. exact H.
  - pose proof (rounds_rounds_signed true (mag m e) _
                  (mag_pos m e) (binary_round_rounds true m e)) as H.
    unfold sgn in H.
    replace (IZR (Z.neg m) * bpow e)%R with (-1 * mag m e)%R; [exact H|].
    unfold mag. change (Z.neg m) with (- Z.pos m). rewrite opp_IZR. ring.
Qed.

End RoundSigned.

(** ** binary32 data *)

Lemma prec32 : 0 < 24.
Proof. reflexivity. Qed.

Lemma emax32 : 2 <= 128.
Proof. discriminate. Qed.

Lemma finite32_numeric x : finite32 x -> numeric 24 128 x.
Proof.
  destruct x; intros [Hf Hv]; try discriminate; simpl; auto.
  unfold valid32 in Hv. simpl in Hv. unfold SpecFloat.bounded in Hv.
  apply andb_prop in Hv. tauto.
Qed.

Lemma nonneg32_numeric x : nonneg32 x -> numeric 24 128 x.
Proof.
  destruct x as [[|]| | |[|] m e]; simpl; try tauto.
  unfold SpecFloat.bounded. intros Hb. apply andb_prop in Hb. tauto.
Qed.

Lemma nonneg32_fabsf x : finite32 x -> nonneg32 (fabsf x).
Proof.
  destruct x as [[|]| | |[|] m e]; intros [Hf Hv]; try discriminate; simpl; auto.
Qed.

Lemma B2R_fabsf x : B2R (fabsf x) = Rabs (B2R x).
Proof.
  destruct x as [s|s| |s m e]; simpl; try (now rewrite Rabs_R0).
  pose proof (mag_pos m e) as Hm. unfold mag in Hm.
  destruct s.
  - replace (-1 * IZR (Z.pos m) * bpow e)%R with (- (IZR (Z.pos m) * bpow e))%R by ring.
    rewrite Rabs_Ropp, Rabs_pos_eq; lra.
  - rewrite Rabs_pos_eq; lra.
Qed.

Lemma nonneg32_range x : nonneg32 x -> (0 <= B2R x < bpow 128)%R.
Proof.
  pose proof (bpow_gt_0 128).
  destruct x as [[|]| | |[|] m e]; cbn [nonneg32 B2R]; try tauto; intros Hb;
    try lra.
  unfold SpecFloat.bounded in Hb. apply andb_prop in Hb. destruct Hb as [Hc He].
  apply Z.leb_le in He.
  pose proof (mag_pos m e) as Hm.
  pose proof (mag_lt_bpow 24 128 prec32 m e Hc) as Hlt.
  assert (bpow (24 + e) <= bpow 128)%R by (apply bpow_le; lia).
  unfold mag in *. split; lra.
Qed.

(** *** The peak is a sample magnitude that dominates all the others *)

Lemma peak_step_spec acc x :
  nonneg32 acc -> finite32 x ->
  let acc' := if fgt (fabsf x) acc then fabsf x else acc in
  nonneg32 acc' /\ (B2R acc <= B2R acc')%R /\ (Rabs (B2R x) <= B2R acc')%R.
Proof.
  intros Hacc Hx. cbv zeta.
  pose proof (nonneg32_fabsf x Hx) as Habs.
  pose proof (nonneg32_numeric _ Hacc) as Hn1.
  pose proof (nonneg32_numeric _ Habs) as Hn2.
  unfold fgt. destruct (SFltb acc (fabsf x)) eqn:E.
  - apply (SFltb_true 24 128 prec32) in E; auto.
    rewrite <- B2R_fabsf. split; [exact Habs|]. split; lra.
  - apply (SFltb_false 24 128 prec32) in E; auto.
    rewrite <- B2R_fabsf. split; [exact Hacc|]. split; lra.
Qed.

Lemma peak_fold_spec l : forall acc,
  nonneg32 acc -> Forall finite32 l ->
  let p := fold_left (fun max_val x => let abs_val := fabsf x in
                        if fgt abs_val max_val then abs_val else max_val) l acc in
  nonneg32 p /\ (B2R acc <= B2R p)%R /\
  Forall (fun x => (Rabs (B2R x) <= B2R p)%R) l.
Proof.
  induction l as [|x l IH]; intros acc Hacc Hl; cbv zeta; simpl.
  - split; [exact Hacc|]. split; [apply Rle_refl | constructor].
  - inversion Hl as [|? ? Hx Hl']; subst.
    destruct (peak_step_spec acc x Hacc Hx) as (Hn & Hle & Hxle).
    cbv zeta in Hn, Hle, Hxle.
    destruct (IH _ Hn Hl') as (Hp & Hmono & Hall). cbv zeta in Hp, Hmono, Hall.
    split; [exact Hp|]. split; [exact (Rle_trans _ _ _ Hle Hmono)|].
    constructor; [exact (Rle_trans _ _ _ Hxle Hmono) | exact Hall].
Qed.

Lemma peak_spec l :
  Forall finite32 l ->
  nonneg32 (peak l) /\ Forall (fun x => (Rabs (B2R x) <= B2R (peak l))%R) l.
Proof.
  intros Hl. destruct (peak_fold_spec l f0 I Hl) as (Hp & _ & Hall).
  split; assumption.
Qed.

(** *** Scaling by [0.9f / peak] *)

Lemma bpow_neg k : 0 <= k -> bpow (- k) = (/ IZR (2 ^ k))%R.
Proof.
  intros Hk. rewrite <- (bpow_IZR k Hk).
  pose proof (bpow_gt_0 k) as Hpos.
  apply Rmult_eq_reg_r with (bpow k); [|lra].
  rewrite <- bpow_add. replace (- k + k) with 0 by lia.
  rewrite Rinv_l by lra. reflexivity.
Qed.

Lemma rounded_abs s t r :
  rounded 24 128 s t r ->
  (Rabs (B2R r) <= t + (bpow (-23) * t + bpow (-149)))%R.
Proof.
  intros (_ & v & Hr & Hv0 & Hv). rewrite Hr, Rabs_sgn by exact Hv0. exact Hv.
Qed.

Lemma rounded_finite s t r : rounded 24 128 s t r -> is_finite r = true.
Proof. intros ([-> | (mr & er & ->)] & _); reflexivity. Qed.

Lemma mag_abs s m e : mag m e = Rabs (B2R (S754_finite s m e)).
Proof.
  rewrite B2R_finite, Rabs_sgn; [reflexivity|].
  left. apply mag_pos.
Qed.

(** The product of a sample with the normalisation factor stays at 0.9
    up to the three roundings involved. *)
Lemma scale_bounded p x :
  nonneg32 p -> fgt p f0_001 = true ->
  finite32 x -> (Rabs (B2R x) <= B2R p)%R ->
  is_finite (fmul x (fdiv f0_9 p)) = true /\
  (Rabs (B2R (fmul x (fdiv f0_9 p))) <= 9 / 10 + bpow (-20))%R.
Proof.
  intros Hp Hgt Hx Hle.
  pose proof (bpow_gt_0 (-20)) as H20.
  assert (Hlow : (B2R f0_001 < B2R p)%R).
  { apply (SFltb_true 24 128 prec32); [reflexivity | now apply nonneg32_numeric | exact Hgt]. }
  pose proof (nonneg32_range p Hp) as [_ Hhi].
  destruct p as [[|]| | |[|] mp ep]; try contradiction; try discriminate.
  rewrite B2R_finite in Hlow, Hhi, Hle. unfold sgn in Hlow, Hhi, Hle.
  rewrite Rmult_1_l in Hlow, Hhi, Hle.
  set (P := mag mp ep) in *.
  assert (Hlow' : (/ 1024 < P)%R).
  { apply Rle_lt_trans with (2 := Hlow). unfold f0_001. rewrite B2R_finite.
    unfold sgn, mag. rewrite Rmult_1_l.
    change (-33) with (- (33)). rewrite bpow_neg by lia.
    change (2 ^ 33) with 8589934592. lra. }
  assert (HP : (0 < P)%R) by lra.
  set (c := mag 15099494 (-24)).
  assert (Hc : c = (15099494 / 16777216)%R).
  { unfold c, mag. change (-24) with (- (24)). rewrite bpow_neg by lia.
    change (2 ^ 24) with 16777216. lra. }
  assert (Hu : bpow (-23) = (/ 8388608)%R).
  { change (-23) with (- (23)). rewrite bpow_neg by lia. reflexivity. }
  assert (H104 : (1024 <= bpow (128 - 24))%R).
  { change 1024%R with (IZR (2 ^ 10)). rewrite <- bpow_IZR by lia. apply bpow_le. lia. }
  assert (Heta : (bpow 128 * bpow (-149) = bpow (-21))%R).
  { rewrite <- bpow_add. reflexivity. }
  assert (H21 : (bpow (-21) = / 2097152)%R).
  { change (-21) with (- (21)). rewrite bpow_neg by lia. reflexivity. }
  assert (H20' : (bpow (-20) = / 1048576)%R).
  { change (-20) with (- (20)). rewrite bpow_neg by lia. reflexivity. }
  pose proof (bpow_gt_0 (-149)) as Heta0.
  pose proof (bpow_gt_0 128) as H128.
  assert (Heta1 : (bpow (-149) <= bpow (-21))%R) by (apply bpow_le; lia).
  (* the factor *)
  assert (Hq : (c / P < 1024)%R).
  { apply Rmult_lt_reg_r with P; [exact HP|].
    unfold Rdiv. rewrite Rmult_assoc, Rinv_l by lra. nra. }
  assert (Hq0 : (0 <= c / P)%R).
  { apply Rdiv_pos; lra. }
  pose proof (SFdiv_small 24 128 prec32 emax32 false 15099494 (-24) false mp ep
                ltac:(vm_compute; discriminate) ltac:(fold c P; lra)) as Hnf.
  fold c P in Hnf. cbn [xorb] in Hnf.
  change (SFdiv 24 128 (S754_finite false 15099494 (-24)) (S754_finite false mp ep))
    with (fdiv f0_9 (S754_finite false mp ep)) in Hnf.
  set (nf := fdiv f0_9 (S754_finite false mp ep)) in *.
  pose proof (rounded_abs _ _ _ Hnf) as Hnfv.
  destruct Hnf as (Hshape & _).
  assert (Hpn : (P * Rabs (B2R nf) <= c + bpow (-23) * c + bpow (-21))%R).
  { apply Rle_trans with (P * (c / P + (bpow (-23) * (c / P) + bpow (-149))))%R.
    - apply Rmult_le_compat_l; lra.
    - replace (P * (c / P + (bpow (-23) * (c / P) + bpow (-149))))%R
        with (c + bpow (-23) * c + P * bpow (-149))%R by (field; lra).
      assert (P * bpow (-149) <= bpow 128 * bpow (-149))%R
        by (apply Rmult_le_compat_r; lra).
      lra. }
  destruct x as [sx|sx| |sx mx ex]; destruct Hx as [Hf Hv]; try discriminate.
  - (* a zero sample *)
    destruct Hshape as [-> | (mr & er & ->)]; unfold fmul; cbn [SFmul B2R];
      (split; [reflexivity|]); rewrite Rabs_R0; lra.
  - destruct Hshape as [Hz | (mr & er & Hfin)].
    + rewrite Hz. unfold fmul. cbn [SFmul B2R]. split; [reflexivity|].
      rewrite Rabs_R0. lra.
    + rewrite Hfin in *.
      rewrite <- (mag_abs sx mx ex) in Hle.
      rewrite <- (mag_abs false mr er) in Hpn, Hnfv.
      pose proof (mag_pos mx ex) as Hmx. pose proof (mag_pos mr er) as Hmr.
      assert (Ht : (mag mx ex * mag mr er <= c + bpow (-23) * c + bpow (-21))%R).
      { apply Rle_trans with (2 := Hpn). apply Rmult_le_compat_r; lra. }
      assert (Hsmall : (mag mx ex * mag mr er < bpow (128 - 24))%R).
      { rewrite Hu, H21, Hc in Ht. lra. }
      pose proof (SFmul_small 24 128 prec32 emax32 sx mx ex false mr er Hsmall) as Hres.
      split; [exact (rounded_finite _ _ _ Hres)|].
      apply rounded_abs in Hres.
      unfold fmul. apply Rle_trans with (1 := Hres).
      assert (0 <= mag mx ex * mag mr er)%R by nra.
      rewrite Hu, H20' in *. rewrite H21, Hc in Ht.
      set (t := (mag mx ex * mag mr er)%R) in *.
      assert (bpow (-149) <= / 1073741824)%R.
      { apply Rle_trans with (bpow (-30)); [apply bpow_le; lia|].
        change (-30) with (- (30)). rewrite bpow_neg by lia.
        change (2 ^ 30) with 1073741824. lra. }
      lra.
Qed.

(** *** Normalisation of a finite signal *)

Theorem normalize_finite pre :
  Forall finite32 pre ->
  (fgt (peak pre) f0_001 = true /\
   normalize pre = map (fun x => fmul x (fdiv f0_9 (peak pre))) pre /\
   Forall (fun y => is_finite y = true /\
                    (Rabs (B2R y) <= 9 / 10 + bpow (-20))%R) (normalize pre)) \/
  (fgt (peak pre) f0_001 = false /\
   normalize pre = pre /\
   Forall (fun y => is_finite y = true /\
                    (Rabs (B2R y) <= B2R f0_001)%R) (normalize pre)).
Proof.
  intros Hpre. destruct (peak_spec pre Hpre) as (Hp & Hall).
  unfold normalize. destruct (fgt (peak pre) f0_001) eqn:E; [left | right];
    (split; [reflexivity|]); (split; [reflexivity|]).
  - apply Forall_map. rewrite Forall_forall in *. intros x Hx.
    apply scale_bounded; auto.
  - rewrite Forall_forall in *. intros x Hx.
    split; [apply (Hpre x Hx)|].
    apply Rle_trans with (1 := Hall x Hx).
    apply (SFltb_false 24 128 prec32); [reflexivity | now apply nonneg32_numeric | exact E].
Qed.

Lemma unit_bounds :
  (9 / 10 + bpow (-20) <= 1)%R /\ (B2R f0_001 <= 1)%R.
Proof.
  split.
  - change (-20) with (- (20)). rewrite bpow_neg by lia.
    change (2 ^ 20) with 1048576. lra.
  - unfold f0_001. rewrite B2R_finite. unfold sgn, mag.
    change (-33) with (- (33)). rewrite bpow_neg by lia.
    change (2 ^ 33) with 8589934592. lra.
Qed.

Section Sums.

Variables prec emax : Z.
Hypothesis Hprec : 0 < prec.
Hypothesis Hemax : 2 <= emax.

Lemma cond_Zopp_value s mx ex ez :
  ez <= ex ->
  (IZR (cond_Zopp s (Z.pos (fst (shl_align mx ex ez)))) * bpow ez
   = B2R (S754_finite s mx ex))%R.
Proof.
  intros Hez. pose proof (shl_align_value mx ex ez) as Hv.
  replace (Z.min ex ez) with ez in Hv by lia.
  rewrite B2R_finite. unfold mag, sgn. rewrite <- Hv.
  destruct s; cbn [cond_Zopp]; [rewrite opp_IZR|]; ring.
Qed.

Theorem SFsub_rounds sx mx ex sy my ey :
  rounds_signed prec emax
    (B2R (S754_finite sx mx ex) - B2R (S754_finite sy my ey))
    (SFsub prec emax (S754_finite sx mx ex) (S754_finite sy my ey)).
Proof.
  cbn [SFsub]. cbv zeta.
  rewrite <- (cond_Zopp_value sx mx ex (Z.min ex ey)) by lia.
  rewrite <- (cond_Zopp_value sy my ey (Z.min ex ey)) by lia.
  rewrite <- Rmult_minus_distr_r, <- minus_IZR.
  apply binary_normalize_rounds; assumption.
Qed.

Theorem SFadd_rounds sx mx ex sy my ey :
  rounds_signed prec emax
    (B2R (S754_finite sx mx ex) + B2R (S754_finite sy my ey))
    (SFadd prec emax (S754_finite sx mx ex) (S754_finite sy my ey)).
Proof.
  cbn [SFadd]. cbv zeta.
  rewrite <- (cond_Zopp_value sx mx ex (Z.min ex ey)) by lia.
  rewrite <- (cond_Zopp_value sy my ey (Z.min ex ey)) by lia.
  rewrite <- Rmult_plus_distr_r, <- plus_IZR.
  apply binary_normalize_rounds; assumption.
Qed.

End Sums.

(** ** Conversions between binary32 and binary64 *)

Lemma prec64 : 0 < 53.
Proof. reflexivity. Qed.

Lemma emax64 : 2 <= 1024.
Proof. discriminate. Qed.

Lemma finite64_numeric d : finite64 d -> numeric 53 1024 d.
Proof.
  destruct d; intros [Hf Hv]; try discriminate; simpl; auto.
  simpl in Hv. unfold SpecFloat.bounded in Hv. apply andb_prop in Hv. tauto.
Qed.

(** [(double)x] is exact. *)
Lemma double_of_float_exact x :
  finite32 x ->
  finite64 (double_of_float x) /\ B2R (double_of_float x) = B2R x /\
  (forall s m e, x = S754_finite s m e ->
     exists m' e', double_of_float x = S754_finite s m' e').
Proof.
  intros [Hf Hv]. destruct x as [s|s| |s m e]; try discriminate.
  - split; [split; reflexivity|]. split; [reflexivity|]. intros; discriminate.
  - unfold valid32 in Hv. cbn [valid_binary] in Hv. unfold SpecFloat.bounded in Hv.
    apply andb_prop in Hv. destruct Hv as [Hc He]. apply Z.leb_le in He.
    destruct (canonical_digits 24 128 m e Hc) as (Hd & Hmin & _).
    unfold emin in Hmin.
    destruct (binary_round_exact 53 1024 prec64 emax64 s m e) as (mr & er & Hr & Hm & Hval);
      [lia | unfold emin; lia | lia |].
    cbn [double_of_float]. rewrite Hr.
    split; [split; [reflexivity | exact Hval]|].
    split; [rewrite !B2R_finite, Hm; reflexivity|].
    intros s' m' e' [= <- _ _]. eauto.
Qed.

(** [(float)d] rounds. *)
Lemma float_of_double_rounds (d : double) (k : Z) :
  finite64 d -> -125 <= k <= 104 -> (Rabs (B2R d) < bpow k)%R ->
  finite32 (float_of_double d) /\
  (Rabs (B2R (float_of_double d) - B2R d) <= bpow (k - 24))%R /\
  ((0 <= B2R d)%R -> (0 <= B2R (float_of_double d))%R) /\
  ((B2R d <= 0)%R -> (B2R (float_of_double d) <= 0)%R).
Proof.
  intros [Hf Hv] Hk Hlt. pose proof (bpow_gt_0 (k - 24)) as Hpos.
  destruct d as [s|s| |s m e]; try discriminate.
  - cbn [float_of_double B2R]. split; [split; reflexivity|].
    unfold Rminus. rewrite Rplus_opp_r, Rabs_R0. split; [lra|]. split; intros; lra.
  - cbn [float_of_double].
    pose proof (mag_pos m e) as Hm.
    rewrite B2R_finite in *. rewrite Rabs_sgn in Hlt by lra.
    destruct (binary_round_rounds 24 128 prec32 emax32 s m e)
      as [[_ Hov] | (Hshape & Hvalid & v & Hr & Hv0 & Herr)].
    + exfalso. assert (bpow k <= bpow (128 - 24))%R by (apply bpow_le; lia). lra.
    + split; [split; [destruct Hshape as [-> | (mr & er & ->)]; reflexivity | exact Hvalid]|].
      rewrite Hr. specialize (Herr k Hlt).
      replace (fexp 24 128 k) with (k - 24) in Herr by (unfold fexp, emin; lia).
      split.
      * replace (sgn s * v - sgn s * mag m e)%R with (sgn s * (v - mag m e))%R by ring.
        unfold sgn. destruct s.
        -- replace (-1 * (v - mag m e))%R with (- (v - mag m e))%R by ring.
           now rewrite Rabs_Ropp.
        -- now rewrite Rmult_1_l.
      * unfold sgn. destruct s; split; intros; nra.
Qed.

(** * WAV codecs: what is written is what is read *)

Lemma byte_of_low_bits x y k :
  0 <= k -> k + 8 <= 32 -> x mod 2 ^ 32 = y mod 2 ^ 32 ->
  Z.land (Z.shiftr x k) 255 = Z.land (Z.shiftr y k) 255.
Proof.
  intros Hk Hk' Hxy. apply Z.bits_inj'. intros n Hn.
  rewrite !Z.land_spec, !Z.shiftr_spec by lia.
  change 255 with (Z.ones 8). rewrite Z.testbit_ones by lia.
  destruct (Z.ltb_spec n 8) as [Hlt|Hge].
  - replace (0 <=? n) with true by (symmetry; apply Z.leb_le; lia). simpl.
    rewrite !andb_true_r.
    rewrite <- (Z.mod_pow2_bits_low x 32 (n + k)) by lia.
    rewrite <- (Z.mod_pow2_bits_low y 32 (n + k)) by lia.
    now rewrite Hxy.
  - now rewrite !andb_false_r.
Qed.

Lemma le32_congr x y : x mod 2 ^ 32 = y mod 2 ^ 32 -> le32 x = le32 y.
Proof.
  intros Hxy. unfold le32.
  rewrite <- (Z.shiftr_0_r x), <- (Z.shiftr_0_r y) at 1.
  rewrite (byte_of_low_bits x y 0), (byte_of_low_bits x y 8),
    (byte_of_low_bits x y 16), (byte_of_low_bits x y 24) by (assumption || lia).
  reflexivity.
Qed.

Lemma length_le16 v : List.length (le16 v) = 2%nat.
Proof. reflexivity. Qed.

Lemma length_le32 v : List.length (le32 v) = 4%nat.
Proof. reflexivity. Qed.

Lemma length_flat_map_const {A B} (f : A -> list B) (l : list A) k :
  (forall a, List.length (f a) = k) ->
  List.length (flat_map f l) = (k * List.length l)%nat.
Proof.
  intros Hf. induction l as [|a l IH]; simpl; [lia|].
  rewrite length_app, Hf, IH. lia.
Qed.

(** ** Little-endian images read back *)

Lemma testbit_byte v k n :
  0 <= k -> 0 <= n ->
  Z.testbit (Z.shiftl (Z.land (Z.shiftr v k) 255) k) n =
  Z.testbit v n && (k <=? n) && (n <? k + 8).
Proof.
  intros Hk Hn.
  destruct (Z.leb_spec k n) as [Hle|Hlt].
  - rewrite Z.shiftl_spec by lia. rewrite Z.land_spec, Z.shiftr_spec by lia.
    change 255 with (Z.ones 8). rewrite Z.testbit_ones by lia.
    replace (n - k + k) with n by lia.
    replace (0 <=? n - k) with true by (symmetry; apply Z.leb_le; lia).
    replace (n - k <? 8) with (n <? k + 8)
      by (destruct (Z.ltb_spec n (k + 8)), (Z.ltb_spec (n - k) 8); lia || reflexivity).
    now rewrite andb_true_r.
  - rewrite Z.shiftl_spec_low by lia. now rewrite andb_false_r.
Qed.

Lemma lor_le32 v :
  Z.lor (Z.lor (Z.land v 255) (Z.shiftl (Z.land (Z.shiftr v 8) 255) 8))
        (Z.lor (Z.shiftl (Z.land (Z.shiftr v 16) 255) 16)
               (Z.shiftl (Z.land (Z.shiftr v 24) 255) 24))
  = v mod 2 ^ 32.
Proof.
  apply Z.bits_inj'. intros n Hn.
  rewrite <- (Z.shiftr_0_r v) at 1.
  rewrite <- (Z.shiftl_0_r (Z.land (Z.shiftr v 0) 255)).
  rewrite !Z.lor_spec, !testbit_byte by lia.
  rewrite Z.testbit_mod_pow2 by lia.
  destruct (Z.testbit v n); simpl; [|now rewrite andb_false_r].
  rewrite andb_true_r.
  destruct (Z.ltb_spec n 8), (Z.leb_spec 8 n), (Z.ltb_spec n 16), (Z.leb_spec 16 n),
    (Z.ltb_spec n 24), (Z.leb_spec 24 n), (Z.ltb_spec n 32), (Z.leb_spec 0 n);
    simpl; try reflexivity; lia.
Qed.

Lemma get32_le32 (pre post : list byte) v :
  get32 (pre ++ le32 v ++ post) (Z.of_nat (List.length pre)) = v mod 2 ^ 32.
Proof.
  unfold get32, get8.
  replace (Z.to_nat (Z.of_nat (List.length pre))) with (List.length pre + 0)%nat by lia.
  replace (Z.to_nat (Z.of_nat (List.length pre) + 1)) with (List.length pre + 1)%nat by lia.
  replace (Z.to_nat (Z.of_nat (List.length pre) + 2)) with (List.length pre + 2)%nat by lia.
  replace (Z.to_nat (Z.of_nat (List.length pre) + 3)) with (List.length pre + 3)%nat by lia.
  rewrite !app_nth2_plus. cbn [le32 app nth].
  apply lor_le32.
Qed.

(** ** The memory image of a binary32 datum read back *)

Lemma valid32_shape s m e :
  valid32 (S754_finite s m e) = true ->
  (Z.pos m < 2 ^ 23 /\ e = -149) \/
  (2 ^ 23 <= Z.pos m < 2 ^ 24 /\ -149 <= e <= 104).
Proof.
  unfold valid32. cbn [valid_binary]. unfold bounded, canonical_mantissa.
  intros Hb. apply andb_prop in Hb. destruct Hb as [Hc He].
  apply Z.eqb_eq in Hc. apply Z.leb_le in He.
  unfold fexp, emin in Hc.
  assert (Hd : Z.pos (digits2_pos m) <= 24) by lia.
  destruct (Z_lt_ge_dec (Z.pos m) (2 ^ 23)) as [Hlt|Hge].
  - left. split; [exact Hlt|].
    assert (Z.pos (digits2_pos m) <= 23); [|lia].
    destruct (Z_le_gt_dec (Z.pos (digits2_pos m)) 23) as [Hok|Hbad]; [exact Hok|].
    exfalso.
    assert (Hlb : 2 ^ (Z.pos (digits2_pos m) - 1) <= Z.pos m).
    { clear. induction m as [m IH|m IH|]; cbn [digits2_pos].
      - rewrite Pos2Z.inj_succ.
        replace (Z.succ (Z.pos (digits2_pos m)) - 1) with (Z.succ (Z.pos (digits2_pos m) - 1)) by lia.
        rewrite Z.pow_succ_r by lia. lia.
      - rewrite Pos2Z.inj_succ.
        replace (Z.succ (Z.pos (digits2_pos m)) - 1) with (Z.succ (Z.pos (digits2_pos m) - 1)) by lia.
        rewrite Z.pow_succ_r by lia. lia.
      - simpl. lia. }
    pose proof (Z.pow_le_mono_r 2 23 (Z.pos (digits2_pos m) - 1) ltac:(lia) ltac:(lia)).
    lia.
  - right.
    assert (Hub : Z.pos m < 2 ^ Z.pos (digits2_pos m)).
    { clear. induction m as [m IH|m IH|]; cbn [digits2_pos].
      - rewrite Pos2Z.inj_succ, Z.pow_succ_r by lia. lia.
      - rewrite Pos2Z.inj_succ, Z.pow_succ_r by lia. lia.
      - simpl. lia. }
    pose proof (Z.pow_le_mono_r 2 (Z.pos (digits2_pos m)) 24 ltac:(lia) Hd).
    split; [lia|]. lia.
Qed.

Lemma float_of_bits_of_float x :
  valid32 x = true -> float_of_bits (bits_of_float x mod 2 ^ 32) = x.
Proof.
  intros Hv. destruct x as [s|s| |s m e].
  - destruct s; reflexivity.
  - destruct s; reflexivity.
  - reflexivity.
  - destruct (valid32_shape s m e Hv) as [[Hm He] | [Hm He]]; unfold bits_of_float.
    + subst e. replace (Z.pos m <? 2 ^ 23) with true by (symmetry; apply Z.ltb_lt; exact Hm).
      set (b := (if s then 2 ^ 31 else 0) + Z.pos m).
      assert (Hb : 0 <= b < 2 ^ 32) by (subst b; destruct s; lia).
      rewrite Z.mod_small by exact Hb.
      unfold float_of_bits.
      assert (Hs : Z.testbit b 31 = s).
      { apply Z.b2z_inj. rewrite Z.testbit_spec' by lia.
        subst b. destruct s; simpl Z.b2z.
        - change (2 ^ 31) with 2147483648 in *. change (2 ^ 23) with 8388608 in *.
          Z.div_mod_to_equations. lia.
        - change (2 ^ 31) with 2147483648 in *. change (2 ^ 23) with 8388608 in *.
          Z.div_mod_to_equations. lia. }
      assert (HE : (b / 2 ^ 23) mod 2 ^ 8 = 0).
      { subst b. change (2 ^ 31) with 2147483648 in *. change (2 ^ 23) with 8388608 in *.
        change (2 ^ 8) with 256. destruct s; Z.div_mod_to_equations; lia. }
      assert (Hf : b mod 2 ^ 23 = Z.pos m).
      { subst b. change (2 ^ 31) with 2147483648 in *. change (2 ^ 23) with 8388608 in *.
        destruct s; Z.div_mod_to_equations; lia. }
      rewrite Hs, HE, Hf. reflexivity.
    + replace (Z.pos m <? 2 ^ 23) with false by (symmetry; apply Z.ltb_ge; lia).
      set (b := (if s then 2 ^ 31 else 0) + ((e + 150) * 2 ^ 23 + (Z.pos m - 2 ^ 23))).
      assert (Hb : 0 <= b < 2 ^ 32).
      { subst b. change (2 ^ 31) with 2147483648 in *. change (2 ^ 23) with 8388608 in *.
        change (2 ^ 24) with 16777216 in *. change (2 ^ 32) with 4294967296.
        destruct s; lia. }
      rewrite Z.mod_small by exact Hb.
      unfold float_of_bits.
      assert (Hs : Z.testbit b 31 = s).
      { apply Z.b2z_inj. rewrite Z.testbit_spec' by lia.
        subst b. change (2 ^ 31) with 2147483648 in *. change (2 ^ 23) with 8388608 in *.
        change (2 ^ 24) with 16777216 in *.
        destruct s; simpl Z.b2z; Z.div_mod_to_equations; lia. }
      assert (HE : (b / 2 ^ 23) mod 2 ^ 8 = e + 150).
      { subst b. change (2 ^ 31) with 2147483648 in *. change (2 ^ 23) with 8388608 in *.
        change (2 ^ 24) with 16777216 in *. change (2 ^ 8) with 256.
        destruct s; Z.div_mod_to_equations; lia. }
      assert (Hf : b mod 2 ^ 23 = Z.pos m - 2 ^ 23).
      { subst b. change (2 ^ 31) with 2147483648 in *. change (2 ^ 23) with 8388608 in *.
        change (2 ^ 24) with 16777216 in *.
        destruct s; Z.div_mod_to_equations; lia. }
      rewrite Hs, HE, Hf.
      replace (e + 150 =? 0) with false by (symmetry; apply Z.eqb_neq; lia).
      replace (e + 150 =? 255) with false by (symmetry; apply Z.eqb_neq; lia).
      replace (Z.pos m - 2 ^ 23 + 2 ^ 23) with (Z.pos m) by lia.
      replace (e + 150 - 150) with e by lia. reflexivity.
Qed.

Module WavFloatFacts.
Import WavFloat.

Lemma length_header audio : List.length (header audio) = 44%nat.
Proof. reflexivity. Qed.

Lemma nth_flat_map_le32 {A} (g : A -> Z) (d : A) (l : list A) : forall (i k : nat),
  (i < List.length l)%nat -> (k < 4)%nat ->
  nth (4 * i + k) (flat_map (fun a => le32 (g a)) l) 0 = nth k (le32 (g (nth i l d))) 0.
Proof.
  induction l as [|a l IH]; intros i k Hi Hk; [simpl in Hi; lia|].
  cbn [flat_map]. destruct i as [|i].
  - rewrite app_nth1 by (rewrite length_le32; lia). reflexivity.
  - replace (4 * S i + k)%nat with (List.length (le32 (g a)) + (4 * i + k))%nat
      by (rewrite length_le32; lia).
    rewrite app_nth2_plus. simpl in Hi. rewrite IH by lia. reflexivity.
Qed.

Lemma nth_range n i : (i < Z.to_nat n)%nat -> nth i (range n) 0 = Z.of_nat i.
Proof.
  intros Hi. unfold range.
  rewrite (nth_indep _ 0 (Z.of_nat 0)) by (now rewrite length_map, length_seq).
  rewrite map_nth, seq_nth by exact Hi. reflexivity.
Qed.

Lemma get32_payload audio i :
  0 <= i < audio.(length) ->
  get32 (write_wav_file audio) (44 + 4 * i) =
  bits_of_float (rd audio.(data) i) mod 2 ^ 32.
Proof.
  intros Hi. unfold write_wav_file, get32, get8, payload.
  replace (Z.to_nat (44 + 4 * i)) with (List.length (header audio) + (4 * Z.to_nat i + 0))%nat
    by (rewrite length_header; lia).
  replace (Z.to_nat (44 + 4 * i + 1)) with (List.length (header audio) + (4 * Z.to_nat i + 1))%nat
    by (rewrite length_header; lia).
  replace (Z.to_nat (44 + 4 * i + 2)) with (List.length (header audio) + (4 * Z.to_nat i + 2))%nat
    by (rewrite length_header; lia).
  replace (Z.to_nat (44 + 4 * i + 3)) with (List.length (header audio) + (4 * Z.to_nat i + 3))%nat
    by (rewrite length_header; lia).
  rewrite !app_nth2_plus.
  rewrite !(nth_flat_map_le32 (fun i => bits_of_float (rd (data audio) i)) 0)
    by (rewrite ?length_range; lia).
  rewrite nth_range by lia. rewrite Z2Nat.id by lia.
  cbn [le32 nth]. apply lor_le32.
Qed.

Lemma map_rd_range (l : list float) :
  map (rd l) (range (Z.of_nat (List.length l))) = l.
Proof.
  apply nth_ext with (d := f0) (d' := f0).
  - now rewrite length_map, length_range, Nat2Z.id.
  - intros n Hn. rewrite length_map, length_range, Nat2Z.id in Hn.
    rewrite (nth_indep _ f0 (rd l 0)) by (now rewrite length_map, length_range, Nat2Z.id).
    rewrite map_nth, nth_range by lia.
    unfold rd. replace (Z.of_nat n <? 0) with false by (symmetry; apply Z.ltb_ge; lia).
    now rewrite Nat2Z.id.
Qed.

Lemma header_fields audio :
  let f := write_wav_file audio in
  bytes_eqb (slice f 0 4) tag_RIFF = true /\
  bytes_eqb (slice f 8 4) tag_WAVE = true /\
  get32 f 16 = 16 /\ get16 f 20 = 3 /\ get16 f 22 = 1 /\ get16 f 34 = 32 /\
  get32 f 24 = audio.(sample_rate) mod 2 ^ 32 /\
  bytes_eqb (slice f 36 4) tag_data = true /\
  get32 f 40 = data_size audio mod 2 ^ 32.
Proof.
  cbv zeta. repeat split; try reflexivity.
  - rewrite <- lor_le32. reflexivity.
  - rewrite <- lor_le32. reflexivity.
Qed.

Lemma find_data_written audio :
  find_data (S (List.length (write_wav_file audio))) (write_wav_file audio) 36 =
  Some (44, data_size audio mod 2 ^ 32).
Proof.
  destruct (header_fields audio) as (_ & _ & _ & _ & _ & _ & _ & Hd & Hsz).
  cbv zeta in Hd, Hsz. cbn [find_data].
  replace (36 + 4 >? Z.of_nat (List.length (write_wav_file audio))) with false.
  - rewrite Hd. change (36 + 4) with 40. rewrite Hsz. reflexivity.
  - symmetry. rewrite Z.gtb_ltb. apply Z.ltb_ge.
    unfold write_wav_file. rewrite length_app, length_header. lia.
Qed.

(** A float WAV file written from a buffer reads back as that buffer. *)
Theorem float_wav_round_trip audio :
  wf_buffer audio ->
  audio.(length) < 2 ^ 30 ->
  - 2 ^ 31 <= audio.(sample_rate) < 2 ^ 31 ->
  Forall (fun x => valid32 x = true) audio.(data) ->
  read_wav_file (write_wav_file audio) = Some audio.
Proof.
  intros Hwf Hlen Hrate Hvalid. unfold wf_buffer in Hwf.
  assert (Hlen0 : 0 <= audio.(length)) by (rewrite Hwf; lia).
  destruct (header_fields audio) as (H1 & H2 & H3 & H4 & H5 & H6 & H7 & _ & _).
  cbv zeta in H1, H2, H3, H4, H5, H6, H7.
  unfold read_wav_file.
  rewrite H1, H2, H3, H4, H5, H6, H7, find_data_written.
  change (negb (true && true)) with false. cbv iota.
  change (16 >? 16) with false. cbv iota. cbv zeta. cbv beta iota.
  change (s16 32) with 32. change (s16 1) with 1. change (s16 3) with 3.
  change (Z.quot 32 8) with 4.
  change ((4 =? 0) || (1 =? 0)) with false. cbv iota.
  change ((3 =? 1) && (32 =? 16)) with false. cbv iota.
  change ((3 =? 3) && (32 =? 32)) with true. cbv iota.
  change (1 =? 2) with false.
  assert (Hn : s32 (u32 (u32 (data_size audio mod 2 ^ 32) / u32 4) / u32 1)
               = audio.(length)).
  { unfold data_size, s32, u32.
    change (2 ^ 32) with 4294967296. change (2 ^ 31) with 2147483648.
    change (2 ^ 30) with 1073741824 in Hlen.
    change (4 mod 4294967296) with 4. change (1 mod 4294967296) with 1.
    Z.div_mod_to_equations. lia. }
  rewrite Hn.
  assert (Hr : s32 (audio.(sample_rate) mod 2 ^ 32) = audio.(sample_rate)).
  { unfold s32. change (2 ^ 32) with 4294967296. change (2 ^ 31) with 2147483648 in *.
    Z.div_mod_to_equations. lia. }
  rewrite Hr.
  assert (Hdata : map (fun i => float_of_bits (get32 (write_wav_file audio) (44 + 4 * i)))
                      (range audio.(length)) = audio.(data)).
  { transitivity (map (rd audio.(data)) (range audio.(length)));
      [|rewrite Hwf; apply map_rd_range].
    apply map_ext_in. intros i Hi. apply in_range in Hi.
    rewrite get32_payload by exact Hi.
    apply float_of_bits_of_float.
    rewrite Forall_forall in Hvalid. apply Hvalid.
    unfold rd. replace (i <? 0) with false by (symmetry; apply Z.ltb_ge; lia).
    apply nth_In. rewrite Hwf in Hi. lia. }
  rewrite Hdata. destruct audio; reflexivity.
Qed.

End WavFloatFacts.

Module PcmFacts.
Import Tuner.

(** ** 16-bit PCM: what the float-to-int16-to-float conversions do *)

Lemma SFleb_not_gt x y : SFleb x y = true -> SFltb y x = false.
Proof.
  unfold SFleb, SFltb. destruct (SFcompare x y) as [c|] eqn:E; [|discriminate].
  rewrite (SFcompare_antisym _ _ _ E). destruct c; simpl; congruence.
Qed.

(** Order of two finite data of the same sign, read off [SFcompare]. *)
Lemma SFleb_pos_inv mx ex my ey :
  SFleb (S754_finite false mx ex) (S754_finite false my ey) = true ->
  ex < ey \/ (ex = ey /\ Z.pos mx <= Z.pos my).
Proof.
  unfold SFleb. cbn [SFcompare].
  destruct (Z.compare_spec ex ey) as [Heq|Hlt|Hgt]; intros H.
  - right. split; [exact Heq|].
    apply Pos2Z.pos_le_pos. intros Hgt. unfold Pos.compare in Hgt.
    rewrite Hgt in H. discriminate H.
  - left. exact Hlt.
  - discriminate H.
Qed.

Lemma SFleb_neg_inv mx ex my ey :
  SFleb (S754_finite true my ey) (S754_finite true mx ex) = true ->
  ex < ey \/ (ex = ey /\ Z.pos mx <= Z.pos my).
Proof.
  unfold SFleb. cbn [SFcompare].
  destruct (Z.compare_spec ey ex) as [Heq|Hlt|Hgt]; intros H.
  - right. split; [now symmetry|].
    apply Pos2Z.pos_le_pos. intros Hgt.
    rewrite Pos.compare_antisym in Hgt. unfold Pos.compare in Hgt.
    destruct (Pos.compare_cont Eq my mx); discriminate.
  - discriminate H.
  - left. lia.
Qed.

(** A finite sample in [[-1, 1]] is a zero, [1.0f], [-1.0f], or has an
    exponent below that of [1.0f]. *)
Lemma unit_cases s :
  finite32 s -> fle (fneg f1) s = true -> fle s f1 = true ->
  (exists b, s = S754_zero b) \/ s = f1 \/ s = fneg f1 \/
  exists sx mx ex, s = S754_finite sx mx ex /\ ex < -23 /\ Z.pos mx < 2 ^ 24.
Proof.
  intros [Hf Hv] Hlo Hhi.
  destruct s as [b|b| |sx mx ex]; try discriminate.
  - left. now exists b.
  - destruct (valid32_shape sx mx ex Hv) as [[Hm He] | [Hm He]].
    + right. right. right. exists sx, mx, ex. repeat split; try reflexivity; lia.
    + change (2 ^ 23) with 8388608 in Hm. destruct sx.
      * apply (SFleb_neg_inv mx ex 8388608 (-23)) in Hlo.
        destruct Hlo as [Hex | [-> Hmx]].
        -- right. right. right. exists true, mx, ex. repeat split; try reflexivity; lia.
        -- right. right. left.
           assert (Hm8 : mx = 8388608%positive) by lia.
           rewrite Hm8. reflexivity.
      * apply (SFleb_pos_inv mx ex 8388608 (-23)) in Hhi.
        destruct Hhi as [Hex | [-> Hmx]].
        -- right. right. right. exists false, mx, ex. repeat split; try reflexivity; lia.
        -- right. left.
           assert (Hm8 : mx = 8388608%positive) by lia.
           rewrite Hm8. reflexivity.
Qed.

Lemma Zdigits2_le m k : 0 < m -> 0 <= k -> m < 2 ^ k -> Zdigits2 m <= k.
Proof.
  intros Hm Hk Hlt. pose proof (Zdigits2_bounds m Hm) as [Hlb _].
  destruct (Z_le_gt_dec (Zdigits2 m) k) as [Hle|Hgt]; [exact Hle|]. exfalso.
  pose proof (Z.pow_le_mono_r 2 k (Zdigits2 m - 1) ltac:(lia) ltac:(lia)). lia.
Qed.

Lemma int_of_float_trunc s m e :
  e <= 0 ->
  int_of_float (S754_finite s m e) =
  if s then - (Z.pos m / 2 ^ (- e)) else Z.pos m / 2 ^ (- e).
Proof.
  intros He. unfold int_of_float. destruct e as [|p|p]; try lia.
  - change (- 0) with 0. rewrite Z.pow_0_r, Z.mul_1_r, Z.div_1_r. reflexivity.
  - reflexivity.
Qed.

(** Truncating the float product [s * 32767.0f]: the integer obtained is
    the floor of the exact product or the integer above it, and stays in
    the range of [int16_t]. *)
Lemma mul_32767_trunc sx mx ex :
  ex < -23 -> Z.pos mx < 2 ^ 24 ->
  let F := (Z.pos mx * 32767) / 2 ^ (- ex) in
  exists q,
    int_of_float (fmul (S754_finite sx mx ex) f32767) = (if sx then - q else q) /\
    F <= q <= F + 1 /\ 0 <= q <= 32767.
Proof.
  intros Hex Hmx F.
  unfold fmul, f32767. cbn [SFmul]. rewrite xorb_false_r.
  set (M := Z.pos (mx * 16776704)). set (E := ex + -9).
  destruct (binary_round_aux_correct 24 128 prec32 sx M E loc_Exact ltac:(lia))
    as (m2 & Hm2 & _ & Hres).
  set (e1 := round_exp 24 128 M E) in *.
  assert (HM : M = Z.pos mx * 32767 * 2 ^ 9) by (unfold M; lia).
  assert (Hpe : 2 ^ (- ex) = 2 ^ 24 * 2 ^ (- ex - 24))
    by (rewrite <- Z.pow_add_r by lia; f_equal; lia).
  assert (Hp0 : 0 < 2 ^ (- ex - 24)) by (apply Z.pow_pos_nonneg; lia).
  assert (HE1 : E <= e1) by (unfold e1, round_exp; lia).
  assert (He1 : e1 <= -9).
  { unfold e1, round_exp.
    assert (Zdigits2 M + E <= 15); [|unfold fexp, emin; lia].
    assert (Zdigits2 M <= 24 - ex); [|unfold E; lia].
    apply Zdigits2_le; [lia | lia |].
    replace (24 - ex) with (- ex + 24) by lia. rewrite Z.pow_add_r by lia.
    rewrite HM. change (2 ^ 24) with 16777216 in *. change (2 ^ 9) with 512. nia. }
  set (k := e1 - E). set (n := - e1).
  assert (Hk : 0 <= k) by (unfold k; lia).
  assert (Hn : 9 <= n) by (unfold n; lia).
  assert (Hpk : 0 < 2 ^ k) by (apply Z.pow_pos_nonneg; lia).
  assert (Hpn : 0 < 2 ^ n) by (apply Z.pow_pos_nonneg; lia).
  assert (HpE : 2 ^ k * 2 ^ n = 2 ^ 9 * 2 ^ (- ex)).
  { rewrite <- !Z.pow_add_r by lia. f_equal. unfold k, n, E. lia. }
  assert (Hm1 : round_mant 24 128 M E = M / 2 ^ k) by reflexivity.
  assert (HF : round_mant 24 128 M E / 2 ^ n = F).
  { rewrite Hm1, Z.div_div by lia. rewrite HpE, HM.
    unfold F. rewrite (Z.mul_comm (2 ^ 9) (2 ^ (- ex))).
    apply Z.div_mul_cancel_r; [|lia].
    pose proof (Z.pow_pos_nonneg 2 (- ex) ltac:(lia) ltac:(lia)). lia. }
  assert (Hm1lt : round_mant 24 128 M E < 32767 * 2 ^ n).
  { rewrite Hm1. apply Z.div_lt_upper_bound; [lia|].
    replace (2 ^ k * (32767 * 2 ^ n)) with (32767 * (2 ^ k * 2 ^ n)) by ring.
    rewrite HpE, HM, Hpe. change (2 ^ 24) with 16777216 in *. change (2 ^ 9) with 512. nia. }
  assert (Hm1ge : 0 <= round_mant 24 128 M E) by (rewrite Hm1; apply Z.div_pos; lia).
  assert (Hq : F <= m2 / 2 ^ n <= F + 1 /\ 0 <= m2 / 2 ^ n <= 32767).
  { split; [split|split].
    - rewrite <- HF. apply Z.div_le_mono; lia.
    - rewrite <- HF.
      apply Z.le_trans with ((round_mant 24 128 M E + 1 * 2 ^ n) / 2 ^ n).
      + apply Z.div_le_mono; lia.
      + rewrite Z.div_add by lia. lia.
    - apply Z.div_pos; lia.
    - apply Z.div_le_upper_bound; [lia|]. lia. }
  destruct Hres as [[_ Hov] | [[-> Hz] | (mr & er & -> & Hpos & _ & _ & _ & Hshape)]].
  - exfalso. fold e1 in Hov. lia.
  - exists 0. cbn [int_of_float]. split; [now destruct sx|].
    subst m2. rewrite Z.div_0_l in Hq by lia. lia.
  - exists (m2 / 2 ^ n). split; [|exact Hq].
    fold e1 in Hshape. destruct Hshape as [[-> <-] | [-> <-]].
    + rewrite int_of_float_trunc by lia. reflexivity.
    + rewrite int_of_float_trunc by lia.
      replace (2 ^ n) with (2 * 2 ^ (- (e1 + 1))).
      * rewrite Z.div_mul_cancel_l by lia. reflexivity.
      * rewrite <- Z.pow_succ_r by lia. f_equal. unfold n. lia.
Qed.

Lemma all_from_spec p n : forall q i,
  all_from n q p = true -> q <= i < q + Z.of_nat n -> p i = true.
Proof.
  induction n as [|n IH]; intros q i Hall Hi; [lia|].
  cbn [all_from] in Hall. apply andb_prop in Hall. destruct Hall as [Hq Hrest].
  destruct (Z.eq_dec i q) as [->|Hne]; [exact Hq|].
  apply (IH (Z.succ q)); [exact Hrest | lia].
Qed.

Lemma pcm16_exactb_all : all_from (Z.to_nat 65536) (-32768) pcm16_exactb = true.
Proof. vm_compute. reflexivity. Qed.

Lemma pcm16_to_sample_exact q :
  -32768 <= q <= 32767 ->
  is_finite (pcm16_to_sample q) = true /\
  B2R (pcm16_to_sample q) = (IZR q / 32768)%R.
Proof.
  intros Hq.
  pose proof (all_from_spec _ _ _ q pcm16_exactb_all ltac:(lia)) as Hall.
  unfold pcm16_exactb in Hall.
  destruct (pcm16_to_sample q) as [s|s| |s m e]; try discriminate.
  - apply Z.eqb_eq in Hall. subst q. split; [reflexivity|]. simpl. lra.
  - apply andb_prop in Hall. destruct Hall as [He Hval].
    apply Z.leb_le in He. apply Z.eqb_eq in Hval.
    split; [reflexivity|].
    rewrite B2R_finite. unfold mag.
    replace e with ((e + 39) + - (39)) by lia.
    rewrite bpow_add, bpow_IZR, bpow_neg by lia.
    apply (f_equal IZR) in Hval. rewrite !mult_IZR in Hval.
    change (2 ^ 39) with 549755813888. change (2 ^ 24) with 16777216 in Hval.
    replace (sgn s * (IZR (Z.pos m) * (IZR (2 ^ (e + 39)) * / 549755813888)))%R
      with (IZR (if s then - Z.pos m else Z.pos m) * IZR (2 ^ (e + 39)) / 549755813888)%R.
    + rewrite Hval. lra.
    + unfold sgn. destruct s; [rewrite opp_IZR|]; unfold Rdiv; ring.
Qed.

Lemma s16_small z : -32768 <= z <= 32767 -> s16 z = z.
Proof.
  intros Hz. unfold s16. change (2 ^ 15) with 32768. change (2 ^ 16) with 65536.
  Z.div_mod_to_equations. lia.
Qed.

Lemma B2R_f1 : B2R f1 = 1%R.
Proof.
  unfold f1. rewrite B2R_finite. unfold sgn, mag.
  change (-23) with (- (23)). rewrite bpow_neg by lia.
  change (2 ^ 23) with 8388608. lra.
Qed.

Lemma B2R_fneg x : B2R (fneg x) = (- B2R x)%R.
Proof.
  destruct x as [s|s| |s m e]; simpl; try lra. destruct s; simpl; lra.
Qed.

(** The 16-bit conversions, there and back, on a finite sample of
    [[-1, 1]]: the value read back is off by less than two steps of
    [1/32768]. *)
Theorem pcm16_round_trip s :
  finite32 s -> fle (fneg f1) s = true -> fle s f1 = true ->
  is_finite (pcm16_to_sample (sample_to_pcm16 s)) = true /\
  (Rabs (B2R (pcm16_to_sample (sample_to_pcm16 s)) - B2R s) < 2 / 32768)%R.
Proof.
  intros Hs Hlo Hhi.
  assert (Hpcm : sample_to_pcm16 s = s16 (int_of_float (fmul s f32767))).
  { unfold sample_to_pcm16, fgt, flt.
    rewrite (SFleb_not_gt _ _ Hhi). rewrite (SFleb_not_gt _ _ Hlo). reflexivity. }
  destruct (unit_cases s Hs Hlo Hhi)
    as [[b ->] | [-> | [-> | (sx & mx & ex & -> & Hex & Hmx)]]].
  - assert (Hz : sample_to_pcm16 (S754_zero b) = 0) by (destruct b; reflexivity).
    rewrite Hz. destruct (pcm16_to_sample_exact 0 ltac:(lia)) as [Hf Hv].
    split; [exact Hf|]. rewrite Hv. cbn [B2R].
    replace (0 / 32768 - 0)%R with 0%R by lra. rewrite Rabs_R0. lra.
  - assert (Hz : sample_to_pcm16 f1 = 32767) by (vm_compute; reflexivity).
    rewrite Hz. destruct (pcm16_to_sample_exact 32767 ltac:(lia)) as [Hf Hv].
    split; [exact Hf|]. rewrite Hv, B2R_f1.
    apply Rabs_def1; lra.
  - assert (Hz : sample_to_pcm16 (fneg f1) = -32767) by (vm_compute; reflexivity).
    rewrite Hz. destruct (pcm16_to_sample_exact (-32767) ltac:(lia)) as [Hf Hv].
    split; [exact Hf|]. rewrite Hv, B2R_fneg, B2R_f1.
    apply Rabs_def1; lra.
  - rewrite Hpcm.
    destruct (mul_32767_trunc sx mx ex Hex Hmx) as (q & Hint & HF & Hq).
    rewrite Hint.
    set (F := Z.pos mx * 32767 / 2 ^ (- ex)) in *.
    set (P := 2 ^ (- ex)) in *.
    assert (HP : 2 ^ 24 <= P) by (apply Z.pow_le_mono_r; lia).
    assert (HP0 : 0 < P) by lia.
    assert (HFb : F * P <= Z.pos mx * 32767 < (F + 1) * P).
    { unfold F. pose proof (Z.mul_div_le (Z.pos mx * 32767) P HP0).
      pose proof (Z.mul_succ_div_gt (Z.pos mx * 32767) P HP0). lia. }
    destruct HFb as [HFlo HFhi]. apply IZR_le in HFlo. apply IZR_lt in HFhi.
    rewrite !mult_IZR in HFlo, HFhi. rewrite plus_IZR in HFhi.
    assert (HmP : (IZR (Z.pos mx) < IZR P)%R) by (apply IZR_lt; lia).
    assert (HP0' : (0 < IZR P)%R) by (apply IZR_lt; lia).
    assert (Hm0 : (0 < IZR (Z.pos mx))%R) by (apply IZR_lt; lia).
    destruct HF as [HF1 HF2]. apply IZR_le in HF1, HF2. rewrite plus_IZR in HF2.
    rewrite B2R_finite. unfold mag.
    assert (Hb : bpow ex = (/ IZR P)%R).
    { unfold P. rewrite <- bpow_neg by lia. f_equal. lia. }
    rewrite Hb.
    set (a := (IZR (Z.pos mx) * / IZR P)%R).
    assert (Ha : (0 < a < 1)%R).
    { unfold a. split.
      - apply Rmult_lt_0_compat; [lra | now apply Rinv_0_lt_compat].
      - apply Rmult_lt_reg_r with (IZR P); [lra|].
        rewrite Rmult_assoc, Rinv_l by lra. lra. }
    assert (HaF : (IZR F <= 32767 * a < IZR F + 1)%R).
    { unfold a. split.
      - apply Rmult_le_reg_r with (IZR P); [lra|].
        replace (32767 * (IZR (Z.pos mx) * / IZR P) * IZR P)%R
          with (IZR (Z.pos mx) * 32767 * (/ IZR P * IZR P))%R by ring.
        rewrite Rinv_l by lra. lra.
      - apply Rmult_lt_reg_r with (IZR P); [lra|].
        replace (32767 * (IZR (Z.pos mx) * / IZR P) * IZR P)%R
          with (IZR (Z.pos mx) * 32767 * (/ IZR P * IZR P))%R by ring.
        rewrite Rinv_l by lra. lra. }
    destruct sx.
    + rewrite s16_small by lia.
      destruct (pcm16_to_sample_exact (- q) ltac:(lia)) as [Hf Hv].
      split; [exact Hf|]. rewrite Hv, opp_IZR. unfold sgn.
      apply Rabs_def1; lra.
    + rewrite s16_small by lia.
      destruct (pcm16_to_sample_exact q ltac:(lia)) as [Hf Hv].
      split; [exact Hf|]. rewrite Hv. unfold sgn.
      apply Rabs_def1; lra.
Qed.

End PcmFacts.

Lemma lor_le16 v :
  Z.lor (Z.land v 255) (Z.shiftl (Z.land (Z.shiftr v 8) 255) 8) = v mod 2 ^ 16.
Proof.
  apply Z.bits_inj'. intros n Hn.
  rewrite <- (Z.shiftr_0_r v) at 1.
  rewrite <- (Z.shiftl_0_r (Z.land (Z.shiftr v 0) 255)).
  rewrite !Z.lor_spec, !testbit_byte by lia.
  rewrite Z.testbit_mod_pow2 by lia.
  destruct (Z.testbit v n); simpl; [|now rewrite andb_false_r].
  rewrite andb_true_r.
  destruct (Z.ltb_spec n 8), (Z.leb_spec 8 n), (Z.ltb_spec n 16), (Z.leb_spec 0 n);
    simpl; try reflexivity; lia.
Qed.

Lemma s16_get16_le16 v : s16 (get16 (le16 v) 0) = s16 v.
Proof.
  unfold get16, get8, le16. cbn [Z.to_nat Z.add nth Pos.to_nat Pos.iter_op Nat.add].
  rewrite lor_le16. unfold s16.
  change (2 ^ 16) with 65536. change (2 ^ 15) with 32768.
  Z.div_mod_to_equations. lia.
Qed.

Lemma s16_idem z : s16 (s16 z) = s16 z.
Proof.
  unfold s16. change (2 ^ 16) with 65536. change (2 ^ 15) with 32768.
  Z.div_mod_to_equations. lia.
Qed.

(** * Phase wrapping *)

Module WrapFacts.
Import PhaseVocoder.

Lemma B2R_two_pi : B2R two_pi = (7074237752028440 / 1125899906842624)%R.
Proof.
  unfold two_pi. rewrite B2R_finite. unfold sgn, mag.
  change (-50) with (- (50)). rewrite bpow_neg by lia.
  change (2 ^ 50) with 1125899906842624. lra.
Qed.

Lemma B2R_M_PI : B2R M_PI = (7074237752028440 / 2251799813685248)%R.
Proof.
  unfold M_PI. rewrite B2R_finite. unfold sgn, mag.
  change (-51) with (- (51)). rewrite bpow_neg by lia.
  change (2 ^ 51) with 2251799813685248. lra.
Qed.

Lemma B2R_SFopp x : B2R (SFopp x) = (- B2R x)%R.
Proof.
  destruct x as [s|s| |s m e]; simpl; try lra. destruct s; simpl; lra.
Qed.

Lemma finite64_M_PI : finite64 M_PI.
Proof. split; reflexivity. Qed.

Lemma finite64_minus_M_PI : finite64 (SFopp M_PI).
Proof. split; reflexivity. Qed.

(** The loop tests, in terms of values. *)
Lemma above_pi_true x :
  finite32 x -> fgt (double_of_float x) M_PI = true -> (B2R M_PI < B2R x)%R.
Proof.
  intros Hx Hgt. destruct (double_of_float_exact x Hx) as (Hd & Hv & _).
  rewrite <- Hv. apply (SFltb_true 53 1024 prec64);
    [apply finite64_numeric, finite64_M_PI | now apply finite64_numeric | exact Hgt].
Qed.

Lemma above_pi_false x :
  finite32 x -> fgt (double_of_float x) M_PI = false -> (B2R x <= B2R M_PI)%R.
Proof.
  intros Hx Hgt. destruct (double_of_float_exact x Hx) as (Hd & Hv & _).
  rewrite <- Hv. apply (SFltb_false 53 1024 prec64);
    [apply finite64_numeric, finite64_M_PI | now apply finite64_numeric | exact Hgt].
Qed.

Lemma below_pi_true x :
  finite32 x -> flt (double_of_float x) (SFopp M_PI) = true ->
  (B2R x < - B2R M_PI)%R.
Proof.
  intros Hx Hlt. destruct (double_of_float_exact x Hx) as (Hd & Hv & _).
  rewrite <- Hv, <- B2R_SFopp. apply (SFltb_true 53 1024 prec64);
    [now apply finite64_numeric | apply finite64_numeric, finite64_minus_M_PI | exact Hlt].
Qed.

Lemma below_pi_false x :
  finite32 x -> flt (double_of_float x) (SFopp M_PI) = false ->
  (- B2R M_PI <= B2R x)%R.
Proof.
  intros Hx Hlt. destruct (double_of_float_exact x Hx) as (Hd & Hv & _).
  rewrite <- Hv, <- B2R_SFopp. apply (SFltb_false 53 1024 prec64);
    [now apply finite64_numeric | apply finite64_numeric, finite64_minus_M_PI | exact Hlt].
Qed.

(** A finite datum that is not a zero. *)
Lemma nonzero_finite x :
  finite32 x -> B2R x <> 0%R -> exists s m e, x = S754_finite s m e.
Proof.
  intros [Hf _] Hnz. destruct x as [s|s| |s m e]; try discriminate.
  - now contradiction Hnz.
  - eauto.
Qed.

(** Value of a double sum or difference rounded to float. *)
Lemma round_twice (d : double) (t : R) (k : Z) :
  rounds_signed 53 1024 t d ->
  -125 <= k <= 104 -> (Rabs t + bpow (k - 53) < bpow k)%R ->
  finite32 (float_of_double d) /\
  (Rabs (B2R (float_of_double d) - t) <= bpow (k - 24) + bpow (k - 53))%R /\
  ((0 <= t)%R -> (0 <= B2R (float_of_double d))%R) /\
  ((t <= 0)%R -> (B2R (float_of_double d) <= 0)%R).
Proof.
  intros Hd Hk Hlt.
  pose proof (bpow_gt_0 (k - 53)) as Hp53. pose proof (Rabs_pos t) as Ht0.
  destruct Hd as [[_ Hov] | (Hf & Hv & Herr & Hpos & Hneg)].
  - exfalso. assert (bpow k <= bpow (1024 - 53))%R by (apply bpow_le; lia). lra.
  - specialize (Herr k ltac:(lra)).
    replace (fexp 53 1024 k) with (k - 53) in Herr by (unfold fexp, emin; lia).
    assert (Hdk : (Rabs (B2R d) < bpow k)%R).
    { replace (B2R d) with ((B2R d - t) + t)%R by ring.
      apply Rle_lt_trans with (1 := Rabs_triang _ _). lra. }
    destruct (float_of_double_rounds d k (conj Hf Hv) Hk Hdk) as (Hr & Hrerr & Hrpos & Hrneg).
    split; [exact Hr|]. split; [|split; auto].
    replace (B2R (float_of_double d) - t)%R
      with ((B2R (float_of_double d) - B2R d) + (B2R d - t))%R by ring.
    apply Rle_trans with (1 := Rabs_triang _ _). lra.
Qed.

Lemma step_down_spec x k :
  finite32 x -> B2R x <> 0%R ->
  -125 <= k <= 104 -> (Rabs (B2R x - B2R two_pi) + bpow (k - 53) < bpow k)%R ->
  finite32 (step_down x) /\
  (Rabs (B2R (step_down x) - (B2R x - B2R two_pi)) <= bpow (k - 24) + bpow (k - 53))%R /\
  ((0 <= B2R x - B2R two_pi)%R -> (0 <= B2R (step_down x))%R) /\
  ((B2R x - B2R two_pi <= 0)%R -> (B2R (step_down x) <= 0)%R).
Proof.
  intros Hx Hnz Hk Hlt.
  destruct (nonzero_finite x Hx Hnz) as (s & m & e & Hxe).
  destruct (double_of_float_exact x Hx) as (_ & Hv & Hshape).
  destruct (Hshape s m e Hxe) as (m' & e' & Hd).
  unfold step_down. apply round_twice; [|exact Hk | exact Hlt].
  rewrite <- Hv, Hd. unfold dsub, two_pi.
  apply SFsub_rounds; [exact prec64 | exact emax64].
Qed.

Lemma step_up_spec x k :
  finite32 x -> B2R x <> 0%R ->
  -125 <= k <= 104 -> (Rabs (B2R x + B2R two_pi) + bpow (k - 53) < bpow k)%R ->
  finite32 (step_up x) /\
  (Rabs (B2R (step_up x) - (B2R x + B2R two_pi)) <= bpow (k - 24) + bpow (k - 53))%R /\
  ((0 <= B2R x + B2R two_pi)%R -> (0 <= B2R (step_up x))%R) /\
  ((B2R x + B2R two_pi <= 0)%R -> (B2R (step_up x) <= 0)%R).
Proof.
  intros Hx Hnz Hk Hlt.
  destruct (nonzero_finite x Hx Hnz) as (s & m & e & Hxe).
  destruct (double_of_float_exact x Hx) as (_ & Hv & Hshape).
  destruct (Hshape s m e Hxe) as (m' & e' & Hd).
  unfold step_up. apply round_twice; [|exact Hk | exact Hlt].
  rewrite <- Hv, Hd. unfold dadd, two_pi.
  apply SFadd_rounds; [exact prec64 | exact emax64].
Qed.

Lemma bpow_26 : bpow 26 = 67108864%R.
Proof. rewrite bpow_IZR by lia. reflexivity. Qed.

Lemma bpow_2 : bpow 2 = 4%R.
Proof. rewrite bpow_IZR by lia. reflexivity. Qed.

Lemma bpow_m27 : bpow (26 - 53) = (/ 134217728)%R.
Proof. change (26 - 53) with (- (27)). rewrite bpow_neg by lia. reflexivity. Qed.

Lemma bpow_m22 : bpow (2 - 24) = (/ 4194304)%R.
Proof. change (2 - 24) with (- (22)). rewrite bpow_neg by lia. reflexivity. Qed.

Lemma bpow_m51 : bpow (2 - 53) = (/ 2251799813685248)%R.
Proof. change (2 - 53) with (- (51)). rewrite bpow_neg by lia. reflexivity. Qed.

(** *** First loop: every turn takes at least 2 off a phase above [M_PI] *)

Lemma step_down_decreases x :
  finite32 x -> (B2R M_PI < B2R x < 67108864)%R ->
  finite32 (step_down x) /\ (-8 < B2R (step_down x) <= B2R x - 2)%R.
Proof.
  intros Hx [Hlo Hhi]. rewrite B2R_M_PI in Hlo.
  destruct (step_down_spec x 26 Hx ltac:(lra) ltac:(lia)) as (Hf & Herr & _).
  - rewrite B2R_two_pi, bpow_26, bpow_m27.
    assert (Rabs (B2R x - 7074237752028440 / 1125899906842624) < 67108864 - 1)%R
      by (apply Rabs_def1; lra).
    lra.
  - split; [exact Hf|]. apply Rabs_bounds in Herr.
    rewrite B2R_two_pi in Herr. change (26 - 24) with 2 in Herr.
    rewrite bpow_2, bpow_m27 in Herr. lra.
Qed.

Lemma wrap_down_total n : forall x,
  finite32 x -> (-67108864 < B2R x < 67108864)%R ->
  (B2R x <= 3 + 2 * INR n)%R ->
  exists p j,
    wrap_down n x = Done p /\ p = Nat.iter j step_down x /\
    finite32 p /\ (-67108864 < B2R p <= B2R M_PI)%R.
Proof.
  induction n as [|n IH]; intros x Hx Hb Hn.
  - cbn [wrap_down]. destruct (fgt (double_of_float x) M_PI) eqn:E.
    + apply above_pi_true in E; [|exact Hx]. rewrite B2R_M_PI in E.
      simpl in Hn. lra.
    + apply above_pi_false in E; [|exact Hx].
      exists x, 0%nat. split; [reflexivity|]. split; [reflexivity|].
      split; [exact Hx | lra].
  - cbn [wrap_down]. destruct (fgt (double_of_float x) M_PI) eqn:E.
    + apply above_pi_true in E; [|exact Hx].
      destruct (step_down_decreases x Hx ltac:(lra)) as (Hf & Hlo & Hhi).
      change (float_of_double (dsub (double_of_float x) two_pi)) with (step_down x).
      rewrite S_INR in Hn.
      destruct (IH (step_down x) Hf ltac:(lra) ltac:(lra)) as (p & j & Hp & Hj & Hpf & Hpb).
      exists p, (S j). split; [exact Hp|]. split; [|split; assumption].
      rewrite Nat.iter_succ_r. exact Hj.
    + apply above_pi_false in E; [|exact Hx].
      exists x, 0%nat. split; [reflexivity|]. split; [reflexivity|].
      split; [exact Hx | lra].
Qed.

(** *** Second loop *)

Lemma below_minus_pi_cases x :
  finite32 x -> (B2R x < - B2R M_PI)%R ->
  x = below_minus_pi \/ (B2R x <= - (13176796 / 4194304))%R.
Proof.
  intros Hx Hlt. rewrite B2R_M_PI in Hlt.
  pose proof (finite32_numeric x Hx) as Hn. destruct Hx as [Hf Hv].
  destruct x as [s|s| |s m e]; try discriminate.
  - simpl in Hlt. lra.
  - cbn [numeric] in Hn. rewrite B2R_finite in *.
    pose proof (mag_pos m e) as Hm. unfold sgn in *.
    destruct s; [|lra].
    destruct (Z_lt_ge_dec e (-22)) as [He|He].
    + exfalso. pose proof (mag_lt_bpow 24 128 prec32 m e Hn) as Hub.
      assert (bpow (24 + e) <= bpow 1)%R by (apply bpow_le; lia).
      rewrite (bpow_IZR 1) in * by lia. simpl in *. lra.
    + destruct (Z.eq_dec e (-22)) as [->|Hne].
      * unfold mag in *. change (-22) with (2 - 24) in *. rewrite bpow_m22 in *.
        destruct (Z_le_gt_dec (Z.pos m) 13176794) as [Hsmall|Hbig].
        -- exfalso. apply IZR_le in Hsmall. lra.
        -- destruct (Z.eq_dec (Z.pos m) 13176795) as [Heq|Hne].
           ++ left. injection Heq as ->. reflexivity.
           ++ right. assert (Hge : 13176796 <= Z.pos m) by lia.
              apply IZR_le in Hge. lra.
      * right. pose proof (mag_ge_bpow 24 128 prec32 m e Hn ltac:(unfold emin; lia)) as Hlb.
        assert (bpow 2 <= bpow (24 - 1 + e))%R by (apply bpow_le; lia).
        rewrite bpow_2 in *. lra.
Qed.

Lemma step_up_increases x :
  finite32 x -> (-67108864 < B2R x < - B2R M_PI)%R ->
  finite32 (step_up x) /\ (B2R x + 2 <= B2R (step_up x) <= B2R M_PI)%R.
Proof.
  intros Hx [Hlo Hhi].
  assert (Hcases := below_minus_pi_cases x Hx Hhi).
  rewrite B2R_M_PI in *.
  destruct (step_up_spec x 26 Hx ltac:(lra) ltac:(lia)) as (Hf & Herr & _ & Hneg).
  - rewrite B2R_two_pi, bpow_26, bpow_m27.
    assert (Rabs (B2R x + 7074237752028440 / 1125899906842624) < 67108864 - 1)%R
      by (apply Rabs_def1; lra).
    lra.
  - split; [exact Hf|]. apply Rabs_bounds in Herr.
    rewrite B2R_two_pi in Herr, Hneg. change (26 - 24) with 2 in Herr.
    rewrite bpow_2, bpow_m27 in Herr. split; [lra|].
    destruct Hcases as [-> | Hfar].
    + change (step_up below_minus_pi) with (S754_finite false 13176794 (-22)).
      rewrite B2R_finite. unfold sgn, mag.
      change (-22) with (2 - 24). rewrite bpow_m22. lra.
    + destruct (Rle_lt_dec (B2R x + 7074237752028440 / 1125899906842624) 0) as [Ht|Ht].
      * specialize (Hneg Ht). lra.
      * destruct (step_up_spec x 2 Hx ltac:(lra) ltac:(lia)) as (_ & Herr2 & _).
        -- rewrite B2R_two_pi, bpow_2, bpow_m51.
           assert (Rabs (B2R x + 7074237752028440 / 1125899906842624) < 4 - 1 / 2)%R
             by (apply Rabs_def1; lra).
           lra.
        -- apply Rabs_bounds in Herr2. rewrite B2R_two_pi, bpow_m22, bpow_m51 in Herr2.
           lra.
Qed.

Lemma wrap_up_total n : forall x,
  finite32 x -> (-67108864 < B2R x <= B2R M_PI)%R ->
  (- (3 + 2 * INR n) <= B2R x)%R ->
  exists r k,
    wrap_up n x = Done r /\ r = Nat.iter k step_up x /\
    finite32 r /\ (- B2R M_PI <= B2R r <= B2R M_PI)%R.
Proof.
  induction n as [|n IH]; intros x Hx Hb Hn.
  - cbn [wrap_up]. destruct (flt (double_of_float x) (SFopp M_PI)) eqn:E.
    + apply below_pi_true in E; [|exact Hx]. rewrite B2R_M_PI in E.
      simpl in Hn. lra.
    + apply below_pi_false in E; [|exact Hx].
      exists x, 0%nat. split; [reflexivity|]. split; [reflexivity|].
      split; [exact Hx | lra].
  - cbn [wrap_up]. destruct (flt (double_of_float x) (SFopp M_PI)) eqn:E.
    + apply below_pi_true in E; [|exact Hx].
      destruct (step_up_increases x Hx ltac:(lra)) as (Hf & Hlo & Hhi).
      change (float_of_double (dadd (double_of_float x) two_pi)) with (step_up x).
      rewrite S_INR in Hn.
      destruct (IH (step_up x) Hf ltac:(lra) ltac:(lra)) as (r & k & Hr & Hk & Hrf & Hrb).
      exists r, (S k). split; [exact Hr|]. split; [|split; assumption].
      rewrite Nat.iter_succ_r. exact Hk.
    + apply below_pi_false in E; [|exact Hx].
      exists x, 0%nat. split; [reflexivity|]. split; [reflexivity|].
      split; [exact Hx | lra].
Qed.

Lemma wrap_down_mono n : forall x p m,
  wrap_down n x = Done p -> (n <= m)%nat -> wrap_down m x = Done p.
Proof.
  induction n as [|n IH]; intros x p m Hn Hm.
  - cbn [wrap_down] in Hn. destruct (fgt (double_of_float x) M_PI) eqn:E; [discriminate|].
    destruct m; cbn [wrap_down]; rewrite E; exact Hn.
  - destruct m as [|m]; [lia|]. cbn [wrap_down] in *.
    destruct (fgt (double_of_float x) M_PI); [|exact Hn].
    apply IH; [exact Hn | lia].
Qed.

Lemma wrap_up_mono n : forall x p m,
  wrap_up n x = Done p -> (n <= m)%nat -> wrap_up m x = Done p.
Proof.
  induction n as [|n IH]; intros x p m Hn Hm.
  - cbn [wrap_up] in Hn.
    destruct (flt (double_of_float x) (SFopp M_PI)) eqn:E; [discriminate|].
    destruct m; cbn [wrap_up]; rewrite E; exact Hn.
  - destruct m as [|m]; [lia|]. cbn [wrap_up] in *.
    destruct (flt (double_of_float x) (SFopp M_PI)); [|exact Hn].
    apply IH; [exact Hn | lia].
Qed.

(** No float is [-M_PI]: the mantissa of [M_PI] does not fit 24 bits. *)
Lemma float_not_minus_pi r : finite32 r -> B2R r <> (- B2R M_PI)%R.
Proof.
  intros Hr Heq. rewrite B2R_M_PI in Heq.
  pose proof (finite32_numeric r Hr) as Hn. destruct Hr as [Hf Hv].
  destruct r as [s|s| |s m e]; try discriminate.
  - simpl in Heq. lra.
  - cbn [numeric] in Hn. rewrite B2R_finite in Heq.
    pose proof (mag_pos m e) as Hm. unfold sgn in Heq.
    destruct s; [|lra].
    assert (Hmag : mag m e = (7074237752028440 / 2251799813685248)%R) by lra.
    pose proof (mag_lt_bpow 24 128 prec32 m e Hn) as Hub.
    destruct (Z_lt_ge_dec e (-22)) as [He|He].
    + assert (bpow (24 + e) <= bpow 1)%R by (apply bpow_le; lia).
      rewrite (bpow_IZR 1) in * by lia. simpl in *. lra.
    + destruct (Z.eq_dec e (-22)) as [->|Hne].
      * unfold mag in Hmag. change (-22) with (2 - 24) in Hmag. rewrite bpow_m22 in Hmag.
        assert (Hz : (IZR (Z.pos m * 536870912) = IZR 7074237752028440)%R).
        { rewrite mult_IZR. lra. }
        apply eq_IZR in Hz. lia.
      * pose proof (mag_ge_bpow 24 128 prec32 m e Hn ltac:(unfold emin; lia)) as Hlb.
        assert (bpow 2 <= bpow (24 - 1 + e))%R by (apply bpow_le; lia).
        rewrite bpow_2 in *. lra.
Qed.

Lemma phase_bound_value x :
  finite32 x -> flt (fabsf x) phase_bound = true ->
  (-67108864 < B2R x < 67108864)%R.
Proof.
  intros Hx Hb.
  apply (SFltb_true 24 128 prec32) in Hb;
    [|apply nonneg32_numeric, nonneg32_fabsf, Hx | reflexivity].
  rewrite B2R_fabsf in Hb. unfold phase_bound in Hb. rewrite B2R_finite in Hb.
  unfold sgn, mag in Hb. rewrite (bpow_IZR 3) in Hb by lia.
  change (2 ^ 3) with 8 in Hb.
  assert (Rabs (B2R x) < 67108864)%R by lra.
  unfold Rabs in *. destruct (Rcase_abs (B2R x)); lra.
Qed.

End WrapFacts.

(** * Normalised output *)

Lemma finite32b_Forall l : forallb finite32b l = true -> Forall finite32 l.
Proof.
  intros Hl. rewrite forallb_forall in Hl. apply Forall_forall. intros x Hx.
  specialize (Hl x Hx). unfold finite32b in Hl. apply andb_prop in Hl. exact Hl.
Qed.

Lemma Rabs_le_unit x b : (Rabs x <= b)%R -> (b <= 1)%R -> (-1 <= x <= 1)%R.
Proof.
  unfold Rabs. destruct (Rcase_abs x); intros; lra.
Qed.

Lemma normalize_normalised pre :
  Forall finite32 pre -> normalised pre (normalize pre).
Proof.
  intros Hpre. destruct unit_bounds as [Hb1 Hb2].
  destruct (normalize_finite pre Hpre) as [(E & Hn & Hall) | (E & Hn & Hall)].
  - split.
    + eapply Forall_impl; [|exact Hall]. intros y [Hf Hy]. split; [exact Hf|].
      eapply Rabs_le_unit; eassumption.
    + left. split; [exact E|]. split; [exact Hn|].
      eapply Forall_impl; [|exact Hall]. intros y [_ Hy]. exact Hy.
  - split.
    + eapply Forall_impl; [|exact Hall]. intros y [Hf Hy]. split; [exact Hf|].
      eapply Rabs_le_unit; eassumption.
    + right. split; [exact E|]. split; [exact Hn|].
      eapply Forall_impl; [|exact Hall]. intros y [_ Hy]. exact Hy.
Qed.

(** * The claims *)

(** C1 -- Duration invariance.  For both engines and every ratio in
    [[0.5, 2.0]], a returned buffer has the length field, the number of
    samples and the sample rate of the input. *)
Theorem duration_invariance `{Libm} (uninit : PhaseVocoder.Complex) (fuel : nat)
        (input : AudioBuffer) (ratio : float) :
  fle f0_5 ratio = true -> fle ratio f2 = true ->
  (forall out,
      PhaseVocoder.phase_vocoder_pitch_shift uninit fuel input ratio = Done (Some out) ->
      out.(length) = input.(length) /\
      out.(sample_rate) = input.(sample_rate) /\
      List.length out.(data) = Z.to_nat input.(length)) /\
  (forall out,
      Psola.psola_pitch_shift input ratio = Some out ->
      out.(length) = input.(length) /\
      out.(sample_rate) = input.(sample_rate) /\
      List.length out.(data) = Z.to_nat input.(length)).
Proof.
  intros _ _. split; intros out Hout.
  - unfold PhaseVocoder.phase_vocoder_pitch_shift in Hout.
    destruct (PhaseVocoderFacts.phase_vocoder_body_cases
                uninit fuel input (clamp_ratio ratio)) as [Ht | (samples & Hlen & Hd)];
      rewrite Hout in *; [discriminate|].
    injection Hd as ->. simpl. auto.
  - unfold Psola.psola_pitch_shift in Hout.
    destruct (PsolaFacts.psola_body_cases input (clamp_ratio ratio))
      as (marks & _ & [[_ Hnone] | (_ & o & _ & Hlen & Hsome)]);
      rewrite Hout in *; [discriminate|].
    injection Hsome as ->. simpl. rewrite length_normalize. auto.
Qed.

Lemma duration_invariance_witness :
  exists out1 out2,
    PhaseVocoder.phase_vocoder_pitch_shift (H := SeriesLibm.libm) czero 0
      (silence 201) f1 = Done (Some out1) /\
    Psola.psola_pitch_shift (H := SeriesLibm.libm) (silence 201) f1 = Some out2 /\
    out1.(length) = 201 /\ out2.(length) = 201 /\
    out1.(sample_rate) = 48000 /\ out2.(sample_rate) = 48000.
Proof.
  destruct (duration_invariance (H := SeriesLibm.libm) czero 0 (silence 201) f1
              eq_refl eq_refl) as [Hpv Hps].
  eexists. eexists.
  split; [vm_compute; reflexivity|].
  split; [vm_compute; reflexivity|].
  destruct (Hpv _ eq_refl) as (H1 & H2 & _).
  destruct (Hps _ eq_refl) as (H3 & H4 & _).
  repeat split; assumption.
Defined.

(** C6 -- No-mark failure.  When mark detection finds fewer than two marks
    on an input, [psola_pitch_shift] returns [NULL] -- no buffer at all --
    and the caller's input buffer is what it was.  (Detection always returns
    its marks, see [PsolaFacts.detect_pitch_marks_total]; fewer than two are
    found exactly on inputs of at most 200 samples, see
    [PsolaFacts.few_marks_iff_short].) *)
Theorem psola_too_few_marks `{Libm} (input : AudioBuffer) (ratio : float)
        (marks : Psola.PitchMarks) :
  Psola.detect_pitch_marks input = Some marks ->
  Psola.count marks < 2 ->
  Psola.psola_call input ratio = (input, None).
Proof.
  intros Hmarks Hcount.
  unfold Psola.psola_call, Psola.psola_pitch_shift, Psola.psola_body.
  rewrite Hmarks.
  replace (Psola.count marks <? 2) with true by (symmetry; apply Z.ltb_lt; exact Hcount).
  reflexivity.
Qed.

Lemma psola_too_few_marks_witness :
  Psola.detect_pitch_marks (silence 100) = Some [0] /\
  Psola.psola_call (H := SeriesLibm.libm) (silence 100) f1 = (silence 100, None).
Proof.
  split; [vm_compute; reflexivity|].
  apply (psola_too_few_marks (H := SeriesLibm.libm) (silence 100) f1 [0]).
  - vm_compute; reflexivity.
  - vm_compute; reflexivity.
Defined.

(** C10 -- Short input.  [phase_vocoder_pitch_shift] has no [NULL] result.
    On an input shorter than the FFT size the frame count is non-positive,
    the frame loop has nothing to run over, and the buffer returned has the
    input's length and rate and holds [+0.0] in every sample. *)
Theorem phase_vocoder_short_input `{Libm} (uninit : PhaseVocoder.Complex)
        (fuel : nat) (input : AudioBuffer) (ratio : float) :
  input.(length) < PhaseVocoder.FFT_SIZE ->
  (forall fuel' input' ratio',
      PhaseVocoder.phase_vocoder_pitch_shift uninit fuel' input' ratio' <> Done None) /\
  PhaseVocoder.num_frames input <= 0 /\
  range (PhaseVocoder.num_frames input) = [] /\
  PhaseVocoder.phase_vocoder_pitch_shift uninit fuel input ratio =
  Done (Some {| data := repeat f0 (Z.to_nat input.(length));
                length := input.(length);
                sample_rate := input.(sample_rate) |}).
Proof.
  intros Hlen. repeat split.
  - intros fuel' input' ratio' Hnull.
    unfold PhaseVocoder.phase_vocoder_pitch_shift in Hnull.
    destruct (PhaseVocoderFacts.phase_vocoder_body_cases
                uninit fuel' input' (clamp_ratio ratio')) as [Ht | (samples & _ & Hd)];
      rewrite Hnull in *; discriminate.
  - now apply PhaseVocoderFacts.num_frames_short.
  - apply range_nonpos. now apply PhaseVocoderFacts.num_frames_short.
  - unfold PhaseVocoder.phase_vocoder_pitch_shift.
    now apply PhaseVocoderFacts.phase_vocoder_body_short.
Qed.

Lemma phase_vocoder_short_input_witness :
  PhaseVocoder.phase_vocoder_pitch_shift (H := SeriesLibm.libm) czero 0 (silence 100) f1 =
  Done (Some (silence 100)).
Proof.
  apply (phase_vocoder_short_input (H := SeriesLibm.libm) czero 0 (silence 100) f1).
  vm_compute. reflexivity.
Defined.

(** C4 -- The clamp.  A ratio that is a number is replaced by its clamp to
    [[0.5, 2.0]] before anything else happens: a ratio below 0.5 gives the
    call made with 0.5, a ratio above 2.0 the call made with 2.0, and the
    rest of either engine ([phase_vocoder_body], [psola_body]) is a function
    of the clamped value alone. *)
Theorem ratio_clamped `{Libm} (uninit : PhaseVocoder.Complex) (fuel : nat)
        (input : AudioBuffer) (ratio : float) :
  is_nan ratio = false ->
  (fle f0_5 (clamp_ratio ratio) = true /\ fle (clamp_ratio ratio) f2 = true) /\
  PhaseVocoder.phase_vocoder_pitch_shift uninit fuel input ratio =
    PhaseVocoder.phase_vocoder_body uninit fuel input (clamp_ratio ratio) /\
  Psola.psola_pitch_shift input ratio = Psola.psola_body input (clamp_ratio ratio) /\
  (flt ratio f0_5 = true ->
   PhaseVocoder.phase_vocoder_pitch_shift uninit fuel input ratio =
     PhaseVocoder.phase_vocoder_pitch_shift uninit fuel input f0_5 /\
   Psola.psola_pitch_shift input ratio = Psola.psola_pitch_shift input f0_5) /\
  (fgt ratio f2 = true ->
   PhaseVocoder.phase_vocoder_pitch_shift uninit fuel input ratio =
     PhaseVocoder.phase_vocoder_pitch_shift uninit fuel input f2 /\
   Psola.psola_pitch_shift input ratio = Psola.psola_pitch_shift input f2).
Proof.
  intros Hnan.
  split; [now apply clamp_ratio_range|].
  split; [reflexivity|]. split; [reflexivity|].
  unfold PhaseVocoder.phase_vocoder_pitch_shift, Psola.psola_pitch_shift.
  split; intros Hr.
  - rewrite (clamp_ratio_below ratio Hr). split; reflexivity.
  - rewrite (clamp_ratio_above ratio Hr). split; reflexivity.
Qed.

Lemma ratio_clamped_witness :
  clamp_ratio (float_of_int 3) = f2 /\
  Psola.psola_pitch_shift (H := SeriesLibm.libm) (silence 201) (float_of_int 3) =
  Psola.psola_pitch_shift (H := SeriesLibm.libm) (silence 201) f2.
Proof.
  split; [vm_compute; reflexivity|].
  apply (ratio_clamped (H := SeriesLibm.libm) czero 0 (silence 201) (float_of_int 3)).
  - vm_compute; reflexivity.
  - vm_compute; reflexivity.
Defined.

(** C4, as stated, fails for the ratio NaN: both comparisons of the clamp
    are false on it and the engines go on with NaN. *)
Lemma ratio_clamped_counterexample :
  ~ (forall ratio : float,
        fle f0_5 (clamp_ratio ratio) = true /\ fle (clamp_ratio ratio) f2 = true).
Proof.
  intros Hall. destruct (Hall S754_nan) as [Hlo _]. vm_compute in Hlo. discriminate.
Qed.



(** C8 -- No recurrence.  When no octave 1..8 gives a note of the MIDI
    range 12..108 on the required side of the recorded frequency, the scan
    leaves the target at its initial 0 and [main] sets the ratio to [1.0f]:
    the zero target is never divided by. *)
Theorem mapper_no_recurrence `{Libm} (recorded reference : float) :
  let cls := Z.rem (Tuner.frequency_to_midi_note reference) 12 in
  (forall o, 1 <= o <= 8 ->
             ~ Tuner.hit (fgt recorded reference) recorded cls o) ->
  Tuner.find_closest_target_frequency recorded cls reference = f0 /\
  Tuner.shift_ratio recorded reference = f1.
Proof.
  intros cls Hnone.
  assert (Hfind : Tuner.find_closest_target_frequency recorded cls reference = f0).
  { unfold Tuner.find_closest_target_frequency.
    destruct (fgt recorded reference) eqn:Hside.
    - destruct (TunerFacts.scan_first true recorded cls Tuner.octaves_down)
        as [[_ Hscan] | (before & o & after & Hsplit & _ & Hhit & _)]; [exact Hscan|].
      exfalso. apply (Hnone o); [|exact Hhit].
      assert (Hin : In o Tuner.octaves_down) by (rewrite Hsplit; apply in_elt).
      unfold Tuner.octaves_down in Hin. simpl in Hin. lia.
    - destruct (TunerFacts.scan_first false recorded cls Tuner.octaves_up)
        as [[_ Hscan] | (before & o & after & Hsplit & _ & Hhit & _)]; [exact Hscan|].
      exfalso. apply (Hnone o); [|exact Hhit].
      assert (Hin : In o Tuner.octaves_up) by (rewrite Hsplit; apply in_elt).
      unfold Tuner.octaves_up in Hin. simpl in Hin. lia. }
  split; [exact Hfind|].
  unfold Tuner.shift_ratio. fold cls. rewrite Hfind. reflexivity.
Qed.

Lemma mapper_no_recurrence_witness :
  Tuner.find_closest_target_frequency (H := SeriesLibm.libm)
    (float_of_int 15) 3 (float_of_int 10) = f0 /\
  Tuner.shift_ratio (H := SeriesLibm.libm) (float_of_int 15) (float_of_int 10) = f1.
Proof.
  apply (mapper_no_recurrence (H := SeriesLibm.libm) (float_of_int 15) (float_of_int 10)).
  intros o Ho [_ Hside].
  assert (Ho' : o = 1 \/ o = 2 \/ o = 3 \/ o = 4 \/ o = 5 \/ o = 6 \/ o = 7 \/ o = 8) by lia.
  destruct Ho' as [-> | [-> | [-> | [-> | [-> | [-> | [-> | ->]]]]]]];
    vm_compute in Hside; discriminate.
Defined.

(** ** Layout of the two headers *)

(** Equalities between wrapped 32-bit values. *)
Ltac push_mod :=
  unfold u32, s32;
  change (2 ^ 32) with 4294967296; change (2 ^ 31) with 2147483648;
  Z.div_mod_to_equations; lia.

(** The 44 assignments of [wav_header], field by field. *)
Lemma wav_header_fields nsamples fs bits ch :
  0 <= ch < 256 ->
  Tuner.wav_header nsamples fs bits ch =
  tag_RIFF ++ le32 (Tuner.riffSize nsamples bits ch) ++ tag_WAVE ++
  tag_fmt ++ le32 16 ++ le16 1 ++ le16 ch ++ le32 fs ++
  le32 (Tuner.byteRate fs bits ch) ++ le16 (Tuner.blockAlign bits ch) ++
  le16 bits ++ tag_data ++ le32 (Tuner.dataSize nsamples bits ch).
Proof.
  intros Hch. unfold Tuner.wav_header, le32, le16, tag_RIFF, tag_WAVE, tag_fmt, tag_data.
  cbn [app].
  replace (u8 ch) with (Z.land ch 255).
  2: { unfold u8. change 255 with (Z.ones 8). rewrite Z.land_ones by lia. reflexivity. }
  replace (Z.land (Z.shiftr ch 8) 255) with 0.
  2: { rewrite Z.shiftr_div_pow2 by lia. rewrite Z.div_small by lia. reflexivity. }
  reflexivity.
Qed.

Lemma length_pcm_payload audio :
  0 <= audio.(length) ->
  Z.of_nat (List.length (Tuner.pcm_payload audio)) = 2 * audio.(length).
Proof.
  intros Hn. unfold Tuner.pcm_payload.
  rewrite (length_flat_map_const _ _ 2%nat) by apply length_le16.
  rewrite length_range. lia.
Qed.

Lemma length_payload audio :
  0 <= audio.(length) ->
  Z.of_nat (List.length (WavFloat.payload audio)) = 4 * audio.(length).
Proof.
  intros Hn. unfold WavFloat.payload.
  rewrite (length_flat_map_const _ _ 4%nat) by (intros; apply length_le32).
  rewrite length_range. lia.
Qed.

(** C9 -- Header layout.  Either writer produces 44 bytes of header
    followed by the sample bytes.  The header is, in order: ["RIFF"], the
    little-endian 32-bit image of 36 plus the number of data bytes,
    ["WAVE"], ["fmt "], 16, the format tag (1 for the 16-bit PCM writer, 3
    for the float writer), the channel count 1, the sample rate, the byte
    rate [rate * channels * bytes per sample], the block align
    [channels * bytes per sample], the bits per sample, ["data"] and the
    number of data bytes. *)
Theorem wav_header_layout (audio : AudioBuffer) :
  wf_buffer audio ->
  let rate := audio.(sample_rate) in
  (let samples := Tuner.pcm_payload audio in
   let bytes := Z.of_nat (List.length samples) in
   let hdr := tag_RIFF ++ le32 (36 + bytes) ++ tag_WAVE ++
              tag_fmt ++ le32 16 ++ le16 1 ++ le16 1 ++ le32 rate ++
              le32 (rate * 1 * 2) ++ le16 (1 * 2) ++ le16 16 ++
              tag_data ++ le32 bytes in
   bytes = audio.(length) * 2 /\
   List.length hdr = 44%nat /\
   Tuner.save_wav_to_sd audio = hdr ++ samples) /\
  (let samples := WavFloat.payload audio in
   let bytes := Z.of_nat (List.length samples) in
   let hdr := tag_RIFF ++ le32 (36 + bytes) ++ tag_WAVE ++
              tag_fmt ++ le32 16 ++ le16 3 ++ le16 1 ++ le32 rate ++
              le32 (rate * 1 * 4) ++ le16 (1 * 4) ++ le16 32 ++
              tag_data ++ le32 bytes in
   bytes = audio.(length) * 4 /\
   List.length hdr = 44%nat /\
   WavFloat.write_wav_file audio = hdr ++ samples).
Proof.
  intros Hwf rate.
  assert (Hn : 0 <= audio.(length)) by (rewrite Hwf; lia).
  split; cbv zeta.
  - rewrite (length_pcm_payload audio Hn).
    split; [lia|]. split; [reflexivity|].
    unfold Tuner.save_wav_to_sd. rewrite wav_header_fields by lia.
    assert (E1 : le32 (Tuner.riffSize (u32 (length audio)) 16 1)
                 = le32 (36 + 2 * length audio)).
    { apply le32_congr. unfold Tuner.riffSize, Tuner.dataSize, Tuner.blockAlign.
      change (u16 (1 * Z.quot 16 8)) with 2. push_mod. }
    assert (E2 : le32 (Tuner.dataSize (u32 (length audio)) 16 1)
                 = le32 (2 * length audio)).
    { apply le32_congr. unfold Tuner.dataSize, Tuner.blockAlign.
      change (u16 (1 * Z.quot 16 8)) with 2. push_mod. }
    assert (E3 : le32 (Tuner.byteRate (u32 (sample_rate audio)) 16 1)
                 = le32 (rate * 1 * 2)).
    { apply le32_congr. unfold Tuner.byteRate.
      change (Z.quot 16 8) with 2. subst rate. push_mod. }
    assert (E4 : le32 (u32 (sample_rate audio)) = le32 rate).
    { apply le32_congr. subst rate. push_mod. }
    rewrite E1, E2, E3, E4. rewrite <- !app_assoc. reflexivity.
  - rewrite (length_payload audio Hn).
    split; [lia|]. split; [reflexivity|].
    unfold WavFloat.write_wav_file, WavFloat.header, WavFloat.file_size, WavFloat.data_size.
    assert (E1 : le32 (s32 (36 + s32 (length audio * 4))) = le32 (36 + 4 * length audio)).
    { apply le32_congr. push_mod. }
    assert (E2 : le32 (s32 (length audio * 4)) = le32 (4 * length audio)).
    { apply le32_congr. push_mod. }
    assert (E3 : le32 (s32 (sample_rate audio * 4)) = le32 (rate * 1 * 4)).
    { apply le32_congr. subst rate. push_mod. }
    rewrite E1, E2, E3. rewrite <- !app_assoc. reflexivity.
Qed.

Lemma wav_header_layout_witness :
  Tuner.save_wav_to_sd (silence 3) =
  [82; 73; 70; 70; 42; 0; 0; 0; 87; 65; 86; 69;
   102; 109; 116; 32; 16; 0; 0; 0; 1; 0; 1; 0;
   128; 187; 0; 0; 0; 119; 1; 0; 2; 0; 16; 0;
   100; 97; 116; 97; 6; 0; 0; 0;
   0; 0; 0; 0; 0; 0].
Proof.
  destruct (wav_header_layout (silence 3) eq_refl) as [(_ & _ & Hpcm) _].
  rewrite Hpcm. vm_compute. reflexivity.
Defined.

(** C2 -- WAV round trip.  A buffer written as a float WAV file reads back
    as the same buffer, sample for sample.  Through the 16-bit conversions a
    finite sample of [[-1, 1]] comes back off by less than [2/32768]: the
    write truncates [sample * 32767], the read divides by 32768. *)
Theorem wav_round_trip (audio : AudioBuffer) (s : float) :
  (wf_buffer audio ->
   audio.(length) < 2 ^ 30 ->
   - 2 ^ 31 <= audio.(sample_rate) < 2 ^ 31 ->
   Forall (fun x => valid32 x = true) audio.(data) ->
   WavFloat.read_wav_file (WavFloat.write_wav_file audio) = Some audio) /\
  (finite32 s -> fle (fneg f1) s = true -> fle s f1 = true ->
   let stored := le16 (Tuner.sample_to_pcm16 s) in
   let loaded := Tuner.pcm16_to_sample (s16 (get16 stored 0)) in
   is_finite loaded = true /\
   (Rabs (B2R loaded - B2R s) < 2 / 32768)%R).
Proof.
  split.
  - apply WavFloatFacts.float_wav_round_trip.
  - intros Hs Hlo Hhi. cbv zeta.
    rewrite s16_get16_le16.
    replace (s16 (Tuner.sample_to_pcm16 s)) with (Tuner.sample_to_pcm16 s)
      by (unfold Tuner.sample_to_pcm16; now rewrite s16_idem).
    now apply PcmFacts.pcm16_round_trip.
Qed.

Lemma wav_round_trip_witness :
  WavFloat.read_wav_file (WavFloat.write_wav_file three_samples) = Some three_samples /\
  (Rabs (B2R (Tuner.pcm16_to_sample
                (s16 (get16 (le16 (Tuner.sample_to_pcm16 sample_0_7)) 0)))
         - B2R sample_0_7) < 2 / 32768)%R.
Proof.
  destruct (wav_round_trip three_samples sample_0_7) as [Hfloat Hpcm].
  split.
  - apply Hfloat.
    + reflexivity.
    + reflexivity.
    + split; [discriminate | reflexivity].
    + repeat constructor.
  - apply Hpcm.
    + split; reflexivity.
    + vm_compute. reflexivity.
    + vm_compute. reflexivity.
Defined.

(** C2, as stated, fails for the 16-bit encoding at [0.7f]: it is written
    as 22936 and read back as [22936 / 32768], which is [819 / 2^24] away,
    more than [1/32768 = 512 / 2^24]. *)
Lemma wav_round_trip_counterexample :
  ~ (forall s : float,
       finite32 s -> fle (fneg f1) s = true -> fle s f1 = true ->
       (Rabs (B2R (Tuner.pcm16_to_sample (Tuner.sample_to_pcm16 s)) - B2R s)
        <= 1 / 32768)%R).
Proof.
  intros Hall.
  specialize (Hall sample_0_7 (conj eq_refl eq_refl)).
  assert (H1 : fle (fneg f1) sample_0_7 = true) by (vm_compute; reflexivity).
  assert (H2 : fle sample_0_7 f1 = true) by (vm_compute; reflexivity).
  specialize (Hall H1 H2).
  assert (Hq : Tuner.sample_to_pcm16 sample_0_7 = 22936) by (vm_compute; reflexivity).
  rewrite Hq in Hall.
  destruct (PcmFacts.pcm16_to_sample_exact 22936 ltac:(lia)) as [_ Hv]. rewrite Hv in Hall.
  unfold sample_0_7 in Hall. rewrite B2R_finite in Hall. unfold sgn, mag in Hall.
  change (-24) with (- (24)) in Hall. rewrite bpow_neg in Hall by lia.
  change (2 ^ 24) with 16777216 in Hall.
  apply Rabs_bounds in Hall. lra.
Qed.

(** C3 -- Bounded amplitude.  When the signal an engine has built before
    its normalisation loop holds finite samples only, the buffer returned
    holds numbers in [[-1, 1]]: with a peak above [0.001f] every sample is
    multiplied by the float [0.9f / peak] and ends at most [0.9 + 2^-20] in
    magnitude; otherwise the samples are left as they are, at most [0.001f]
    in magnitude. *)
Theorem output_amplitude_bounded `{Libm} (uninit : PhaseVocoder.Complex)
        (fuel : nat) (input : AudioBuffer) (ratio : float) :
  (forall pre,
      PhaseVocoder.phase_vocoder_signal uninit fuel input (clamp_ratio ratio) = Done pre ->
      Forall finite32 pre ->
      exists out,
        PhaseVocoder.phase_vocoder_pitch_shift uninit fuel input ratio = Done (Some out) /\
        normalised pre out.(data)) /\
  (forall marks pre,
      Psola.detect_pitch_marks input = Some marks ->
      2 <= Psola.count marks ->
      Psola.synthesize input (clamp_ratio ratio) marks = Some pre ->
      Forall finite32 pre ->
      exists out,
        Psola.psola_pitch_shift input ratio = Some out /\
        normalised pre out.(data)).
Proof.
  split.
  - intros pre Hsig Hpre.
    unfold PhaseVocoder.phase_vocoder_pitch_shift, PhaseVocoder.phase_vocoder_body.
    rewrite Hsig. cbn [bind]. eexists. split; [reflexivity|].
    cbn [data]. now apply normalize_normalised.
  - intros marks pre Hmarks Hcount Hsyn Hpre.
    unfold Psola.psola_pitch_shift, Psola.psola_body.
    rewrite Hmarks.
    replace (Psola.count marks <? 2) with false by (symmetry; apply Z.ltb_ge; exact Hcount).
    rewrite Hsyn. eexists. split; [reflexivity|].
    cbn [data]. now apply normalize_normalised.
Qed.

Lemma output_amplitude_bounded_witness :
  (exists out,
      PhaseVocoder.phase_vocoder_pitch_shift (H := SeriesLibm.libm) czero 0
        (silence 100) f1 = Done (Some out) /\
      Forall unit_range out.(data)) /\
  (exists out,
      Psola.psola_pitch_shift (H := SeriesLibm.libm) loud f1 = Some out /\
      Forall unit_range out.(data)).
Proof.
  destruct (output_amplitude_bounded (H := SeriesLibm.libm) czero 0 (silence 100) f1)
    as [Hpv _].
  destruct (output_amplitude_bounded (H := SeriesLibm.libm) czero 0 loud f1)
    as [_ Hps].
  split.
  - destruct (Hpv (repeat f0 100)) as (out & Hout & Hn & _).
    + vm_compute; reflexivity.
    + apply finite32b_Forall. vm_compute; reflexivity.
    + exists out. split; assumption.
  - destruct (Hps [0; 200] loud_signal) as (out & Hout & Hn & _).
    + vm_compute; reflexivity.
    + vm_compute; discriminate.
    + vm_compute; reflexivity.
    + apply finite32b_Forall. vm_compute; reflexivity.
    + exists out. split; assumption.
Defined.

(** C3, as stated for every input, fails on a buffer that holds a NaN:
    the NaN goes through the overlap-add and the scaling and is the first
    sample PSOLA returns. *)
Lemma output_amplitude_counterexample :
  ~ (forall (input : AudioBuffer) (ratio : float) (out : AudioBuffer),
        Psola.psola_pitch_shift (H := SeriesLibm.libm) input ratio = Some out ->
        Forall unit_range out.(data)).
Proof.
  intros Hall.
  destruct (Psola.psola_pitch_shift (H := SeriesLibm.libm) poisoned f1) as [out|] eqn:E.
  - specialize (Hall poisoned f1 out E).
    assert (Hd : hd f0 out.(data) = S754_nan).
    { revert E. vm_compute. intros [= <-]. reflexivity. }
    destruct (data out) as [|y rest]; [discriminate Hd|]. simpl in Hd. subst y.
    inversion Hall as [|? ? [Hfin _] _]. discriminate Hfin.
  - revert E. vm_compute. discriminate.
Qed.



